(** * PFSP-WT: the flow-shop engine of [pfspwt], embedded in Rocq

    A shallow embedding of the Python package [pfspwt] (permutation
    flow-shop scheduling with weighted tardiness, solved by ant-colony
    optimisation) and the properties its specification states about it.

    NumPy arrays are lists: a matrix is a list of rows, an [int32] entry is
    an integer kept in the signed 32-bit range by an explicit wrap-around,
    buffers that the Python code updates in place are passed in and handed
    back. *)

From Stdlib Require Import ZArith List Lia Bool Permutation.
From Stdlib Require Import Floats.SpecFloat QArith.
From stdpp Require Import base tactics option list numbers sorting.

Local Open Scope Z_scope.

(** ** Fixed-width integers *)

Module FixedWidth.

(** Two's complement reduction of [x] to [bits] bits. *)
Definition wrap (bits : Z) (x : Z) : Z :=
  (x + 2 ^ (bits - 1)) mod 2 ^ bits - 2 ^ (bits - 1).

Definition int32 (x : Z) : Z := wrap 32 x.
Definition int64 (x : Z) : Z := wrap 64 x.

Definition min_int32 : Z := - 2 ^ 31.
Definition max_int32 : Z := 2 ^ 31 - 1.

Definition in_int32 (x : Z) : Prop := min_int32 <= x <= max_int32.

End FixedWidth.

(** ** Matrices as lists of rows *)

Module Matrix.

Abbreviation matrix := (list (list Z)).

(** [c[i, j]]; the kernels below only read inside the array. *)
Definition mget (c : matrix) (i j : nat) : Z :=
  match c !! i with
  | Some row => default 0 (row !! j)
  | None => 0
  end.

(** [c[i, j] = v], in place. *)
Definition mset (c : matrix) (i j : nat) (v : Z) : matrix :=
  alter (fun row => <[j := v]> row) i c.

(** [c.shape == (n, m)] *)
Definition shape (c : matrix) (n m : nat) : Prop :=
  length c = n /\ Forall (fun row => length row = m) c.

(** [c[:, j]] *)
Definition column (c : matrix) (j : nat) : list Z :=
  map (fun row => default 0 (row !! j)) c.

(** [c[i, :]] *)
Definition row (c : matrix) (i : nat) : list Z := default [] (c !! i).

(** [p.shape[0]] and [p.shape[1]] *)
Definition nrows (p : matrix) : nat := length p.
Definition ncols (p : matrix) : nat := length (row p 0).

End Matrix.

(** ** objective.py *)

Module Objective.
Import FixedWidth Matrix.

(** [np.cumsum] on an [int32] vector, as Numba compiles it: the running
    sum is kept in a 64-bit accumulator. *)
Fixpoint cumsum_from (acc : Z) (l : list Z) : list Z :=
  match l with
  | [] => []
  | x :: l' => let acc' := int64 (acc + x) in acc' :: cumsum_from acc' l'
  end.

Definition cumsum (l : list Z) : list Z := cumsum_from 0 l.

(** [c[:, 0] = v]: each value is narrowed to the buffer's [int32]. *)
Definition assign_col0 (c : matrix) (v : list Z) : matrix :=
  zip_with (fun row x => <[0%nat := int32 x]> row) c v.

(** [c[0, :] = v] *)
Definition assign_row0 (c : matrix) (v : list Z) : matrix :=
  alter (fun row => zip_with (fun _ x => int32 x) row v) 0%nat c.

(** Body of the double loop:
    [c[i, j] = max(c[i-1, j], c[i, j-1]) + p[i, j]]. *)
Definition cell_step (p : matrix) (i : nat) (c : matrix) (j : nat) : matrix :=
  mset c i j
    (int32 (Z.max (mget c (i - 1) j) (mget c i (j - 1)) + mget p i j)).

(** [for j in range(1, m)] *)
Definition row_loop (p : matrix) (m : nat) (c : matrix) (i : nat) : matrix :=
  fold_left (cell_step p i) (seq 1 (m - 1)) c.

(** [computation_times(c, p)]: fills the buffer [c] and hands it back. *)
Definition computation_times (c p : matrix) : matrix :=
  let n := nrows p in
  let m := ncols p in
  let c := assign_col0 c (cumsum (column p 0)) in
  let c := assign_row0 c (cumsum (row p 0)) in
  fold_left (row_loop p m) (seq 1 (n - 1)) c.

(** Every entry is a signed 32-bit value, as in an [i4] array. *)
Definition entries_int32 (p : matrix) : Prop :=
  Forall (Forall in_int32) p.

(** The flow-shop recurrence as the specification writes it, with sums
    over the integers. *)
Definition flowshop_recurrence (C P : matrix) (n m : nat) : Prop :=
  mget C 0 0 = mget P 0 0 /\
  (forall i, (1 <= i < n)%nat ->
     mget C i 0 = mget C (i - 1) 0 + mget P i 0) /\
  (forall j, (1 <= j < m)%nat ->
     mget C 0 j = mget C 0 (j - 1) + mget P 0 j) /\
  (forall i j, (1 <= i < n)%nat -> (1 <= j < m)%nat ->
     mget C i j = Z.max (mget C (i - 1) j) (mget C i (j - 1)) + mget P i j).

(** The same recurrence with every sum reduced to the buffer's 32 bits. *)
Definition flowshop_recurrence32 (C P : matrix) (n m : nat) : Prop :=
  mget C 0 0 = mget P 0 0 /\
  (forall i, (1 <= i < n)%nat ->
     mget C i 0 = int32 (mget C (i - 1) 0 + mget P i 0)) /\
  (forall j, (1 <= j < m)%nat ->
     mget C 0 j = int32 (mget C 0 (j - 1) + mget P 0 j)) /\
  (forall i j, (1 <= i < n)%nat -> (1 <= j < m)%nat ->
     mget C i j
     = int32 (Z.max (mget C (i - 1) j) (mget C i (j - 1)) + mget P i j)).

(** The recurrence of the specification read as a function on unbounded
    integers: the reference against which the 32-bit kernel is compared. *)
Fixpoint spec_completion (P : matrix) (i : nat) : nat -> Z :=
  fix col (j : nat) : Z :=
    match i, j with
    | O, O => mget P 0 0
    | S i', O => spec_completion P i' 0 + mget P i 0
    | O, S j' => col j' + mget P 0 j
    | S i', S j' => Z.max (spec_completion P i' j) (col j') + mget P i j
    end.

(** [instance.py]: the arrays of an instance; [c] is the scratch buffer
    for completion times, allocated with the shape of [p].  [p] and [d]
    are converted to [int32]; [w] keeps the integers it is given, which
    NumPy stores as [int64]. *)
Record Instance : Type := mkInstance {
  p : matrix;
  c : matrix;
  d : list Z;
  w : list Z
}.

Definition set_c (inst : Instance) (c' : matrix) : Instance :=
  {| p := p inst; c := c'; d := d inst; w := w inst |}.

(** NumPy index normalisation: a negative index counts from the end. *)
Definition norm_index (len : nat) (s : Z) : nat :=
  Z.to_nat (if s <? 0 then s + Z.of_nat len else s).

(** [a[solution]] for a vector and [p[solution, :]] for a matrix.  A job
    identifier outside the array is an error in NumPy; the functions below
    are only used with identifiers inside it. *)
Definition gather (a : list Z) (solution : list Z) : list Z :=
  map (fun s => default 0 (a !! norm_index (length a) s)) solution.

Definition take_rows (p : matrix) (solution : list Z) : matrix :=
  map (fun s => row p (norm_index (length p) s)) solution.

(** [c[:, -1]] *)
Definition last_column (c : matrix) : list Z := column c (ncols c - 1).

(** The decorator [objective]: recompute the completion times into
    [instance.c] when [refresh] is set, then call the wrapped function.  The
    updated instance is returned next to the value. *)
Definition objective {R : Type} (func : Instance -> list Z -> R)
    (instance : Instance) (solution : list Z) (refresh : bool)
    : R * Instance :=
  let instance' :=
    if refresh
    then set_c instance
           (computation_times (c instance) (take_rows (p instance) solution))
    else instance in
  (func instance' solution, instance').

(** [np.maximum(c[:, -1] - d, 0)] on [int32] vectors. *)
Definition tardiness (completion due : list Z) : list Z :=
  zip_with (fun ci di => Z.max (int32 (ci - di)) 0) completion due.

(** [np.dot] of integer vectors; the result is a 64-bit integer. *)
Definition dot (u v : list Z) : Z :=
  int64 (fold_left Z.add (zip_with Z.mul u v) 0).

Definition weighted_tardiness
    : Instance -> list Z -> bool -> Z * Instance :=
  objective (fun instance solution =>
    let d := gather (d instance) solution in
    let w := gather (w instance) solution in
    let t := tardiness (last_column (c instance)) d in
    dot w t).

(** [np.max]; an empty array is a [ValueError]. *)
Definition np_max (l : list Z) : option Z :=
  match l with
  | [] => None
  | x :: l' => Some (fold_left Z.max l' x)
  end.

Definition makespan : Instance -> list Z -> bool -> option Z * Instance :=
  objective (fun instance solution => np_max (last_column (c instance))).

(** A sequence of job identifiers that orders the jobs [0 .. n-1]. *)
Definition is_permutation (n : nat) (solution : list Z) : Prop :=
  Permutation solution (seqZ 0 (Z.of_nat n)).

(** [np.sort] on integers. *)
Definition np_sort (a : list Z) : list Z := merge_sort Z.le a.

(** Rows and columns of a completion matrix never decrease. *)
Definition monotone (C : matrix) (n m : nat) : Prop :=
  (forall i j, (1 <= i < n)%nat -> (j < m)%nat ->
     mget C (i - 1) j <= mget C i j) /\
  (forall i j, (i < n)%nat -> (1 <= j < m)%nat ->
     mget C i (j - 1) <= mget C i j).

Definition nonnegative (p : matrix) : Prop :=
  Forall (Forall (fun x => 0 <= x)) p.

(** Two jobs on one machine whose total processing time is 2^31. *)
Definition overflow_times : matrix := [[2147483647]; [1]].

Definition overflow_instance : Instance :=
  mkInstance overflow_times [[0]; [0]] [0; 0] [1; 1].

(** Two jobs on one machine that cannot both meet their due date. *)
Definition forced_instance : Instance :=
  mkInstance [[5]; [5]] [[0]; [0]] [1; 1] [1; 2].

(** Two identical jobs on one machine: both orders have the same weighted
    tardiness and the same makespan. *)
Definition twin_instance : Instance :=
  mkInstance [[5]; [5]] [[0]; [0]] [1; 1] [1; 1].

(** Three jobs on two machines. *)
Definition tiny_instance : Instance :=
  mkInstance [[3; 2]; [2; 4]; [1; 3]] [[0; 0]; [0; 0]; [0; 0]]
             [5; 9; 12] [1; 1; 1].

End Objective.


(** ** IEEE 754 arithmetic

    [float32] and [float64] values are [spec_float]s; each operation
    rounds to nearest even in its own format. *)

Module Float.

Abbreviation float := spec_float.

Definition prec32 : Z := 24.
Definition emax32 : Z := 128.
Definition prec64 : Z := 53.
Definition emax64 : Z := 1024.

(** Rounding of an arbitrary value to a format ([astype]). *)
Definition round_to (prec emax : Z) (x : float) : float :=
  match x with
  | S754_finite s m e => binary_round prec emax s m e
  | _ => x
  end.

Definition to_f32 : float -> float := round_to prec32 emax32.
Definition to_f64 : float -> float := round_to prec64 emax64.

Definition f32_of_Z (z : Z) : float := binary_normalize prec32 emax32 z 0 false.
Definition f64_of_Z (z : Z) : float := binary_normalize prec64 emax64 z 0 false.

Definition add32 : float -> float -> float := SFadd prec32 emax32.
Definition mul32 : float -> float -> float := SFmul prec32 emax32.
Definition div32 : float -> float -> float := SFdiv prec32 emax32.

Definition add64 : float -> float -> float := SFadd prec64 emax64.
Definition sub64 : float -> float -> float := SFsub prec64 emax64.
Definition mul64 : float -> float -> float := SFmul prec64 emax64.
Definition div64 : float -> float -> float := SFdiv prec64 emax64.
Definition sqrt64 : float -> float := SFsqrt prec64 emax64.

(** Comparisons of two values of the same format: they compare the
    exponents first, which is right for mantissas of the same width. *)
Definition ltb : float -> float -> bool := SFltb.
Definition leb : float -> float -> bool := SFleb.

Definition zero : float := S754_zero false.
Definition one64 : float := f64_of_Z 1.
Definition inf : float := S754_infinity false.

(** A decimal literal [num / den] as the nearest [float64]. *)
Definition f64_ratio (num den : Z) : float :=
  div64 (f64_of_Z num) (f64_of_Z den).

Definition is_zero (x : float) : bool :=
  match x with S754_zero _ => true | _ => false end.

Definition is_nan (x : float) : bool :=
  match x with S754_nan => true | _ => false end.

(** Neither an infinity nor a NaN. *)
Definition is_finite (x : float) : bool :=
  match x with
  | S754_zero _ | S754_finite _ _ _ => true
  | _ => false
  end.

End Float.

(** ** neighbourhood.py *)

Module Neighbourhood.
Import FixedWidth Matrix Objective Float.

(** [np.dot] of two [float32] vectors, added from left to right in
    [float32].  The routine behind [np.dot] is free to add in another order
    or in a wider accumulator; the results agree whenever every product and
    every partial sum is an integer below 2^24, where nothing is rounded. *)
Definition dot32 (u v : list float) : float :=
  fold_left add32 (zip_with mul32 u v) zero.

(** [t = np.maximum(c[:, -1] - d, 0).astype(np.float32)] followed by
    [np.dot(w, t)]: the value the kernels compare. *)
Definition evaluate_Z (c : matrix) (d : list Z) (w : list float) : float :=
  dot32 w (map f32_of_Z (tardiness (last_column c) d)).

(** [a[i], a[j] = a[j], a[i]] *)
Definition exchange (a : list Z) (i j : nat) : list Z :=
  let ai := default 0 (a !! i) in
  let aj := default 0 (a !! j) in
  <[j := ai]> (<[i := aj]> a).

(** The transposition of two positions. *)
Definition transpose (i j p : nat) : nat :=
  if decide (p = i) then j else if decide (p = j) then i else p.

(** [a[lo:hi]] *)
Definition slice (a : list Z) (lo hi : nat) : list Z :=
  firstn (hi - lo) (skipn lo a).

(** [a[lo:lo+len(v)] = v] *)
Definition assign_slice (a : list Z) (lo : nat) (v : list Z) : list Z :=
  firstn lo a ++ v ++ skipn (lo + length v) a.

(** [a[j+1:i+1], a[j] = a[j:i], a[i]]: both right-hand sides are read
    before the slice is written (an overlapping source is copied first). *)
Definition shift_insert (a : list Z) (i j : nat) : list Z :=
  let moved := slice a j i in
  let ai := default 0 (a !! i) in
  <[j := ai]> (assign_slice a (j + 1) moved).

(** [new_sol[:] = solution[:]] *)
Definition copy_into (new_sol solution : list Z) : list Z :=
  zip_with (fun _ s => s) new_sol solution.

(** [np.empty_like(solution)]: an array of the same length whose content
    is never read. *)
Definition empty_like (solution : list Z) : list Z :=
  replicate (length solution) 0.

(** What a kernel leaves behind: its return value and the three arrays it
    writes to. *)
Record kernel_result : Type := mkKernelResult {
  improvement : bool;
  c_out : matrix;
  solution_out : list Z;
  new_sol_out : list Z
}.

(** Loop state of [__swap_search]. *)
Record swap_state : Type := mkSwapState {
  sw_c : matrix;
  sw_solution : list Z;
  sw_bestZ : float;
  sw_best_idx : Z
}.

Definition swap_body (p : matrix) (d : list Z) (w : list float)
    (st : swap_state) (i : nat) : swap_state :=
  let solution := exchange (sw_solution st) i (i + 1) in
  let c := computation_times (sw_c st) (take_rows p solution) in
  let solution := exchange solution i (i + 1) in
  let currentZ := evaluate_Z c d w in
  if ltb currentZ (sw_bestZ st)
  then mkSwapState c solution currentZ (Z.of_nat i)
  else mkSwapState c solution (sw_bestZ st) (sw_best_idx st).

Definition __swap_search (c p : matrix) (d : list Z) (w : list float)
    (solution new_sol : list Z) : kernel_result :=
  let new_sol := copy_into new_sol solution in
  let c := computation_times c (take_rows p solution) in
  let bestZ := evaluate_Z c d w in
  let st := fold_left (swap_body p d w) (seq 0 (length solution - 1))
                      (mkSwapState c solution bestZ (-1)) in
  let i := sw_best_idx st in
  if -1 <? i
  then mkKernelResult true (sw_c st) (sw_solution st)
         (exchange new_sol (Z.to_nat i) (Z.to_nat i + 1))
  else mkKernelResult false (sw_c st) (sw_solution st) new_sol.

(** Loop state of [__interchange_search] and [__insertion_search]. *)
Record pair_state : Type := mkPairState {
  ps_c : matrix;
  ps_solution : list Z;
  ps_bestZ : float;
  ps_best_i : Z;
  ps_best_j : Z
}.

Definition interchange_body (p : matrix) (d : list Z) (w : list float)
    (i : nat) (st : pair_state) (j : nat) : pair_state :=
  let solution := exchange (ps_solution st) i j in
  let c := computation_times (ps_c st) (take_rows p solution) in
  let solution := exchange solution i j in
  let currentZ := evaluate_Z c d w in
  if ltb currentZ (ps_bestZ st)
  then mkPairState c solution currentZ (Z.of_nat i) (Z.of_nat j)
  else mkPairState c solution (ps_bestZ st) (ps_best_i st) (ps_best_j st).

Definition __interchange_search (c p : matrix) (d : list Z) (w : list float)
    (solution new_sol : list Z) : kernel_result :=
  let new_sol := copy_into new_sol solution in
  let c := computation_times c (take_rows p solution) in
  let bestZ := evaluate_Z c d w in
  let st :=
    fold_left
      (fun st i => fold_left (interchange_body p d w i) (seq 0 i) st)
      (seq 0 (length solution - 1))
      (mkPairState c solution bestZ (-1) (-1)) in
  let i := ps_best_i st in
  let j := ps_best_j st in
  if -1 <? i
  then mkKernelResult true (ps_c st) (ps_solution st)
         (exchange new_sol (Z.to_nat i) (Z.to_nat j))
  else mkKernelResult false (ps_c st) (ps_solution st) new_sol.

(** The statement after the comment "Put the jobs back in place" is a
    tuple expression without an assignment: [solution] keeps the move. *)
Definition insertion_body (p : matrix) (d : list Z) (w : list float)
    (i : nat) (st : pair_state) (j : nat) : pair_state :=
  let solution := shift_insert (ps_solution st) i j in
  let c := computation_times (ps_c st) (take_rows p solution) in
  let currentZ := evaluate_Z c d w in
  if ltb currentZ (ps_bestZ st)
  then mkPairState c solution currentZ (Z.of_nat i) (Z.of_nat j)
  else mkPairState c solution (ps_bestZ st) (ps_best_i st) (ps_best_j st).

Definition __insertion_search (c p : matrix) (d : list Z) (w : list float)
    (solution new_sol : list Z) : kernel_result :=
  let new_sol := copy_into new_sol solution in
  let c := computation_times c (take_rows p solution) in
  let bestZ := evaluate_Z c d w in
  let st :=
    fold_left
      (fun st i => fold_left (insertion_body p d w i) (seq 0 i) st)
      (seq 0 (length solution))
      (mkPairState c solution bestZ (-1) (-1)) in
  let i := ps_best_i st in
  let j := ps_best_j st in
  if -1 <? i
  then mkKernelResult true (ps_c st) (ps_solution st)
         (shift_insert new_sol (Z.to_nat i) (Z.to_nat j))
  else mkKernelResult false (ps_c st) (ps_solution st) new_sol.

(** What a wrapper returns, [(new_solution, improvement)], together with
    the two objects it has written to: the instance (its buffer [c]) and
    the caller's [solution] array. *)
Record search_result : Type := mkSearchResult {
  new_solution : list Z;
  improved : bool;
  instance_after : Instance;
  solution_after : list Z
}.

Definition wrap_kernel
    (kernel : matrix -> matrix -> list Z -> list float ->
              list Z -> list Z -> kernel_result)
    (instance : Instance) (solution : list Z) : search_result :=
  let d := gather (d instance) solution in
  let w := map f32_of_Z (gather (w instance) solution) in
  let r := kernel (c instance) (p instance) d w solution
                  (empty_like solution) in
  mkSearchResult (new_sol_out r) (improvement r)
                 (set_c instance (c_out r)) (solution_out r).

Definition swap_search : Instance -> list Z -> search_result :=
  wrap_kernel __swap_search.

(** The wrapper for interchange moves calls the swap kernel. *)
Definition interchange_search : Instance -> list Z -> search_result :=
  wrap_kernel __swap_search.

Definition insertion_search : Instance -> list Z -> search_result :=
  wrap_kernel __insertion_search.

(** Three jobs on two machines, equal due dates and weights: exchanging
    the first and the last job lowers the weighted tardiness, exchanging
    neighbours does not. *)
Definition interchange_instance : Instance :=
  mkInstance [[1; 3]; [2; 1]; [1; 2]] [[0; 0]; [0; 0]; [0; 0]]
             [0; 0; 0] [1; 1; 1].

(** Three jobs on one machine, equal due dates and weights. *)
Definition insertion_instance : Instance :=
  mkInstance [[2]; [3]; [1]] [[0]; [0]; [0]] [0; 0; 0] [1; 1; 1].

End Neighbourhood.

(** ** The process environment

    [time.time()] and the random generator of the compiled kernels are
    read from an environment that is threaded through the code: a sequence
    of clock readings and a sequence of uniform draws, each with a
    cursor. *)

Module Env.
Import Float.

(** The last two fields give what a compiled kernel reads when it indexes
    an array outside its bounds (the kernels are compiled without bounds
    checks): an integer for an integer array read at a stray index, a float
    for the trail matrix read at a stray row. *)
Record World : Type := mkWorld {
  clock : nat -> Q;
  clock_reads : nat;
  stream : nat -> float;
  drawn : nat;
  seeded : Z -> nat -> float;
  stray_int : Z -> Z;
  stray_float : Z -> nat -> float
}.

(** [time.time()] *)
Definition time_time (w : World) : Q * World :=
  (clock w (clock_reads w),
   mkWorld (clock w) (S (clock_reads w)) (stream w) (drawn w) (seeded w)
           (stray_int w) (stray_float w)).

(** [np.random.rand()] *)
Definition rand (w : World) : float * World :=
  (stream w (drawn w),
   mkWorld (clock w) (clock_reads w) (stream w) (S (drawn w)) (seeded w)
           (stray_int w) (stray_float w)).

(** [np.random.seed(seed)], called from interpreted code: it seeds NumPy's
    own generator, whose streams are [seeded].  Every draw of the package
    is made inside a compiled kernel, from the generator of the compiled
    code, which this call does not reseed: [stream] and its cursor are
    left alone. *)
Definition seed_rng (seed : Z) (w : World) : World := w.

(** An environment with the given uniform draws (then 1/2 for ever): the
    clock advances by one second per reading and stray reads give zero. *)
Definition world_with_draws (draws : list float) : World :=
  mkWorld (fun n => inject_Z (Z.of_nat n)) 0
          (fun n => nth n draws (f64_ratio 1 2)) 0
          (fun _ n => nth n draws (f64_ratio 1 2))
          (fun _ => 0) (fun _ _ => zero).

Definition sample_world : World := world_with_draws [].

End Env.

(** ** optimizer/base.py *)

Module BaseOpt.
Import Objective Env.

(** A limit that is either a number or [np.inf]. *)
Inductive bound : Type :=
  | Finite (k : Z)
  | Infinite.

(** [x > b] and [x >= b] for a counter [x]. *)
Definition gt_bound (x : Z) (b : bound) : bool :=
  match b with Finite k => k <? x | Infinite => false end.

Definition ge_bound (x : Z) (b : bound) : bool :=
  match b with Finite k => k <=? x | Infinite => false end.

(** [a < b] on clock values. *)
Definition Qltb (a b : Q) : bool :=
  if Qlt_le_dec a b then true else false.

Record BaseOptimizer : Type := mkBaseOptimizer {
  _objective : list (list Z);
  _max_n_iterations : bound;
  _n_iterations : Z;
  _early_stopping : option bound;
  _max_time : option Q;
  _t0 : option Q;
  _n_steps_without_improvement : Z;
  _seed : option Z
}.

(** [BaseOptimizer.__init__(n_iterations, early_stopping, max_time, seed)] *)
Definition init (n_iterations : bound) (early_stopping : option bound)
    (max_time : option Q) (seed : option Z) : BaseOptimizer :=
  mkBaseOptimizer [] n_iterations 0 early_stopping max_time None 0 seed.

(** The defaults of the constructor: [np.inf], [np.inf], [None], [None]. *)
Definition init_default : BaseOptimizer :=
  init Infinite (Some Infinite) None None.

Definition start (w : World) (o : BaseOptimizer) : World * BaseOptimizer :=
  let w := match _seed o with
           | Some seed => seed_rng seed w
           | None => w
           end in
  let '(t0, w) :=
    match _max_time o with
    | Some _ => let '(now, w) := time_time w in (Some now, w)
    | None => (_t0 o, w)
    end in
  (w, mkBaseOptimizer [] (_max_n_iterations o) 0 (_early_stopping o)
        (_max_time o) t0 0 (_seed o)).

(** The part of [evaluate] that follows the call to [_evaluate]. *)
Definition record_evaluation (objectives : list Z) (is_improvement : bool)
    (o : BaseOptimizer) : BaseOptimizer :=
  let stagnation :=
    if negb is_improvement
    then _n_steps_without_improvement o + 1
    else 0 in
  mkBaseOptimizer (_objective o ++ [objectives]) (_max_n_iterations o)
    (_n_iterations o) (_early_stopping o) (_max_time o) (_t0 o)
    stagnation (_seed o).

Definition step (o : BaseOptimizer) : BaseOptimizer :=
  mkBaseOptimizer (_objective o) (_max_n_iterations o) (_n_iterations o + 1)
    (_early_stopping o) (_max_time o) (_t0 o)
    (_n_steps_without_improvement o) (_seed o).

(** [is_running()].  The clock is read only when [_t0] is set; comparing
    [None] with a number is a [TypeError], rendered as [None]. *)
Definition is_running (w : World) (o : BaseOptimizer)
    : option bool * World :=
  let '(timed_out, w) :=
    match _t0 o with
    | Some t0 =>
        let '(now, w) := time_time w in
        (match _max_time o with
         | Some max_time => Some (Qltb max_time (now - t0))
         | None => None
         end, w)
    | None => (Some false, w)
    end in
  (match timed_out with
   | None => None
   | Some true => Some false
   | Some false =>
       let stalled :=
         match _early_stopping o with
         | Some b => gt_bound (_n_steps_without_improvement o) b
         | None => false
         end in
       if stalled then Some false
       else if ge_bound (_n_iterations o) (_max_n_iterations o)
            then Some false
            else Some true
   end, w).

(** The three stopping conditions of the specification; the elapsed time
    is measured at the clock value [now]. *)
Definition time_exceeded (now : Q) (o : BaseOptimizer) : Prop :=
  exists t0 max_time,
    _t0 o = Some t0 /\ _max_time o = Some max_time /\
    (max_time < now - t0)%Q.

Definition stagnation_exceeded (o : BaseOptimizer) : Prop :=
  exists k, _early_stopping o = Some (Finite k) /\
            k < _n_steps_without_improvement o.

Definition iterations_reached (o : BaseOptimizer) : Prop :=
  exists k, _max_n_iterations o = Finite k /\ k <= _n_iterations o.

Definition bound_violated (now : Q) (o : BaseOptimizer) : Prop :=
  time_exceeded now o \/ stagnation_exceeded o \/ iterations_reached o.

(** States of an optimizer constructed with the given arguments. *)
Inductive reachable (n_iterations : bound) (early_stopping : option bound)
    (max_time : option Q) (seed : option Z) : BaseOptimizer -> Prop :=
  | reach_init :
      reachable n_iterations early_stopping max_time seed
        (init n_iterations early_stopping max_time seed)
  | reach_start w o :
      reachable n_iterations early_stopping max_time seed o ->
      reachable n_iterations early_stopping max_time seed (snd (start w o))
  | reach_evaluate objectives is_improvement o :
      reachable n_iterations early_stopping max_time seed o ->
      reachable n_iterations early_stopping max_time seed
        (record_evaluation objectives is_improvement o)
  | reach_step o :
      reachable n_iterations early_stopping max_time seed o ->
      reachable n_iterations early_stopping max_time seed (step o).

End BaseOpt.

(** ** optimizer/optimizer.py and optimizer/bioptimizer.py *)

Module Optimizers.
Import Objective Env BaseOpt.

(** The abstract part of [BaseOptimizer]: what a concrete optimizer adds
    to the shared state.  [_evaluate] returns the objective tuple and the
    improvement flag; an exception is rendered as [None]. *)
Class Evaluator (O : Type) : Type := {
  base : O -> BaseOptimizer;
  set_base : BaseOptimizer -> O -> O;
  _evaluate :
    Instance -> list Z -> O -> option (list Z * bool * O * Instance);
  solutions : O -> option (list (list Z))
}.

(** [BaseOptimizer.evaluate(instance, solution)] *)
Definition evaluate {O : Type} `{Evaluator O}
    (instance : Instance) (solution : list Z) (o : O)
    : option (Z * O * Instance) :=
  match _evaluate instance solution o with
  | None => None
  | Some (objectives, is_improvement, o, instance) =>
      let o :=
        set_base (record_evaluation objectives is_improvement (base o)) o in
      match objectives with
      | first :: _ => Some (first, o, instance)
      | [] => None
      end
  end.

(** *** Optimizer *)

Record Optimizer : Type := mkOptimizer {
  opt_base : BaseOptimizer;
  best : option (list Z);
  Zbest : bound
}.

(** [wt < self.Zbest], where [Zbest] starts as [np.inf]. *)
Definition lt_bound (x : Z) (b : bound) : bool :=
  match b with Finite k => x <? k | Infinite => true end.

Definition Optimizer_evaluate (instance : Instance) (solution : list Z)
    (o : Optimizer) : option (list Z * bool * Optimizer * Instance) :=
  let '(wt, instance) := weighted_tardiness instance solution true in
  if lt_bound wt (Zbest o)
  then Some ([wt], true,
             mkOptimizer (opt_base o) (Some solution) (Finite wt), instance)
  else Some ([wt], false, o, instance).

#[global] Instance Optimizer_Evaluator : Evaluator Optimizer := {|
  base := opt_base;
  set_base := fun b o => mkOptimizer b (best o) (Zbest o);
  _evaluate := Optimizer_evaluate;
  solutions := fun o =>
    match best o with
    | Some s => Some [s]
    | None => Some []
    end
|}.

Definition new_Optimizer (b : BaseOptimizer) : Optimizer :=
  mkOptimizer b None Infinite.

(** *** BiObjectiveOptimizer *)

(** A Python [dict] keyed by (weighted tardiness, makespan), in insertion
    order. *)
Abbreviation pareto := (list ((Z * Z) * list Z)).

(** [d[key] = value] *)
Fixpoint dict_set (dict : pareto) (key : Z * Z) (value : list Z) : pareto :=
  match dict with
  | [] => [(key, value)]
  | (k, v) :: rest =>
      if decide (k = key) then (k, value) :: rest
      else (k, v) :: dict_set rest key value
  end.

Record BiObjectiveOptimizer : Type := mkBiObjectiveOptimizer {
  bi_base : BaseOptimizer;
  pareto_set : pareto
}.

(** [dominates(a, b)], on the objective values of the two candidates. *)
Definition dominates (a b : Z * Z) : bool :=
  let '(wt_a, m_a) := a in
  let '(wt_b, m_b) := b in
  (wt_a <=? wt_b) && (m_a <=? m_b) && ((wt_a <? wt_b) || (m_a <? m_b)).

(** State of the loop over [self.pareto_set.items()]. *)
Record scan_state : Type := mkScan {
  new_pareto_set : pareto;
  new_sol_is_dominated : bool;
  is_improvement : bool
}.

(** The loop, with its [break]. *)
Fixpoint scan (items : pareto) (candidate : Z * Z) (st : scan_state)
    : scan_state :=
  match items with
  | [] => st
  | (key, sol) :: rest =>
      if dominates key candidate
      then mkScan (new_pareto_set st) true (is_improvement st)
      else if negb (dominates candidate key)
           then scan rest candidate
                  (mkScan (dict_set (new_pareto_set st) key sol)
                          (new_sol_is_dominated st) (is_improvement st))
           else scan rest candidate
                  (mkScan (new_pareto_set st) (new_sol_is_dominated st) true)
  end.

(** The update of the Pareto set with a candidate of known objectives. *)
Definition update_pareto (set : pareto) (candidate : Z * Z)
    (new_sol : list Z) : pareto * bool :=
  let st := scan set candidate (mkScan [] false false) in
  if negb (new_sol_is_dominated st)
  then (dict_set (new_pareto_set st) candidate new_sol, is_improvement st)
  else (set, is_improvement st).

Definition BiObjective_evaluate (instance : Instance) (new_sol : list Z)
    (o : BiObjectiveOptimizer)
    : option (list Z * bool * BiObjectiveOptimizer * Instance) :=
  let '(new_wt, instance) := weighted_tardiness instance new_sol true in
  match makespan instance new_sol false with
  | (None, _) => None
  | (Some new_m, instance) =>
      let '(set, improvement) :=
        update_pareto (pareto_set o) (new_wt, new_m) new_sol in
      Some ([new_wt; new_m], improvement,
            mkBiObjectiveOptimizer (bi_base o) set, instance)
  end.

#[global] Instance BiObjective_Evaluator : Evaluator BiObjectiveOptimizer := {|
  base := bi_base;
  set_base := fun b o => mkBiObjectiveOptimizer b (pareto_set o);
  _evaluate := BiObjective_evaluate;
  (* [for _, _, sol in self.pareto_set] unpacks each key, a pair, into
     three names *)
  solutions := fun o =>
    match pareto_set o with
    | [] => Some []
    | _ :: _ => None
    end
|}.

(** The entries that a candidate does not dominate. *)
Definition survivors (candidate : Z * Z) (set : pareto) : pareto :=
  List.filter (fun a => negb (dominates candidate (fst a))) set.

(** What every concrete optimizer satisfies: [_evaluate] leaves the
    attributes of the base class alone. *)
Class EvaluatorLaws (O : Type) `{Evaluator O} : Prop := {
  base_set_base : forall b o, base (set_base b o) = b;
  _evaluate_base :
    forall instance solution o objectives improved o' instance',
      _evaluate instance solution o
        = Some (objectives, improved, o', instance') ->
      base o' = base o
}.

(** No entry of the set dominates another one. *)
Definition mutually_nondominated (set : pareto) : Prop :=
  forall a b, a ∈ set -> b ∈ set -> dominates (fst a) (fst b) = false.

(** The keys of a dictionary are distinct. *)
Definition distinct_keys (set : pareto) : Prop := NoDup (map fst set).

End Optimizers.

(** ** heuristics.py *)

Module Heuristics.
Import FixedWidth Matrix Objective.

(** [np.argsort]: the indices that sort the vector.  Equal keys keep their
    index order, as NumPy's default sort leaves them on vectors of at most
    16 entries; on longer vectors the order of equal keys is NumPy's
    choice. *)
Fixpoint insert_by_key (x : Z * Z) (l : list (Z * Z)) : list (Z * Z) :=
  match l with
  | [] => [x]
  | y :: l' =>
      if fst x <=? fst y then x :: l else y :: insert_by_key x l'
  end.

Definition sort_by_key (l : list (Z * Z)) : list (Z * Z) :=
  foldr insert_by_key [] l.

Definition argsort (a : list Z) : list Z :=
  map snd (sort_by_key (zip a (seqZ 0 (Z.of_nat (length a))))).

(** [seq[:h] + [x] + seq[h:]] *)
Definition insert_at (seq : list Z) (h : nat) (x : Z) : list Z :=
  firstn h seq ++ [x] ++ skipn h seq.

(** [c[:k, :]], a view on the first [k] rows, and the write-back of the
    view into the buffer. *)
Definition first_rows (c : matrix) (k : nat) : matrix := firstn k c.

Definition write_first_rows (c view : matrix) : matrix :=
  view ++ skipn (length view) c.

(** State of the inner loop of NEH: the buffer, the best value so far
    ([None] is [np.inf]) and its position. *)
Record neh_state : Type := mkNeh {
  neh_c : matrix;
  best_wt : option Z;
  best_idx : nat
}.

Definition neh_try (p : matrix) (w d : list Z) (solution : list Z) (x : Z)
    (st : neh_state) (h : nat) : neh_state :=
  let partial_indices := insert_at solution h x in
  let ordered_p := take_rows p partial_indices in
  let ordered_w := gather w partial_indices in
  let ordered_d := gather d partial_indices in
  let ordered_c := first_rows (neh_c st) (length partial_indices) in
  let ordered_c := computation_times ordered_c ordered_p in
  let c := write_first_rows (neh_c st) ordered_c in
  let ordered_t := tardiness (last_column ordered_c) ordered_d in
  let wt := dot ordered_w ordered_t in
  let better :=
    match best_wt st with
    | None => true
    | Some b => wt <? b
    end in
  if better then mkNeh c (Some wt) h else mkNeh c (best_wt st) (best_idx st).

(** One round of the outer loop: place job [x] in a sequence of [k] jobs. *)
Definition neh_place (p : matrix) (w d : list Z)
    (acc : list Z * matrix) (x : Z) : list Z * matrix :=
  let '(solution, c) := acc in
  let k := length solution in
  let st := fold_left (neh_try p w d solution x) (seq 0 (k + 1))
                      (mkNeh c None 0) in
  (insert_at solution (best_idx st) x, neh_c st).

(** [neh_algorithm(instance)]; an instance without jobs is an
    [IndexError]. *)
Definition neh_algorithm (instance : Instance)
    : option (list Z * Instance) :=
  let indices := argsort (d instance) in
  match indices with
  | [] => None
  | first :: others =>
      let '(solution, c) :=
        fold_left (neh_place (p instance) (w instance) (d instance))
                  others ([first], c instance) in
      Some (solution, set_c instance c)
  end.

End Heuristics.

(** ** ant.py and aco/base.py *)

Module Colony.
Import FixedWidth Matrix Objective Float Env BaseOpt Optimizers
       Neighbourhood Heuristics.

(** An ant wraps the array of its solution. *)
Record Ant : Type := mkAnt { asarray : list Z }.

Definition copy (ant : Ant) : Ant := mkAnt (asarray ant).

(** The values of the [ls] argument accepted by the constructor. *)
Inductive local_search_name : Type :=
  | ls_none
  | ls_swap
  | ls_interchange
  | ls_insertion.

(** The state of an initialised colony.  [X] is what a policy adds to the
    fields of the base class, [O] the optimizer it reports to.  The
    environment is part of the state. *)
Record ACO (O X : Type) : Type := mkACO {
  _optimizer : O;
  n_ants : nat;
  rho : float;
  _ls : local_search_name;
  _tau : list (list float);
  _best : Ant;
  _Zbest : Z;
  _instance : Instance;
  extra : X;
  world : World
}.

Arguments mkACO {O X}.
Arguments _optimizer {O X}.
Arguments n_ants {O X}.
Arguments rho {O X}.
Arguments _ls {O X}.
Arguments _tau {O X}.
Arguments _best {O X}.
Arguments _Zbest {O X}.
Arguments _instance {O X}.
Arguments extra {O X}.
Arguments world {O X}.

Section Setters.
Context {O X : Type}.

Definition set_optimizer (o : O) (s : ACO O X) : ACO O X :=
  mkACO o (n_ants s) (rho s) (_ls s) (_tau s) (_best s) (_Zbest s)
        (_instance s) (extra s) (world s).

Definition set_tau (tau : list (list float)) (s : ACO O X) : ACO O X :=
  mkACO (_optimizer s) (n_ants s) (rho s) (_ls s) tau (_best s) (_Zbest s)
        (_instance s) (extra s) (world s).

Definition set_best (ant : Ant) (Z : Z) (s : ACO O X) : ACO O X :=
  mkACO (_optimizer s) (n_ants s) (rho s) (_ls s) (_tau s) ant Z
        (_instance s) (extra s) (world s).

Definition set_instance (instance : Instance) (s : ACO O X) : ACO O X :=
  mkACO (_optimizer s) (n_ants s) (rho s) (_ls s) (_tau s) (_best s)
        (_Zbest s) instance (extra s) (world s).

Definition set_extra (x : X) (s : ACO O X) : ACO O X :=
  mkACO (_optimizer s) (n_ants s) (rho s) (_ls s) (_tau s) (_best s)
        (_Zbest s) (_instance s) x (world s).

Definition set_world (w : World) (s : ACO O X) : ACO O X :=
  mkACO (_optimizer s) (n_ants s) (rho s) (_ls s) (_tau s) (_best s)
        (_Zbest s) (_instance s) (extra s) w.

(** [self._instance.n] *)
Definition n_jobs (s : ACO O X) : nat := nrows (p (_instance s)).

(** [ACO.evaluate(ant)] *)
Definition aco_evaluate `{Evaluator O} (ant : Ant) (s : ACO O X)
    : option (Z * ACO O X) :=
  match evaluate (_instance s) (asarray ant) (_optimizer s) with
  | None => None
  | Some (score, o, instance) =>
      Some (score, set_instance instance (set_optimizer o s))
  end.

(** One round of [ACO.local_search]: the wrapper selected by [_ls]. *)
Definition search_round (ls : local_search_name) (instance : Instance)
    (solution : list Z) : search_result :=
  match ls with
  | ls_swap => swap_search instance solution
  | ls_interchange => interchange_search instance solution
  | ls_insertion => insertion_search instance solution
  | ls_none => mkSearchResult solution false instance solution
  end.

(** [for _ in range(3)], leaving the loop when a round does not improve. *)
Fixpoint search_rounds (rounds : nat) (ls : local_search_name)
    (instance : Instance) (solution : list Z) : list Z * Instance :=
  match rounds with
  | 0%nat => (solution, instance)
  | S rounds' =>
      let r := search_round ls instance solution in
      if negb (improved r)
      then (new_solution r, instance_after r)
      else search_rounds rounds' ls (instance_after r) (new_solution r)
  end.

(** [ACO.local_search(ant)].  The first round writes to the array of the
    ant it is given; the second component is that array after the call.
    Whatever else holds that array sees the same change: the optimizer,
    whose [best] is kept here by value, is not updated for it. *)
Definition local_search (ant : Ant) (s : ACO O X)
    : Ant * list Z * ACO O X :=
  let first := search_round (_ls s) (_instance s) (asarray ant) in
  let '(solution, instance) :=
    search_rounds 3 (_ls s) (_instance s) (asarray ant) in
  (mkAnt solution, solution_after first, set_instance instance s).

End Setters.

(** The abstract methods of [ACO].  [create_solution] also tells whether
    the array of the ant it returns is the array of [self._best]. *)
Class Policy (X : Type) : Type := {
  initial_solution :
    forall {O : Type}, ACO O X -> option (Ant * ACO O X);
  init_pheromones : forall {O : Type}, ACO O X -> ACO O X;
  update_pheromones :
    forall {O : Type} `{Evaluator O}, Ant -> ACO O X -> option (ACO O X);
  pheromones_are_individual : bool;
  update_parameters : forall {O : Type}, ACO O X -> ACO O X;
  create_solution :
    forall {O : Type}, ACO O X -> option (Ant * bool * ACO O X)
}.

(** [np.argmin] on the scores of a step; an empty list is a
    [ValueError]. *)
Fixpoint argmin_from (scores : list Z) (pos : nat) (best : Z) (arg : nat)
    : nat :=
  match scores with
  | [] => arg
  | x :: rest =>
      if x <? best then argmin_from rest (S pos) x pos
      else argmin_from rest (S pos) best arg
  end.

Definition argmin (scores : list Z) : option nat :=
  match scores with
  | [] => None
  | x :: rest => Some (argmin_from rest 1 x 0)
  end.

Section Engine.
Context {O X : Type} `{Evaluator O} `{Policy X}.

(** The loop over the ants of [ACO.step]; [k] ants remain. *)
Fixpoint ant_loop (k : nat) (solutions : list Ant) (scores : list Z)
    (s : ACO O X) : option (list Ant * list Z * ACO O X) :=
  match k with
  | 0%nat => Some (solutions, scores, s)
  | S k' =>
      match create_solution s with
      | None => None
      | Some (ant, shares_best, s) =>
          let '(ant', array_after, s) := local_search ant s in
          let s :=
            if shares_best
            then set_best (mkAnt array_after) (_Zbest s) s
            else s in
          let ant := ant' in
          match (if pheromones_are_individual
                 then update_pheromones ant s
                 else Some s) with
          | None => None
          | Some s =>
              let solutions := solutions ++ [ant] in
              match aco_evaluate ant s with
              | None => None
              | Some (score, s) =>
                  let scores := scores ++ [score] in
                  let s :=
                    if score <? _Zbest s then set_best ant score s else s in
                  let '(running, w) :=
                    is_running (world s) (base (_optimizer s)) in
                  let s := set_world w s in
                  match running with
                  | None => None
                  | Some false => Some (solutions, scores, s)
                  | Some true => ant_loop k' solutions scores s
                  end
              end
          end
      end
  end.

(** [ACO.step()] *)
Definition aco_step (s : ACO O X) : option (ACO O X) :=
  match ant_loop (n_ants s) [] [] s with
  | None => None
  | Some (solutions, scores, s) =>
      match argmin scores with
      | None => None
      | Some best_pos =>
          match solutions !! best_pos with
          | None => None
          | Some current_ant =>
              match (if negb pheromones_are_individual
                     then update_pheromones current_ant s
                     else Some s) with
              | None => None
              | Some s => Some (update_parameters s)
              end
          end
      end
  end.

(** [ACO.initialize(instance)], from the arguments of the constructor.
    The fields that the constructor sets to [None] hold placeholders until
    [initialize] assigns them. *)
Definition initialize (optimizer : O) (n_ants : nat) (rho : float)
    (ls : local_search_name) (x : X) (w : World) (instance : Instance)
    : option (ACO O X) :=
  let '(w, b) := start w (base optimizer) in
  let s := mkACO (set_base b optimizer) n_ants rho ls [] (mkAnt []) 0
                 instance x w in
  match initial_solution s with
  | None => None
  | Some (ant, s) =>
      match aco_evaluate ant s with
      | None => None
      | Some (Zbest, s) =>
          let s := set_best (copy ant) Zbest s in
          let '(ant, _, s) := local_search ant s in
          match aco_evaluate ant s with
          | None => None
          | Some (Z, s) =>
              let s := if Z <? _Zbest s then set_best (copy ant) Z s else s in
              Some (init_pheromones (update_parameters s))
          end
      end
  end.

(** History entries appended by the loop of a step for [j] ants. *)
Definition per_ant (j : nat) : nat :=
  if pheromones_are_individual then (2 * j)%nat else j.

(** The history kept by the optimizer of a colony. *)
Definition history (s : ACO O X) : list (list Z) :=
  _objective (base (_optimizer s)).

Definition stagnation (s : ACO O X) : Z :=
  _n_steps_without_improvement (base (_optimizer s)).

End Engine.

(** *** Arrays of floats and reads without bounds checks *)

(** [tau[i, k]] inside the array. *)
Definition fget (tau : list (list float)) (i k : nat) : float :=
  match tau !! i with
  | Some row => default zero (row !! k)
  | None => zero
  end.

(** Apply [f] to every entry, given its row and column. *)
Definition fmap_entries (f : nat -> nat -> float -> float)
    (tau : list (list float)) : list (list float) :=
  imap (fun i row => imap (fun k x => f i k x) row) tau.

(** [a[i]] in a compiled kernel: a negative index counts from the end,
    an index outside the array reads stray memory. *)
Definition read_int (w : World) (a : list Z) (i : Z) : Z :=
  let j := if i <? 0 then i + Z.of_nat (length a) else i in
  if (0 <=? j) && (j <? Z.of_nat (length a))
  then default 0 (a !! Z.to_nat j)
  else stray_int w i.

(** [T[job, k]] in a compiled kernel. *)
Definition read_trail (w : World) (T : list (list float)) (job : Z) (k : nat)
    : float :=
  let j := if job <? 0 then job + Z.of_nat (length T) else job in
  if (0 <=? j) && (j <? Z.of_nat (length T))
  then fget T (Z.to_nat j) k
  else stray_float w job k.

(** [np.argmax] of a float vector: the first NaN if there is one, else
    the first maximum; an empty vector is a [ValueError]. *)
Fixpoint argmax_from (l : list float) (pos : nat) (max_value : float)
    (max_idx : nat) : nat :=
  match l with
  | [] => max_idx
  | v :: rest =>
      if is_nan v then pos
      else if ltb max_value v then argmax_from rest (S pos) v pos
           else argmax_from rest (S pos) max_value max_idx
  end.

Definition argmax (l : list float) : option nat :=
  match l with
  | [] => None
  | v :: _ => Some (if is_nan v then 0%nat else argmax_from l 0 v 0)
  end.

(** [np.cumsum] and [sum] of a [float32] vector. *)
Fixpoint fcumsum_from (acc : float) (l : list float) : list float :=
  match l with
  | [] => []
  | x :: rest => let acc := add32 acc x in acc :: fcumsum_from acc rest
  end.

Definition fcumsum (l : list float) : list float := fcumsum_from zero l.

Definition fsum (l : list float) : float := fold_left add32 l zero.

(** [np.searchsorted(a, v)] on a non-decreasing [float32] vector and a
    [float64] value: the number of entries below [v].  Each entry is
    widened to [float64], which is exact, before it is compared. *)
Fixpoint searchsorted (a : list float) (v : float) : nat :=
  match a with
  | [] => 0
  | x :: rest => if ltb (to_f64 x) v then S (searchsorted rest v) else 0
  end.

(** [idx[:len][j]] for [idx = np.arange(size)]: inside the view the value
    is [j]; past the view but inside [idx] the memory of [idx] is read;
    past [idx] the read is stray. *)
Definition read_arange (w : World) (size : nat) (j : nat) : Z :=
  if (j <? size)%nat then Z.of_nat j else stray_int w (Z.of_nat j).

(** [candidates[np.arange(len(candidates)) != candidate_id]] *)
Definition remove_position (candidates : list Z) (candidate_id : Z)
    : list Z :=
  map snd
    (List.filter (fun '(pos, _) => negb (Z.of_nat pos =? candidate_id))
       (zip (seq 0 (length candidates)) candidates)).

(** Sampling step shared by the two kernels: normalise the trails of the
    candidates and search the cumulative probabilities for a draw. *)
Definition sample_position (trails : list float) (r : float) : nat :=
  let total := fsum trails in
  let proba := map (fun x => div32 x total) trails in
  searchsorted (fcumsum proba) r.

End Colony.

(** ** aco/mmas.py *)

Module MMAS.
Import FixedWidth Matrix Objective Float Env BaseOpt Optimizers
       Heuristics Colony.

(** The attributes that [MMAS] adds: the bounds of the trails. *)
Record state : Type := mkState {
  _tau_max : float;
  _tau_min : float
}.

Section Methods.
Context {O : Type}.

Definition initial_solution (s : ACO O state) : option (Ant * ACO O state) :=
  match neh_algorithm (_instance s) with
  | None => None
  | Some (solution, instance) => Some (mkAnt solution, set_instance instance s)
  end.

(** The divisor of [1. / ((1. - self.rho) * self._Zbest)]. *)
Definition tau_max_divisor (rho : float) (Zbest : Z) : float :=
  mul64 (sub64 one64 rho) (f64_of_Z Zbest).

Definition update_parameters (s : ACO O state) : ACO O state :=
  let tau_max := div64 one64 (tau_max_divisor (rho s) (_Zbest s)) in
  let tau_min := div64 tau_max (f64_of_Z 5) in
  set_extra (mkState tau_max tau_min) s.

(** [np.full((n, n), self._tau_max, dtype=np.float32)] *)
Definition init_pheromones (s : ACO O state) : ACO O state :=
  let n := n_jobs s in
  set_tau (replicate n (replicate n (to_f32 (_tau_max (extra s))))) s.

(** [np.clip(x, lo, hi)] = [minimum(maximum(x, lo), hi)] *)
Definition fmaximum (x y : float) : float :=
  if is_nan x || is_nan y then S754_nan else if ltb x y then y else x.

Definition fminimum (x y : float) : float :=
  if is_nan x || is_nan y then S754_nan else if ltb y x then y else x.

Definition clip (lo hi x : float) : float := fminimum (fmaximum x lo) hi.

(** [tau[i, k] += delta] on a [float32] array. *)
Definition deposit (delta : float) (tau : list (list float)) (i k : nat)
    : list (list float) :=
  alter (alter (fun x => add32 x delta) k) i tau.

(** [MMAS.update_pheromones(ant)].  The trails are a [float32] array; the
    scalars [rho] and [1. / Zcurrent] are [float64] and are rounded to
    [float32] before the array operation (NumPy's casting of scalars
    by value). *)
Definition update_pheromones `{Evaluator O} (ant : Ant) (s : ACO O state)
    : option (ACO O state) :=
  let n := n_jobs s in
  match aco_evaluate ant s with
  | None => None
  | Some (Zcurrent, s) =>
      let indices := asarray ant in
      (* self._tau *= self.rho *)
      let tau := map (map (fun x => mul32 x (to_f32 (rho s)))) (_tau s) in
      (* self._tau[indices, np.arange(n)] += (1. / Zcurrent) *)
      let delta := to_f32 (div64 one64 (f64_of_Z Zcurrent)) in
      let tau :=
        fold_left
          (fun tau k =>
             deposit delta tau
               (norm_index n (default 0 (indices !! k))) k)
          (seq 0 n) tau in
      (* np.clip(self._tau, self._tau_min, self._tau_max, out=self._tau) *)
      let lo := to_f32 (_tau_min (extra s)) in
      let hi := to_f32 (_tau_max (extra s)) in
      Some (set_tau (map (map (clip lo hi)) tau) s)
  end.

Definition pheromones_are_individual : bool := false.

(** State of the loop of [_create_solution]. *)
Record kernel_state : Type := mkKernel {
  ks_candidates : list Z;
  ks_solution : list Z;
  ks_world : World
}.

(** One position [k] of the compiled kernel. *)
Definition place (T : list (list float)) (n size : nat)
    (st : option kernel_state) (k : nat) : option kernel_state :=
  match st with
  | None => None
  | Some st =>
      let '(u, w) := rand (ks_world st) in
      let trails := map (fun job => read_trail w T job k) (ks_candidates st) in
      let threshold :=
        div64 (sub64 (f64_of_Z (Z.of_nat n)) (f64_of_Z 4))
              (f64_of_Z (Z.of_nat n)) in
      let choice :=
        if ltb u threshold
        then match argmax trails with
             | None => None
             | Some a => Some (Z.of_nat a, w)
             end
        else let '(r, w) := rand w in
             Some (read_arange w size (sample_position trails r), w) in
      match choice with
      | None => None
      | Some (candidate_id, w) =>
          let i := read_int w (ks_candidates st) candidate_id in
          Some (mkKernel (remove_position (ks_candidates st) candidate_id)
                         (<[k := i]> (ks_solution st)) w)
      end
  end.

(** [MMAS._create_solution(T, solution, best, candidates)] *)
Definition _create_solution (w : World) (T : list (list float))
    (solution best candidates : list Z) : option (list Z * World) :=
  let n := length T in
  let size := length candidates in
  let candidates := map (fun next_id => read_int w best next_id)
                        (seqZ 0 (Z.of_nat size)) in
  match fold_left (place T n size) (seq 0 n)
                  (Some (mkKernel candidates solution w)) with
  | None => None
  | Some st => Some (ks_solution st, ks_world st)
  end.

(** [n == len(np.unique(solution)) and np.all(n > solution) and
    np.all(solution >= 0)] *)
Definition is_valid (n : nat) (solution : list Z) : bool :=
  (n =? length (remove_dups solution))%nat
  && forallb (fun x => x <? Z.of_nat n) solution
  && forallb (fun x => 0 <=? x) solution.

(** The sequence kept by [create_solution] once the kernel has run. *)
Definition accept (n : nat) (best raw : list Z) : list Z * bool :=
  if is_valid n raw then (raw, false) else (best, true).

Definition create_solution (s : ACO O state)
    : option (Ant * bool * ACO O state) :=
  let n := n_jobs s in
  let solution := seqZ 0 (Z.of_nat n) in
  let candidates := replicate n 0 in
  match _create_solution (world s) (_tau s) solution
          (asarray (_best s)) candidates with
  | None => None
  | Some (raw, w) =>
      let '(solution, shares_best) := accept n (asarray (_best s)) raw in
      Some (mkAnt solution, shares_best, set_world w s)
  end.

End Methods.

#[global] Instance MMAS_Policy : Policy state := {|
  Colony.initial_solution := @initial_solution;
  Colony.init_pheromones := @init_pheromones;
  Colony.update_pheromones := @update_pheromones;
  Colony.pheromones_are_individual := pheromones_are_individual;
  Colony.update_parameters := @update_parameters;
  Colony.create_solution := @create_solution
|}.

End MMAS.

(** ** aco/paco.py *)

Module PACO.
Import FixedWidth Matrix Objective Float Env BaseOpt Optimizers
       Heuristics Colony.

(** The attribute that [PACO] adds: the seed ant. *)
Record state : Type := mkState {
  _seed_ant : option Ant
}.

Section Methods.
Context {O : Type}.

Definition initial_solution (s : ACO O state) : option (Ant * ACO O state) :=
  match neh_algorithm (_instance s) with
  | None => None
  | Some (solution, instance) => Some (mkAnt solution, set_instance instance s)
  end.

(** [np.abs(h - k)] for a position [h] and a column [k]. *)
Definition distance (h : Z) (k : nat) : Z := Z.abs (h - Z.of_nat k).

Definition init_pheromones (s : ACO O state) : ACO O state :=
  let s := set_extra (mkState (Some (_best s))) s in
  let n := n_jobs s in
  let initial := to_f32 (div64 one64 (f64_of_Z (_Zbest s))) in
  let tau := replicate n (replicate n initial) in
  let indices := asarray (_best s) in
  (* h[i] is the position of job i in current sequence *)
  let h := argsort indices in
  let diff i k := distance (default 0 (h !! i)) k + 1 in
  let quarter := div64 (f64_of_Z (Z.of_nat n)) (f64_of_Z 4) in
  let half := div64 (f64_of_Z (Z.of_nat n)) (f64_of_Z 2) in
  let two := f32_of_Z 2 in
  (* self._tau[n / 4. < diff] /= 2. *)
  let tau :=
    fmap_entries
      (fun i k x => if ltb quarter (f64_of_Z (diff i k))
                    then div32 x two else x) tau in
  (* self._tau[n / 2. <= diff] /= 2. *)
  let tau :=
    fmap_entries
      (fun i k x => if leb half (f64_of_Z (diff i k))
                    then div32 x two else x) tau in
  set_tau tau s.

(** [h_best = self._best.asarray()[..., np.newaxis]] *)
Definition h_best (s : ACO O state) : list Z := asarray (_best s).

(** [np.sqrt(np.abs(h_best - k) + 1.)] at row [i], column [k]. *)
Definition diff_entry (h_best : list Z) (i k : nat) : float :=
  sqrt64 (add64 (f64_of_Z (distance (default 0 (h_best !! i)) k)) one64).

(** [bound = 1 if (n <= 40) else 2] *)
Definition bound_for (n : nat) : Z := if (n <=? 40)%nat then 1 else 2.

(** [idx = (np.abs(h - k) <= bound)] at row [i], column [k]. *)
Definition in_band (h : list Z) (n i k : nat) : bool :=
  distance (default 0 (h !! i)) k <=? bound_for n.

(** [PACO.update_pheromones(ant)].  The deposit is a [float64] array, so
    the sum is taken in [float64] and rounded when it is stored in the
    [float32] trails. *)
Definition update_pheromones `{Evaluator O} (ant : Ant) (s : ACO O state)
    : option (ACO O state) :=
  let n := n_jobs s in
  match aco_evaluate ant s with
  | None => None
  | Some (Zcurrent, s) =>
      (* h[i] is the position of job i in current sequence *)
      let h := argsort (asarray ant) in
      let h_best := h_best s in
      (* self._tau *= self.rho *)
      let tau := map (map (fun x => mul32 x (to_f32 (rho s)))) (_tau s) in
      (* self._tau[idx] += (1. / (diff[idx] * Zcurrent)) *)
      let tau :=
        fmap_entries
          (fun i k x =>
             if in_band h n i k
             then to_f32
                    (add64 (to_f64 x)
                       (div64 one64
                          (mul64 (diff_entry h_best i k)
                                 (f64_of_Z Zcurrent))))
             else x) tau in
      Some (set_tau tau s)
  end.

Definition pheromones_are_individual : bool := true.

Definition update_parameters (s : ACO O state) : ACO O state := s.

(** State of the loop of [_create_solution]. *)
Record kernel_state : Type := mkKernel {
  ks_candidates : list Z;
  ks_next_id : nat;
  ks_solution : list Z;
  ks_world : World
}.

(** Bounds of a slice of an array of length [len]. *)
Definition slice_bound (len : nat) (x : Z) : nat :=
  let y := if x <? 0 then x + Z.of_nat len else x in
  Z.to_nat (Z.min (Z.max y 0) (Z.of_nat len)).

(** [candidates[candidate_id:-1] = candidates[candidate_id+1:]]; slices of
    different lengths are a [ValueError]. *)
Definition shift_left (candidates : list Z) (candidate_id : Z)
    : option (list Z) :=
  let len := length candidates in
  let dst_lo := slice_bound len candidate_id in
  let dst_hi := slice_bound len (-1) in
  let src_lo := slice_bound len (candidate_id + 1) in
  let src := skipn src_lo candidates in
  if (length src =? dst_hi - dst_lo)%nat
  then Some (firstn dst_lo candidates ++ src
             ++ skipn (dst_lo + length src) candidates)
  else None.

(** One position [k] of the compiled kernel. *)
Definition place (T : list (list float)) (n : nat) (best : list Z)
    (st : option kernel_state) (k : nat) : option kernel_state :=
  match st with
  | None => None
  | Some st =>
      let '(u, w) := rand (ks_world st) in
      let trails := map (fun job => read_trail w T job k) (ks_candidates st) in
      let choice :=
        if leb u (f64_ratio 4 10) then Some (0, w)
        else if leb u (f64_ratio 8 10)
        then match argmax trails with
             | None => None
             | Some a => Some (Z.of_nat a, w)
             end
        else let '(r, w) := rand w in
             Some (read_arange w 5 (sample_position trails r), w) in
      match choice with
      | None => None
      | Some (candidate_id, w) =>
          let i := read_int w (ks_candidates st) candidate_id in
          let solution := <[k := i]> (ks_solution st) in
          if (ks_next_id st <? n)%nat
          then match shift_left (ks_candidates st) candidate_id with
               | None => None
               | Some shifted =>
                   let last := (length shifted - 1)%nat in
                   let refill := read_int w best (Z.of_nat (ks_next_id st)) in
                   Some (mkKernel (<[last := refill]> shifted)
                                  (S (ks_next_id st)) solution w)
               end
          else Some (mkKernel (remove_position (ks_candidates st) candidate_id)
                              (ks_next_id st) solution w)
      end
  end.

(** [PACO._create_solution(T, solution, best, candidates)] *)
Definition _create_solution (w : World) (T : list (list float))
    (solution best candidates : list Z) : option (list Z * World) :=
  let n := length T in
  let size := length candidates in
  let candidates := map (fun next_id => read_int w best next_id)
                        (seqZ 0 (Z.of_nat size)) in
  match fold_left (place T n best) (seq 0 n)
                  (Some (mkKernel candidates size solution w)) with
  | None => None
  | Some st => Some (ks_solution st, ks_world st)
  end.

Definition create_solution (s : ACO O state)
    : option (Ant * bool * ACO O state) :=
  let n := n_jobs s in
  let solution := seqZ 0 (Z.of_nat n) in
  let candidates := replicate 5 0 in
  (* T = np.cumsum(self._tau, axis=1) *)
  let T := map fcumsum (_tau s) in
  match _create_solution (world s) T solution
          (asarray (_best s)) candidates with
  | None => None
  | Some (solution, w) => Some (mkAnt solution, false, set_world w s)
  end.

End Methods.

#[global] Instance PACO_Policy : Policy state := {|
  Colony.initial_solution := @initial_solution;
  Colony.init_pheromones := @init_pheromones;
  Colony.update_pheromones := @update_pheromones;
  Colony.pheromones_are_individual := pheromones_are_individual;
  Colony.update_parameters := @update_parameters;
  Colony.create_solution := @create_solution
|}.

End PACO.

(** ** Sample colonies *)

Module Samples.
Import Objective Float Env BaseOpt Optimizers Neighbourhood Colony.

(** A colony of two ants without local search, initialised on the given
    instance in the sample environment. *)
Definition colony_on {X : Type} `{Policy X} (rho : float) (x : X)
    (w : World) (instance : Instance) : ACO Optimizer X :=
  default
    (mkACO (new_Optimizer init_default) 0 rho ls_none [] (mkAnt []) 0
           instance x w)
    (initialize (new_Optimizer init_default) 2 rho ls_none x w instance).

(** MMAS with rho = 0.23 on the forced-tardiness scenario. *)
Definition mmas_colony : ACO Optimizer MMAS.state :=
  colony_on (f64_ratio 23 100) (MMAS.mkState zero zero) sample_world
            forced_instance.

(** PACO with rho = 0.4 on three jobs. *)
Definition paco_colony : ACO Optimizer PACO.state :=
  colony_on (f64_ratio 4 10) (PACO.mkState None) sample_world
            insertion_instance.

(** MMAS on the three-job instance, whose NEH sequence has no
    tardiness. *)
Definition mmas_colony_without_tardiness : ACO Optimizer MMAS.state :=
  colony_on (f64_ratio 23 100) (MMAS.mkState zero zero) sample_world
            tiny_instance.

Definition paco_colony_without_tardiness : ACO Optimizer PACO.state :=
  colony_on (f64_ratio 4 10) (PACO.mkState None) sample_world
            tiny_instance.

End Samples.

(** ** Values compared by the local searches *)

Module KernelValues.
Import Matrix Objective Float Neighbourhood.

(** The value that a kernel computes for a candidate sequence while the
    incumbent is [solution]: the completion times are those of the
    candidate, the due dates and the weights are gathered once, by the
    wrapper, in the order of the incumbent. *)
Definition kernel_value (instance : Instance) (solution candidate : list Z)
    : float :=
  evaluate_Z
    (computation_times (c instance) (take_rows (p instance) candidate))
    (gather (d instance) solution)
    (map f32_of_Z (gather (w instance) solution)).

(** The incumbent with the jobs at positions [k] and [k + 1] exchanged. *)
Definition neighbour (solution : list Z) (k : nat) : list Z :=
  exchange solution k (k + 1).

(** The sequences [__swap_search] evaluates: the incumbent and its [n - 1]
    neighbours. *)
Definition is_candidate (solution : list Z) (n : nat) (candidate : list Z)
    : Prop :=
  candidate = solution \/
  exists k, (k + 1 < n)%nat /\ candidate = neighbour solution k.

(** The vector [t] of the kernel for a candidate, before its conversion to
    [float32]. *)
Definition kernel_tardiness (instance : Instance)
    (solution candidate : list Z) : list Z :=
  tardiness
    (last_column
       (computation_times (c instance) (take_rows (p instance) candidate)))
    (gather (d instance) solution).

(** The dot product of the weights and of [t] over the integers. *)
Definition kernel_sum (instance : Instance) (solution candidate : list Z)
    : Z :=
  fold_left Z.add
    (zip_with Z.mul (gather (w instance) solution)
                    (kernel_tardiness instance solution candidate)) 0.

(** The [float32] [x] holds the integer [z]: it is +0 and [z] is 0, or it
    is the positive normal number of mantissa [m] (24 binary digits) and
    exponent [e] with m = z·2^(−e).  Such a [z] lies in [0, 2^24). *)
Definition represents (x : float) (z : Z) : Prop :=
  (z = 0 /\ x = S754_zero false) \/
  (exists m e, x = S754_finite false m e /\
     Z.pos (digits2_pos m) = 24 /\ e <= 0 /\ Z.pos m = z * 2 ^ (- e)).

(** The range in which the kernel's arithmetic is exact: every entry of
    [t] and the dot product itself are integers below 2^24.  With weights
    that are integers in [0, 2^24), each product and each partial sum is
    then a [float32], so [np.dot] returns the same value in whatever order
    and precision it adds. *)
Definition exact_range (instance : Instance) (solution candidate : list Z)
    : Prop :=
  Forall (fun t => t < 2 ^ 24) (kernel_tardiness instance solution candidate) /\
  kernel_sum instance solution candidate < 2 ^ 24.

(** What the loop of [__swap_search] has established once the first [t]
    positions are scanned: [solution] is back in place, and the best value
    is the incumbent's or that of the recorded position, below which no
    scanned neighbour lies. *)
Definition scanned (instance : Instance) (solution : list Z) (n m : nat)
    (t : nat) (st : swap_state) : Prop :=
  let value := kernel_value instance solution in
  sw_solution st = solution /\ shape (sw_c st) n m /\
  ((sw_best_idx st = -1 /\ sw_bestZ st = value solution /\
    forall k, (k < t)%nat ->
      ltb (value (neighbour solution k)) (value solution) = false)
   \/
   (exists i, (i < t)%nat /\ sw_best_idx st = Z.of_nat i /\
      sw_bestZ st = value (neighbour solution i) /\
      ltb (value (neighbour solution i)) (value solution) = true /\
      forall k, (k < t)%nat ->
        ltb (value (neighbour solution k)) (value (neighbour solution i))
        = false)).

End KernelValues.

(** ** The states of an optimizer *)

Module Runs.
Import Objective Env BaseOpt Optimizers.

(** [b <= x] for a best value [b] that starts as [np.inf]. *)
Definition bound_le (b : bound) (x : Z) : Prop :=
  match b with Finite k => k <= x | Infinite => False end.

(** The states of an [Optimizer]: built by the constructor, then changed
    by [start], [evaluate] and [step]. *)
Inductive optimizer_state : Optimizer -> Prop :=
  | state_new n_iterations early_stopping max_time seed :
      optimizer_state
        (new_Optimizer (init n_iterations early_stopping max_time seed))
  | state_start w o :
      optimizer_state o ->
      optimizer_state (set_base (snd (start w (base o))) o)
  | state_evaluate instance solution o score o' instance' :
      optimizer_state o ->
      evaluate instance solution o = Some (score, o', instance') ->
      optimizer_state o'
  | state_step o :
      optimizer_state o ->
      optimizer_state (set_base (step (base o)) o).

(** An optimizer with the default bounds that has been started and has
    evaluated the sequences [0, 1] and [1, 0] of the two-job instance. *)
Definition sample_optimizer : option Optimizer :=
  let o := new_Optimizer init_default in
  let o := set_base (snd (start sample_world (base o))) o in
  match evaluate forced_instance [0; 1] o with
  | None => None
  | Some (_, o, instance) =>
      match evaluate instance [1; 0] o with
      | None => None
      | Some (_, o, _) => Some o
      end
  end.

End Runs.

(** ** run.py and hpo.py: the loop that drives a colony *)

Module Driver.
Import Objective Env BaseOpt Optimizers Colony.

(** How the loop ends: it is left because [is_running()] is false, an
    exception escapes, or the loop is still running when the steps allowed
    to the model are used up. *)
Inductive outcome (A : Type) : Type :=
  | Finished (a : A)
  | Raised
  | Unfinished (a : A).

Arguments Finished {A}.
Arguments Raised {A}.
Arguments Unfinished {A}.

Section Loop.
Context {O X : Type} `{Evaluator O} `{Policy X}.

(** [while optimizer.is_running(): aco.step()], where [optimizer] is the
    optimizer of the colony. *)
Fixpoint run_loop (fuel : nat) (s : ACO O X) : outcome (ACO O X) :=
  match fuel with
  | 0%nat => Unfinished s
  | S fuel' =>
      let '(running, w) := is_running (world s) (base (_optimizer s)) in
      let s := set_world w s in
      match running with
      | None => Raised
      | Some false => Finished s
      | Some true =>
          match aco_step s with
          | None => Raised
          | Some s' => run_loop fuel' s'
          end
      end
  end.

(** [optimizer._n_iterations] and [optimizer._max_n_iterations] of the
    optimizer of a colony. *)
Definition iterations (s : ACO O X) : Z :=
  _n_iterations (base (_optimizer s)).

Definition max_iterations (s : ACO O X) : bound :=
  _max_n_iterations (base (_optimizer s)).

End Loop.

(** The evaluations recorded by an optimizer between two states, each with
    its improvement flag. *)
Definition recorded (trace : list (list Z * bool)) (b : BaseOptimizer)
    : BaseOptimizer :=
  fold_left (fun b e => record_evaluation (fst e) (snd e) b) trace b.

End Driver.

(** ** The loop of the PACO constructor *)

Module PacoLoop.
Import Objective Float Env Colony.

(** What the loop of [PACO._create_solution] keeps when it runs on at least
    five jobs and every elected index lies in the window: after [k]
    positions, the jobs placed, the window and the rest of the best
    sequence make up the best sequence; [w0] is the state of the
    environment when the kernel starts. *)
Definition placed (n : nat) (best : list Z) (w0 : World) (k : nat)
    (st : PACO.kernel_state) : Prop :=
  length (PACO.ks_solution st) = n /\
  PACO.ks_next_id st = Nat.min (k + 5) n /\
  length (PACO.ks_candidates st) = (PACO.ks_next_id st - k)%nat /\
  firstn k (PACO.ks_solution st) ++ PACO.ks_candidates st
    ++ skipn (PACO.ks_next_id st) best ≡ₚ best /\
  stream (PACO.ks_world st) = stream w0 /\
  drawn (PACO.ks_world st) = (drawn w0 + k)%nat /\
  stray_int (PACO.ks_world st) = stray_int w0 /\
  stray_float (PACO.ks_world st) = stray_float w0.

(** An environment whose draws are all 0.3: the kernels always take the
    first candidate. *)
Definition first_candidate_world : World :=
  mkWorld (fun n => inject_Z (Z.of_nat n)) 0
          (fun _ => f64_ratio 3 10) 0
          (fun _ _ => f64_ratio 3 10)
          (fun _ => 0) (fun _ _ => zero).

(** Six jobs on one machine, and a PACO colony on them whose best sequence
    is [3, 1, 5, 0, 2, 4] and whose trails are all one. *)
Definition six_jobs : Instance :=
  mkInstance [[1]; [2]; [3]; [4]; [5]; [6]]
             [[0]; [0]; [0]; [0]; [0]; [0]]
             [0; 0; 0; 0; 0; 0] [1; 1; 1; 1; 1; 1].

Definition six_colony : ACO Optimizers.Optimizer PACO.state :=
  mkACO (Optimizers.new_Optimizer BaseOpt.init_default) 2 (f64_ratio 4 10)
        ls_none (replicate 6 (replicate 6 (f32_of_Z 1)))
        (mkAnt [3; 1; 5; 0; 2; 4]) 100 six_jobs (PACO.mkState None)
        first_candidate_world.

End PacoLoop.

(** ** The rounds of NEH *)

Module NehRounds.
Import FixedWidth Matrix Objective Heuristics.

(** The weighted tardiness that NEH computes for a partial sequence: the
    completion times are written to the first rows of the buffer. *)
Definition partial_wt (instance : Instance) (partial_indices : list Z) : Z :=
  let ordered_c :=
    computation_times
      (first_rows (c instance) (length partial_indices))
      (take_rows (p instance) partial_indices) in
  dot (gather (w instance) partial_indices)
      (tardiness (last_column ordered_c)
                 (gather (d instance) partial_indices)).

(** What the inner loop of NEH has established once the first [t]
    positions for job [x] are tried: the best position so far is the first
    one of smallest weighted tardiness. *)
Definition tried (instance : Instance) (solution : list Z) (x : Z)
    (n m : nat) (t : nat) (st : neh_state) : Prop :=
  let value h := partial_wt instance (insert_at solution h x) in
  shape (neh_c st) n m /\
  match t with
  | 0%nat => best_wt st = None
  | S _ =>
      (best_idx st < t)%nat /\ best_wt st = Some (value (best_idx st)) /\
      forall h, (h < t)%nat ->
        value (best_idx st) <= value h /\
        ((h < best_idx st)%nat -> value (best_idx st) < value h)
  end.

End NehRounds.

(** ** io.py: reading the next line that counts *)

Module IO.

(** A string is its sequence of code points; a file open for reading is
    the list of the lines that [f.readline()] has still to return, each
    with its line feed; at the end of the file [f.readline()] returns the
    empty string. *)
Abbreviation str := (list N).

Definition line_feed : N := 10%N.

Inductive io_result (A : Type) : Type :=
  | Returned (a : A)
  | IndexError.

Arguments Returned {A}.
Arguments IndexError {A}.

Section Readline.
(** [str.isalnum] on one character. *)
Variable isalnum : N -> bool.

(** [len(line) > 2 or line[0].isalnum()]; [line[0]] of the empty string is
    an [IndexError]. *)
Definition counts (line : str) : io_result bool :=
  if (2 <? length line)%nat then Returned true
  else match line with
       | [] => IndexError
       | c :: _ => Returned (isalnum c)
       end.

(** [line.replace('\n', '')] *)
Definition strip_line_feeds (line : str) : str :=
  List.filter (fun c => negb (c =? line_feed)%N) line.

(** The loop of [PFSPWTIO.readline] once [line] has been read.  The test
    [line is None] never holds, [f.readline()] returning a string. *)
Fixpoint readline_from (line : str) (f : list str)
    : io_result (str * list str) :=
  match counts line with
  | IndexError => IndexError
  | Returned true => Returned (strip_line_feeds line, f)
  | Returned false =>
      match f with
      | [] =>
          (* the next line is the empty string *)
          match counts [] with
          | IndexError => IndexError
          | Returned _ => Returned ([], [])
          end
      | next :: rest => readline_from next rest
      end
  end.

(** [PFSPWTIO.readline(f)] *)
Definition readline (f : list str) : io_result (str * list str) :=
  match f with
  | [] => readline_from [] []
  | line :: rest => readline_from line rest
  end.

(** A line at which the loop stops. *)
Definition accepted (line : str) : Prop :=
  (2 < length line)%nat \/
  exists c rest, line = c :: rest /\ isalnum c = true.

End Readline.

(** [str.isalnum] on the characters of ASCII. *)
Definition ascii_isalnum (c : N) : bool :=
  ((48 <=? c) && (c <=? 57) || (65 <=? c) && (c <=? 90)
   || (97 <=? c) && (c <=? 122))%N.

End IO.
(** * Properties *)

(** ** Fixed-width arithmetic *)

Module FixedWidthFacts.
Import FixedWidth.

Lemma int32_range x : in_int32 (int32 x).
Proof.
  unfold in_int32, int32, wrap, min_int32, max_int32.
  pose proof (Z.mod_pos_bound (x + 2 ^ (32 - 1)) (2 ^ 32) ltac:(lia)).
  change (2 ^ (32 - 1)) with 2147483648 in *.
  change (2 ^ 32) with 4294967296 in *.
  change (2 ^ 31) with 2147483648. lia.
Qed.

Lemma int32_id x : in_int32 x -> int32 x = x.
Proof.
  unfold in_int32, int32, wrap, min_int32, max_int32.
  change (2 ^ (32 - 1)) with 2147483648.
  change (2 ^ 32) with 4294967296.
  change (2 ^ 31) with 2147483648.
  intros H. rewrite Z.mod_small by lia. lia.
Qed.

Lemma int64_id x : - 2 ^ 63 <= x < 2 ^ 63 -> int64 x = x.
Proof.
  unfold int64, wrap.
  change (2 ^ (64 - 1)) with 9223372036854775808.
  change (2 ^ 64) with 18446744073709551616.
  change (2 ^ 63) with 9223372036854775808.
  intros H. rewrite Z.mod_small by lia. lia.
Qed.

(** Narrowing a 64-bit value to 32 bits forgets the 64-bit reduction. *)
Lemma int32_int64 x : int32 (int64 x) = int32 x.
Proof.
  unfold int32, int64, wrap.
  change (2 ^ (32 - 1)) with 2147483648.
  change (2 ^ (64 - 1)) with 9223372036854775808.
  change (2 ^ 64) with 18446744073709551616.
  change (2 ^ 32) with 4294967296.
  f_equal.
  set (y := (x + 9223372036854775808) mod 18446744073709551616).
  assert (Hy : y mod 4294967296 = (x + 9223372036854775808) mod 4294967296).
  { unfold y. apply Z.mod_mod_divide. exists 4294967296. lia. }
  replace (y - 9223372036854775808 + 2147483648)
    with (y + 2147483648 + (- 2147483648) * 4294967296) by lia.
  rewrite Z.mod_add by lia.
  rewrite <- Z.add_mod_idemp_l by lia.
  rewrite Hy.
  rewrite Z.add_mod_idemp_l by lia.
  replace (x + 9223372036854775808 + 2147483648)
    with (x + 2147483648 + 2147483648 * 4294967296) by lia.
  now rewrite Z.mod_add by lia.
Qed.

(** Reducing an operand first does not change the reduced sum. *)
Lemma int32_add_l x y : int32 (int32 x + y) = int32 (x + y).
Proof.
  unfold int32, wrap.
  change (2 ^ (32 - 1)) with 2147483648.
  change (2 ^ 32) with 4294967296.
  f_equal.
  replace ((x + 2147483648) mod 4294967296 - 2147483648 + y + 2147483648)
    with ((x + 2147483648) mod 4294967296 + y) by lia.
  rewrite Z.add_mod_idemp_l by lia. f_equal. lia.
Qed.

End FixedWidthFacts.

(** ** Matrix accesses *)

Module MatrixFacts.
Import Matrix.

Lemma shape_row c n m i r :
  shape c n m -> c !! i = Some r -> length r = m.
Proof.
  intros [_ Hrows] Hi.
  rewrite Forall_lookup in Hrows. exact (Hrows i r Hi).
Qed.

Lemma shape_mset c n m i j v : shape c n m -> shape (mset c i j v) n m.
Proof.
  intros [Hlen Hrows]. split.
  - unfold mset. now rewrite length_alter.
  - unfold mset. rewrite Forall_lookup in *. intros k r Hk.
    destruct (decide (i = k)) as [->|Hne].
    + rewrite list_lookup_alter_eq in Hk.
      destruct (c !! k) as [r0|] eqn:E; simplify_eq/=.
      rewrite length_insert. eauto.
    + rewrite list_lookup_alter_ne in Hk by done. eauto.
Qed.

Lemma mget_mset_eq c n m i j v :
  shape c n m -> (i < n)%nat -> (j < m)%nat -> mget (mset c i j v) i j = v.
Proof.
  intros Hs Hi Hj. unfold mget, mset.
  rewrite list_lookup_alter_eq.
  destruct (c !! i) as [r|] eqn:E; simpl.
  - rewrite list_lookup_insert_eq; [done|].
    rewrite (shape_row _ _ _ _ _ Hs E). done.
  - apply lookup_ge_None_1 in E. destruct Hs as [Hl _]. lia.
Qed.

Lemma mget_mset_ne c i j v i' j' :
  (i, j) <> (i', j') -> mget (mset c i j v) i' j' = mget c i' j'.
Proof.
  intros Hne. unfold mget, mset.
  destruct (decide (i = i')) as [->|Hi].
  - rewrite list_lookup_alter_eq.
    destruct (c !! i') as [r|]; simpl; [|done].
    rewrite list_lookup_insert_ne; [done|]. congruence.
  - now rewrite list_lookup_alter_ne.
Qed.

End MatrixFacts.

(** ** The completion-time kernel *)

Module KernelFacts.
Import FixedWidth FixedWidthFacts Matrix MatrixFacts Objective.

Lemma length_cumsum_from acc l : length (cumsum_from acc l) = length l.
Proof. revert acc. induction l as [|x l IH]; intros acc; simpl; auto. Qed.

Lemma cumsum_from_head acc x l :
  cumsum_from acc (x :: l) !! 0%nat = Some (int64 (acc + x)).
Proof. reflexivity. Qed.

(** Each entry of a running sum is the previous entry plus the next
    element, reduced to 64 bits. *)
Lemma cumsum_from_succ acc l i e :
  l !! S i = Some e ->
  exists x, cumsum_from acc l !! i = Some x /\
            cumsum_from acc l !! S i = Some (int64 (x + e)).
Proof.
  revert acc i. induction l as [|a l IH]; intros acc i Hl; [done|].
  simpl in Hl. destruct i as [|i].
  - destruct l as [|b l]; simplify_eq/=. eexists; split; reflexivity.
  - destruct (IH (int64 (acc + a)) i Hl) as (x & Hx & Hx').
    exists x. simpl. auto.
Qed.

Lemma shape_assign_col0 c v n m :
  shape c n m -> length v = n -> shape (assign_col0 c v) n m.
Proof.
  intros [Hl Hr] Hv. split.
  - unfold assign_col0. rewrite length_zip_with. lia.
  - unfold assign_col0. rewrite Forall_lookup in *. intros i r Hi.
    apply lookup_zip_with_Some in Hi as (r0 & x & -> & Hr0 & _).
    rewrite length_insert. eauto.
Qed.

Lemma mget_assign_col0 c v n m i x :
  shape c n m -> (0 < m)%nat -> (i < n)%nat -> v !! i = Some x ->
  mget (assign_col0 c v) i 0 = int32 x.
Proof.
  intros Hs Hm Hi Hx. unfold mget, assign_col0.
  rewrite lookup_zip_with. rewrite Hx.
  destruct (c !! i) as [r|] eqn:E; simpl.
  - rewrite list_lookup_insert_eq; [done|].
    rewrite (shape_row _ _ _ _ _ Hs E). done.
  - apply lookup_ge_None_1 in E. destruct Hs. lia.
Qed.

Lemma shape_assign_row0 c v n m :
  shape c n m -> length v = m -> shape (assign_row0 c v) n m.
Proof.
  intros [Hl Hr] Hv. split.
  - unfold assign_row0. now rewrite length_alter.
  - unfold assign_row0. rewrite Forall_lookup in *. intros i r Hi.
    destruct (decide (0%nat = i)) as [<-|Hne].
    + rewrite list_lookup_alter_eq in Hi.
      destruct (c !! 0%nat) as [r0|] eqn:E; simplify_eq/=.
      rewrite length_zip_with. specialize (Hr _ _ E). lia.
    + rewrite list_lookup_alter_ne in Hi by done. eauto.
Qed.

Lemma mget_assign_row0 c v n m j x :
  shape c n m -> (0 < n)%nat -> (j < m)%nat -> v !! j = Some x ->
  mget (assign_row0 c v) 0 j = int32 x.
Proof.
  intros Hs Hn Hj Hx. unfold mget, assign_row0.
  rewrite list_lookup_alter_eq.
  destruct (c !! 0%nat) as [r|] eqn:E; simpl.
  - rewrite lookup_zip_with. rewrite Hx.
    destruct (r !! j) eqn:Er; simpl; [done|].
    apply lookup_ge_None_1 in Er.
    rewrite (shape_row _ _ _ _ _ Hs E) in Er. lia.
  - apply lookup_ge_None_1 in E. destruct Hs. lia.
Qed.

Lemma mget_assign_row0_other c v i j :
  i <> 0%nat -> mget (assign_row0 c v) i j = mget c i j.
Proof.
  intros Hi. unfold mget, assign_row0.
  now rewrite list_lookup_alter_ne by done.
Qed.

(** The inner loop over [j = 1 .. k] on row [i]. *)
Lemma row_loop_prefix p c n m i k :
  shape c n m -> (1 <= i < n)%nat -> (k < m)%nat ->
  let c' := fold_left (cell_step p i) (seq 1 k) c in
  shape c' n m /\
  (forall i' j', (i' <> i \/ j' = 0 \/ k < j')%nat ->
                 mget c' i' j' = mget c i' j') /\
  (forall j, (1 <= j <= k)%nat ->
     mget c' i j
     = int32 (Z.max (mget c (i - 1) j) (mget c' i (j - 1)) + mget p i j)).
Proof.
  intros Hs Hi. induction k as [|k IH]; intros Hk; cbv zeta.
  - simpl. repeat split; auto; try apply Hs. intros j Hj. lia.
  - rewrite seq_S, fold_left_app. cbv zeta in IH.
    destruct IH as (Hs' & Hframe & Hrec); [lia|].
    change (1 + k)%nat with (S k). cbn [fold_left].
    set (c1 := fold_left (cell_step p i) (seq 1 k) c) in *.
    split; [|split].
    + apply shape_mset, Hs'.
    + intros i' j' Hij. unfold cell_step.
      rewrite mget_mset_ne by (intros [=]; lia).
      apply Hframe. lia.
    + intros j Hj. unfold cell_step.
      destruct (decide (j = S k)) as [->|Hne].
      * rewrite (mget_mset_eq _ n m) by (auto; lia).
        rewrite (mget_mset_ne _ _ _ _ i (S k - 1)) by (intros [=]; lia).
        rewrite (Hframe (i - 1)%nat (S k)) by lia.
        replace (S k - 1)%nat with k by lia. reflexivity.
      * rewrite !mget_mset_ne by (intros [=]; lia).
        apply Hrec. lia.
Qed.

(** The outer loop over [i = 1 .. k]. *)
Lemma outer_loop_prefix p c n m k :
  shape c n m -> (0 < m)%nat -> (k < n)%nat ->
  let c' := fold_left (row_loop p m) (seq 1 k) c in
  shape c' n m /\
  (forall i' j', (i' = 0 \/ k < i' \/ j' = 0)%nat ->
                 mget c' i' j' = mget c i' j') /\
  (forall i j, (1 <= i <= k)%nat -> (1 <= j < m)%nat ->
     mget c' i j
     = int32 (Z.max (mget c' (i - 1) j) (mget c' i (j - 1)) + mget p i j)).
Proof.
  intros Hs Hm. induction k as [|k IH]; intros Hk; cbv zeta.
  - simpl. repeat split; auto; try apply Hs. intros i j Hi. lia.
  - rewrite seq_S, fold_left_app. cbv zeta in IH.
    destruct IH as (Hs' & Hframe & Hrec); [lia|].
    change (1 + k)%nat with (S k). cbn [fold_left].
    set (c1 := fold_left (row_loop p m) (seq 1 k) c) in *.
    change (row_loop p m c1 (S k))
      with (fold_left (cell_step p (S k)) (seq 1 (m - 1)) c1).
    destruct (row_loop_prefix p c1 n m (S k) (m - 1) Hs') as (Hs2 & Hf2 & Hr2);
      [lia|lia|].
    set (c2 := fold_left (cell_step p (S k)) (seq 1 (m - 1)) c1) in *.
    split; [exact Hs2|split].
    + intros i' j' Hij. rewrite Hf2 by lia. apply Hframe. lia.
    + intros i j Hi Hj.
      destruct (decide (i = S k)) as [->|Hne].
      * rewrite Hr2 by lia.
        rewrite (Hf2 (S k - 1)%nat j) by lia. reflexivity.
      * rewrite (Hf2 i j), (Hf2 (i - 1)%nat j), (Hf2 i (j - 1)%nat) by lia.
        apply Hrec; lia.
Qed.

Lemma column_lookup p n m i :
  shape p n m -> (0 < m)%nat -> (i < n)%nat ->
  column p 0 !! i = Some (mget p i 0).
Proof.
  intros Hs Hm Hi. unfold column, mget.
  rewrite list_lookup_fmap.
  destruct (p !! i) as [r|] eqn:E; simpl; [done|].
  apply lookup_ge_None_1 in E. destruct Hs. lia.
Qed.

Lemma row_lookup p n m j :
  shape p n m -> (0 < n)%nat -> (j < m)%nat ->
  row p 0 !! j = Some (mget p 0 j).
Proof.
  intros Hs Hn Hj. unfold row, mget.
  destruct (p !! 0%nat) as [r|] eqn:E; simpl.
  - destruct (r !! j) eqn:Er; simpl; [done|].
    apply lookup_ge_None_1 in Er.
    rewrite (shape_row _ _ _ _ _ Hs E) in Er. lia.
  - apply lookup_ge_None_1 in E. destruct Hs. lia.
Qed.

Lemma shape_dims p n m :
  shape p n m -> (0 < n)%nat -> nrows p = n /\ ncols p = m.
Proof.
  intros Hs Hn. split; [apply Hs|].
  unfold ncols, row. destruct (p !! 0%nat) as [r|] eqn:E; simpl.
  - apply (shape_row _ _ _ _ _ Hs E).
  - apply lookup_ge_None_1 in E. destruct Hs. lia.
Qed.

Lemma length_column p j : length (column p j) = length p.
Proof. unfold column. now rewrite length_map. Qed.

Lemma mget_in_int32 p n m i j :
  shape p n m -> entries_int32 p -> (i < n)%nat -> (j < m)%nat ->
  in_int32 (mget p i j).
Proof.
  intros Hs He Hi Hj. unfold mget.
  destruct (p !! i) as [r|] eqn:E.
  - destruct (r !! j) as [x|] eqn:Er; simpl.
    + unfold entries_int32 in He. rewrite Forall_lookup in He.
      specialize (He _ _ E). rewrite Forall_lookup in He. eauto.
    + unfold in_int32, min_int32, max_int32. simpl. lia.
  - unfold in_int32, min_int32, max_int32. simpl. lia.
Qed.

(** The running sums, once stored in the buffer, follow the recurrence
    of the first column and of the first row. *)
Lemma cumsum_stored l i e :
  l !! S i = Some e ->
  exists x y, cumsum l !! i = Some x /\ cumsum l !! S i = Some y /\
              int32 y = int32 (int32 x + e).
Proof.
  intros Hl. destruct (cumsum_from_succ 0 l i e Hl) as (x & Hx & Hy).
  exists x, (int64 (x + e)). repeat split; auto.
  now rewrite int32_int64, int32_add_l.
Qed.

Lemma cumsum_first l x :
  l !! 0%nat = Some x -> in_int32 x ->
  exists y, cumsum l !! 0%nat = Some y /\ int32 y = x.
Proof.
  intros Hl Hx. destruct l as [|a l]; simplify_eq/=.
  eexists; split; [reflexivity|].
  rewrite int32_int64. now apply int32_id.
Qed.

(** What the buffer holds after the two vectorised assignments. *)
Lemma init_first_row c p n m :
  shape c n m -> shape p n m -> (0 < n)%nat -> (0 < m)%nat ->
  entries_int32 p ->
  let c2 := assign_row0 (assign_col0 c (cumsum (column p 0)))
                        (cumsum (row p 0)) in
  shape c2 n m /\
  mget c2 0 0 = mget p 0 0 /\
  (forall j, (1 <= j < m)%nat ->
     mget c2 0 j = int32 (mget c2 0 (j - 1) + mget p 0 j)) /\
  (forall i, (1 <= i < n)%nat ->
     mget c2 i 0 = int32 (mget c2 (i - 1) 0 + mget p i 0)).
Proof.
  intros Hc Hp Hn Hm He c2.
  assert (Hs1 : shape (assign_col0 c (cumsum (column p 0))) n m).
  { apply shape_assign_col0; auto.
    unfold cumsum. rewrite length_cumsum_from, length_column. apply Hp. }
  assert (Hs2 : shape c2 n m).
  { apply shape_assign_row0; auto.
    unfold cumsum. rewrite length_cumsum_from.
    apply (shape_dims p n m Hp Hn). }
  assert (H00 : mget c2 0 0 = mget p 0 0).
  { destruct (cumsum_first (row p 0) (mget p 0 0)) as (y & Hy & Hy').
    - now apply (row_lookup p n m).
    - now apply (mget_in_int32 p n m).
    - unfold c2. rewrite (mget_assign_row0 _ _ n m 0%nat y); auto. }
  assert (Hcol : forall i x, (i < n)%nat ->
            cumsum (column p 0) !! i = Some x -> mget c2 i 0 = int32 x).
  { intros i x Hi Hx. destruct i as [|i].
    - rewrite H00.
      destruct (cumsum_first (column p 0) (mget p 0 0)) as (y & Hy & Hy').
      + now apply (column_lookup p n m).
      + now apply (mget_in_int32 p n m).
      + congruence.
    - unfold c2. rewrite mget_assign_row0_other by lia.
      now apply (mget_assign_col0 _ _ n m). }
  split; [exact Hs2|]. split; [exact H00|]. split.
  - intros j Hj.
    destruct (cumsum_stored (row p 0) (j - 1) (mget p 0 j))
      as (x & y & Hx & Hy & Hxy).
    { replace (S (j - 1)) with j by lia. apply (row_lookup p n m); auto; lia. }
    replace (S (j - 1)) with j in Hy by lia.
    unfold c2.
    rewrite (mget_assign_row0 _ _ n m j y); auto; try lia.
    rewrite (mget_assign_row0 _ _ n m (j - 1)%nat x); auto; lia.
  - intros i Hi.
    destruct (cumsum_stored (column p 0) (i - 1) (mget p i 0))
      as (x & y & Hx & Hy & Hxy).
    { replace (S (i - 1)) with i by lia.
      apply (column_lookup p n m); auto; lia. }
    replace (S (i - 1)) with i in Hy by lia.
    rewrite (Hcol i y), (Hcol (i - 1)%nat x); auto; lia.
Qed.

(** Shape and contents of the buffer after the kernel has run. *)
Lemma computation_times_fills (c p : matrix) (n m : nat) :
  shape c n m -> shape p n m -> (1 <= n)%nat -> (1 <= m)%nat ->
  entries_int32 p ->
  shape (computation_times c p) n m /\
  flowshop_recurrence32 (computation_times c p) p n m.
Proof.
  intros Hc Hp Hn Hm He. unfold computation_times.
  destruct (shape_dims p n m Hp) as [-> ->]; [lia|].
  destruct (init_first_row c p n m Hc Hp) as (Hs2 & H00 & Hrow & Hcol);
    auto; try lia.
  set (c2 := assign_row0 (assign_col0 c (cumsum (column p 0)))
                         (cumsum (row p 0))) in *.
  destruct (outer_loop_prefix p c2 n m (n - 1) Hs2) as (Hs3 & Hf & Hr);
    try lia.
  set (C := fold_left (row_loop p m) (seq 1 (n - 1)) c2) in *.
  split; [exact Hs3|]. split; [|split; [|split]].
  - rewrite Hf by lia. exact H00.
  - intros i Hi. rewrite !(Hf _ 0%nat) by lia. now apply Hcol.
  - intros j Hj. rewrite !(Hf 0%nat) by lia. now apply Hrow.
  - intros i j Hi Hj. apply Hr; lia.
Qed.

End KernelFacts.

(** ** The kernel against the specification's recurrence *)

Module RefinementFacts.
Import FixedWidth FixedWidthFacts Matrix MatrixFacts Objective KernelFacts.

Lemma spec_completion_00 P : spec_completion P 0 0 = mget P 0 0.
Proof. reflexivity. Qed.

Lemma spec_completion_S0 P i :
  spec_completion P (S i) 0 = spec_completion P i 0 + mget P (S i) 0.
Proof. reflexivity. Qed.

Lemma spec_completion_0S P j :
  spec_completion P 0 (S j) = spec_completion P 0 j + mget P 0 (S j).
Proof. reflexivity. Qed.

Lemma spec_completion_SS P i j :
  spec_completion P (S i) (S j)
  = Z.max (spec_completion P i (S j)) (spec_completion P (S i) j)
    + mget P (S i) (S j).
Proof. reflexivity. Qed.

Lemma mget_nonneg P i j : nonnegative P -> 0 <= mget P i j.
Proof.
  intros HP. unfold mget.
  destruct (P !! i) as [r|] eqn:E; [|lia].
  destruct (r !! j) as [x|] eqn:Er; simpl; [|lia].
  unfold nonnegative in HP. rewrite Forall_lookup in HP.
  specialize (HP _ _ E). rewrite Forall_lookup in HP. eauto.
Qed.

Lemma spec_completion_step_i P i j :
  nonnegative P -> spec_completion P i j <= spec_completion P (S i) j.
Proof.
  intros HP. pose proof (mget_nonneg P (S i) j HP).
  destruct j as [|j].
  - rewrite spec_completion_S0. lia.
  - rewrite spec_completion_SS. lia.
Qed.

Lemma spec_completion_step_j P i j :
  nonnegative P -> spec_completion P i j <= spec_completion P i (S j).
Proof.
  intros HP. pose proof (mget_nonneg P i (S j) HP).
  destruct i as [|i].
  - rewrite spec_completion_0S. lia.
  - rewrite spec_completion_SS. lia.
Qed.

Lemma spec_completion_nonneg P i j :
  nonnegative P -> 0 <= spec_completion P i j.
Proof.
  intros HP. induction i as [|i IHi].
  - induction j as [|j IHj].
    + rewrite spec_completion_00. now apply mget_nonneg.
    + pose proof (spec_completion_step_j P 0 j HP). lia.
  - pose proof (spec_completion_step_i P i j HP). lia.
Qed.

Lemma spec_completion_mono P i j i' j' :
  nonnegative P -> (i <= i')%nat -> (j <= j')%nat ->
  spec_completion P i j <= spec_completion P i' j'.
Proof.
  intros HP Hi Hj.
  transitivity (spec_completion P i' j).
  - induction Hi as [|i' Hi IH]; [lia|].
    pose proof (spec_completion_step_i P i' j HP). lia.
  - induction Hj as [|j' Hj IH]; [lia|].
    pose proof (spec_completion_step_j P i' j' HP). lia.
Qed.

(** A buffer that satisfies the 32-bit recurrence holds the exact
    completion times as long as these fit in 32 bits. *)
Lemma recurrence32_exact C P n m :
  flowshop_recurrence32 C P n m ->
  (forall i j, (i < n)%nat -> (j < m)%nat ->
     in_int32 (spec_completion P i j)) ->
  forall i j, (i < n)%nat -> (j < m)%nat ->
    mget C i j = spec_completion P i j.
Proof.
  intros (H00 & Hcol & Hrow & Hrec) Hfit.
  induction i as [|i IHi].
  - induction j as [|j IHj]; intros Hi Hj.
    + now rewrite spec_completion_00.
    + rewrite (Hrow (S j)) by lia.
      replace (S j - 1)%nat with j by lia.
      rewrite IHj by lia. rewrite <- spec_completion_0S.
      apply int32_id, Hfit; lia.
  - induction j as [|j IHj]; intros Hi Hj.
    + rewrite (Hcol (S i)) by lia.
      replace (S i - 1)%nat with i by lia.
      rewrite IHi by lia. rewrite <- spec_completion_S0.
      apply int32_id, Hfit; lia.
    + rewrite (Hrec (S i) (S j)) by lia.
      replace (S i - 1)%nat with i by lia.
      replace (S j - 1)%nat with j by lia.
      rewrite IHi, IHj by lia. rewrite <- spec_completion_SS.
      apply int32_id, Hfit; lia.
Qed.

(** When the last completion time fits in 32 bits, all of them do. *)
Lemma spec_completion_fits P n m :
  nonnegative P -> (1 <= n)%nat -> (1 <= m)%nat ->
  spec_completion P (n - 1) (m - 1) <= max_int32 ->
  forall i j, (i < n)%nat -> (j < m)%nat -> in_int32 (spec_completion P i j).
Proof.
  intros HP Hn Hm Hlast i j Hi Hj. split.
  - pose proof (spec_completion_nonneg P i j HP).
    unfold min_int32. change (2 ^ 31) with 2147483648. lia.
  - pose proof (spec_completion_mono P i j (n - 1) (m - 1) HP). lia.
Qed.

End RefinementFacts.

(** ** Objectives *)

Module ObjectiveFacts.
Import FixedWidth FixedWidthFacts Matrix MatrixFacts Objective KernelFacts
       RefinementFacts.

Lemma is_permutation_length n solution :
  is_permutation n solution -> length solution = n.
Proof.
  intros H. apply Permutation_length in H.
  rewrite H, length_seqZ. lia.
Qed.

Lemma is_permutation_bounds n solution s :
  is_permutation n solution -> s ∈ solution -> 0 <= s < Z.of_nat n.
Proof.
  intros H Hs. unfold is_permutation in H.
  rewrite H in Hs. apply elem_of_seqZ in Hs. lia.
Qed.

Lemma norm_index_valid n s :
  0 <= s < Z.of_nat n -> (norm_index n s < n)%nat.
Proof.
  intros H. unfold norm_index.
  destruct (Z.ltb_spec s 0); lia.
Qed.

Lemma shape_take_rows P n m solution :
  shape P n m -> is_permutation n solution ->
  shape (take_rows P solution) n m.
Proof.
  intros HP Hs. split.
  - unfold take_rows. rewrite length_map. now apply is_permutation_length.
  - unfold take_rows. rewrite Forall_fmap, list.Forall_forall.
    intros s Hin. simpl.
    pose proof (is_permutation_bounds _ _ _ Hs Hin) as Hb.
    destruct HP as [Hl Hr]. rewrite Hl.
    pose proof (norm_index_valid _ _ Hb) as Hlt.
    unfold row.
    destruct (P !! norm_index n s) as [r|] eqn:E; simpl.
    + rewrite Forall_lookup in Hr. eauto.
    + apply lookup_ge_None_1 in E. lia.
Qed.

Lemma rows_take_rows (Q : list Z -> Prop) P solution :
  Q [] -> Forall Q P -> Forall Q (take_rows P solution).
Proof.
  intros Hnil HP. unfold take_rows. rewrite Forall_fmap, list.Forall_forall.
  intros s _. simpl. unfold row.
  destruct (P !! norm_index (length P) s) as [r|] eqn:E; simpl; [|done].
  rewrite Forall_lookup in HP. eauto.
Qed.

Lemma entries_int32_take_rows P solution :
  entries_int32 P -> entries_int32 (take_rows P solution).
Proof. apply rows_take_rows. constructor. Qed.

Lemma nonnegative_take_rows P solution :
  nonnegative P -> nonnegative (take_rows P solution).
Proof. apply rows_take_rows. constructor. Qed.

(** The maximum of a list that never decreases is its last element. *)
Lemma fold_max_ascending l a :
  (forall i x y, (a :: l) !! i = Some x -> (a :: l) !! S i = Some y -> x <= y) ->
  Some (fold_left Z.max l a) = (a :: l) !! length l.
Proof.
  revert a. induction l as [|b l IH]; intros a Hasc; [done|].
  simpl. assert (a <= b) by (apply (Hasc 0%nat); done).
  rewrite Z.max_r by lia.
  rewrite IH; [done|].
  intros i x y Hx Hy. apply (Hasc (S i)); done.
Qed.

Lemma np_max_ascending l :
  l <> [] ->
  (forall i x y, l !! i = Some x -> l !! S i = Some y -> x <= y) ->
  np_max l = l !! (length l - 1)%nat.
Proof.
  intros Hne Hasc. destruct l as [|a l]; [done|]. simpl.
  rewrite fold_max_ascending by done.
  replace (length l - 0)%nat with (length l) by lia. done.
Qed.

Lemma column_lookup_at C n m i j :
  shape C n m -> (i < n)%nat -> column C j !! i = Some (mget C i j).
Proof.
  intros Hs Hi. unfold column, mget. rewrite list_lookup_fmap.
  destruct (C !! i) as [r|] eqn:E; simpl; [done|].
  apply lookup_ge_None_1 in E. destruct Hs. lia.
Qed.

Lemma column_lookup_inv C n m i j x :
  shape C n m -> column C j !! i = Some x -> (i < n)%nat /\ x = mget C i j.
Proof.
  intros Hs Hx.
  assert (Hi : (i < n)%nat).
  { apply lookup_lt_Some in Hx. rewrite length_column in Hx.
    destruct Hs. lia. }
  split; [done|].
  rewrite (column_lookup_at C n m) in Hx by done. congruence.
Qed.

(** In a buffer whose rows never decrease downwards, [np.max(c[:, -1])]
    is the bottom right entry. *)
Lemma np_max_last_column C n m :
  shape C n m -> (1 <= n)%nat -> (1 <= m)%nat -> monotone C n m ->
  np_max (last_column C) = Some (mget C (n - 1) (m - 1)).
Proof.
  intros Hs Hn Hm [Hdown _]. unfold last_column.
  destruct (shape_dims C n m Hs) as [_ ->]; [lia|].
  rewrite np_max_ascending.
  - rewrite length_column. destruct Hs as [Hl Hr]. rewrite Hl.
    apply (column_lookup_at C n m); [by split|lia].
  - intros E. apply (f_equal length) in E.
    rewrite length_column in E. destruct Hs. simpl in E. lia.
  - intros i x y Hx Hy.
    apply (column_lookup_inv C n m) in Hx as [_ ->]; [|done].
    apply (column_lookup_inv C n m) in Hy as [Hi ->]; [|done].
    specialize (Hdown (S i) (m - 1)%nat).
    replace (S i - 1)%nat with i in Hdown by lia. apply Hdown; lia.
Qed.

(** Without overflow the kernel computes the specification's matrix. *)
Lemma computation_times_exact c0 P n m :
  shape c0 n m -> shape P n m -> (1 <= n)%nat -> (1 <= m)%nat ->
  entries_int32 P -> nonnegative P ->
  spec_completion P (n - 1) (m - 1) <= max_int32 ->
  let C := computation_times c0 P in
  shape C n m /\
  (forall i j, (i < n)%nat -> (j < m)%nat ->
     mget C i j = spec_completion P i j) /\
  flowshop_recurrence C P n m /\
  monotone C n m.
Proof.
  intros Hc HP Hn Hm He Hpos Hfit C.
  destruct (computation_times_fills c0 P n m) as [HsC H32]; auto.
  fold C in HsC, H32.
  pose proof (recurrence32_exact C P n m H32
                (spec_completion_fits P n m Hpos Hn Hm Hfit)) as Hex.
  split; [done|]. split; [done|]. split.
  - split; [|split; [|split]].
    + rewrite Hex by lia. reflexivity.
    + intros i Hi. rewrite !Hex by lia.
      destruct i as [|i]; [lia|].
      replace (S i - 1)%nat with i by lia. apply spec_completion_S0.
    + intros j Hj. rewrite !Hex by lia.
      destruct j as [|j]; [lia|].
      replace (S j - 1)%nat with j by lia. apply spec_completion_0S.
    + intros i j Hi Hj. rewrite !Hex by lia.
      destruct i as [|i]; [lia|]. destruct j as [|j]; [lia|].
      replace (S i - 1)%nat with i by lia.
      replace (S j - 1)%nat with j by lia. apply spec_completion_SS.
  - split.
    + intros i j Hi Hj. rewrite !Hex by lia.
      apply spec_completion_mono; auto; lia.
    + intros i j Hi Hj. rewrite !Hex by lia.
      apply spec_completion_mono; auto; lia.
Qed.

End ObjectiveFacts.

Import FixedWidth FixedWidthFacts Matrix MatrixFacts Objective KernelFacts
       RefinementFacts ObjectiveFacts.

(** C6 (as amended). For every instance whose processing times are all
    ≥ 0 and every permutation π of its jobs such that the exact completion
    time of the last position on the last machine fits in a signed 32-bit
    integer, [makespan(instance, π)] with refresh enabled returns
    C[N−1, M−1]; the refreshed buffer satisfies the flow-shop recurrence
    over the integers and C[i,j] ≥ C[i−1,j], C[i,j] ≥ C[i,j−1] for all valid
    (i,j), which makes the maximum of the last column its last entry. *)
Theorem makespan_last_completion
    (inst : Instance) (solution : list Z) (n m : nat) :
  shape (p inst) n m -> shape (c inst) n m ->
  (1 <= n)%nat -> (1 <= m)%nat ->
  entries_int32 (p inst) -> nonnegative (p inst) ->
  is_permutation n solution ->
  spec_completion (take_rows (p inst) solution) (n - 1) (m - 1)
    <= max_int32 ->
  let result := makespan inst solution true in
  let C := c (snd result) in
  fst result = Some (mget C (n - 1) (m - 1)) /\
  mget C (n - 1) (m - 1)
    = spec_completion (take_rows (p inst) solution) (n - 1) (m - 1) /\
  flowshop_recurrence C (take_rows (p inst) solution) n m /\
  monotone C n m.
Proof.
  intros Hp Hc Hn Hm He Hpos Hperm Hfit result C.
  destruct (computation_times_exact (c inst) (take_rows (p inst) solution) n m)
    as (HsC & Hex & Hrec & Hmono); auto.
  - now apply shape_take_rows.
  - now apply entries_int32_take_rows.
  - now apply nonnegative_take_rows.
  - subst result C. unfold makespan, objective. simpl.
    split; [|split; [|split]]; auto.
    + now apply (np_max_last_column _ n m).
    + apply Hex; lia.
Qed.

(** C1 (as amended). For every [int32] processing-time matrix P of shape
    N×M (N ≥ 1, M ≥ 1), [computation_times(c, p)] leaves the N×M buffer with
    C[0,0] = P[0,0], C[i,0] = C[i−1,0] + P[i,0] for i ≥ 1,
    C[0,j] = C[0,j−1] + P[0,j] for j ≥ 1 and
    C[i,j] = max(C[i−1,j], C[i,j−1]) + P[i,j] otherwise, every sum being
    reduced to a signed 32-bit value (two's complement wrap-around). *)
Theorem computation_times_recurrence32 (c p : matrix) (n m : nat) :
  shape c n m -> shape p n m -> (1 <= n)%nat -> (1 <= m)%nat ->
  entries_int32 p ->
  shape (computation_times c p) n m /\
  flowshop_recurrence32 (computation_times c p) p n m.
Proof. apply computation_times_fills. Qed.

Lemma computation_times_recurrence32_witness :
  shape (computation_times (c tiny_instance) (p tiny_instance)) 3 2 /\
  flowshop_recurrence32
    (computation_times (c tiny_instance) (p tiny_instance))
    (p tiny_instance) 3 2.
Proof.
  apply (computation_times_recurrence32
           (c tiny_instance) (p tiny_instance) 3 2).
  - split; [reflexivity|repeat constructor].
  - split; [reflexivity|repeat constructor].
  - lia.
  - lia.
  - repeat constructor; unfold min_int32, max_int32; simpl; lia.
Defined.

(** C1, as stated, fails when a sum leaves the 32-bit range: with
    P = [[2^31 − 1], [1]] the buffer holds C[1,0] = −2^31, not
    C[0,0] + P[1,0] = 2^31. *)
Lemma computation_times_wraps :
  shape overflow_times 2 1 /\ entries_int32 overflow_times /\
  ~ flowshop_recurrence
      (computation_times [[0]; [0]] overflow_times) overflow_times 2 1.
Proof.
  split; [split; [reflexivity|repeat constructor]|].
  split.
  - repeat constructor; unfold min_int32, max_int32; simpl; lia.
  - intros (_ & Hcol & _). specialize (Hcol 1%nat ltac:(lia)).
    vm_compute in Hcol. discriminate Hcol.
Qed.

Lemma makespan_last_completion_witness :
  let result := makespan tiny_instance [2; 0; 1] true in
  let C := c (snd result) in
  fst result = Some (mget C 2 1) /\
  mget C 2 1 = spec_completion (take_rows (p tiny_instance) [2; 0; 1]) 2 1 /\
  flowshop_recurrence C (take_rows (p tiny_instance) [2; 0; 1]) 3 2 /\
  monotone C 3 2.
Proof.
  apply (makespan_last_completion tiny_instance [2; 0; 1] 3 2).
  - split; [reflexivity|repeat constructor].
  - split; [reflexivity|repeat constructor].
  - lia.
  - lia.
  - repeat constructor; unfold min_int32, max_int32; simpl; lia.
  - repeat constructor; simpl; lia.
  - unfold is_permutation. change (seqZ 0 (Z.of_nat 3)) with [0; 1; 2].
    eapply perm_trans; [apply perm_swap|apply perm_skip, perm_swap].
  - vm_compute. intros E. discriminate E.
Defined.

(** C6, as stated, fails when the completion times overflow: for
    P = [[2^31 − 1], [1]] (all times ≥ 0) and π = [0, 1] the makespan
    returned is 2^31 − 1 although C[N−1, M−1] = −2^31. *)
Lemma makespan_not_last_on_overflow :
  nonnegative (p overflow_instance) /\ is_permutation 2 [0; 1] /\
  fst (makespan overflow_instance [0; 1] true) = Some 2147483647 /\
  mget (c (snd (makespan overflow_instance [0; 1] true))) 1 0 = -2147483648 /\
  fst (makespan overflow_instance [0; 1] true)
  <> Some (mget (c (snd (makespan overflow_instance [0; 1] true))) 1 0).
Proof.
  split; [repeat constructor; simpl; lia|].
  split; [unfold is_permutation; apply Permutation_refl|].
  split; [reflexivity|]. split; [reflexivity|].
  vm_compute. intros E. discriminate E.
Qed.

(** ** Stopping conditions *)

Module BaseOptFacts.
Import Env BaseOpt.

Lemma Qltb_true a b : Qltb a b = true <-> (a < b)%Q.
Proof.
  unfold Qltb. destruct (Qlt_le_dec a b) as [H|H]; split; auto.
  - discriminate.
  - intros H'. exfalso. apply (Qle_not_lt _ _ H H').
Qed.

Lemma gt_bound_true x b :
  gt_bound x b = true <-> exists k, b = Finite k /\ k < x.
Proof.
  destruct b as [k|]; simpl.
  - rewrite Z.ltb_lt. split; [eauto|]. intros (k' & [= <-] & H). exact H.
  - split; [discriminate|]. intros (k' & [=] & _).
Qed.

Lemma ge_bound_true x b :
  ge_bound x b = true <-> exists k, b = Finite k /\ k <= x.
Proof.
  destruct b as [k|]; simpl.
  - rewrite Z.leb_le. split; [eauto|]. intros (k' & [= <-] & H). exact H.
  - split; [discriminate|]. intros (k' & [=] & _).
Qed.

(** The constructor arguments are never reassigned, and [_t0] is only
    set when a time bound exists. *)
Lemma reachable_fields n_it early max_time seed o :
  reachable n_it early max_time seed o ->
  _max_n_iterations o = n_it /\ _early_stopping o = early /\
  _max_time o = max_time /\
  (forall t0, _t0 o = Some t0 -> exists mt, _max_time o = Some mt).
Proof.
  induction 1 as [|w o Hr IH|objs imp o Hr IH|o Hr IH].
  - simpl. repeat split; auto. discriminate.
  - destruct IH as (H1 & H2 & H3 & H4). unfold start.
    destruct (_max_time o) as [mt|] eqn:Emt.
    + destruct (time_time _) as [now w']. simpl.
      repeat split; eauto.
    + simpl. repeat split; auto.
  - exact IH.
  - exact IH.
Qed.

(** [is_running] decides the disjunction of the three conditions as soon
    as the time comparison is well typed. *)
Lemma is_running_decides w o :
  (forall t0, _t0 o = Some t0 -> exists mt, _max_time o = Some mt) ->
  let now := clock w (clock_reads w) in
  (fst (is_running w o) = Some false <-> bound_violated now o) /\
  (fst (is_running w o) = Some true <-> ~ bound_violated now o).
Proof.
  intros Ht0 now. unfold is_running, bound_violated.
  assert (Htime : forall b,
    match _t0 o with
    | Some t0 =>
        match _max_time o with
        | Some max_time => Some (Qltb max_time (now - t0))
        | None => None
        end
    | None => Some false
    end = Some b -> (b = true <-> time_exceeded now o)).
  { intros b Hb. unfold time_exceeded.
    destruct (_t0 o) as [t0|] eqn:E0.
    - destruct (_max_time o) as [mt|] eqn:Em; [|discriminate].
      injection Hb as <-. rewrite Qltb_true. split.
      + intros H. exists t0, mt. auto.
      + intros (t0' & mt' & [= <-] & [= <-] & H). exact H.
    - injection Hb as <-. split; [discriminate|].
      intros (t0' & mt' & [=] & _). }
  assert (Hstall :
    match _early_stopping o with
    | Some b => gt_bound (_n_steps_without_improvement o) b
    | None => false
    end = true <-> stagnation_exceeded o).
  { unfold stagnation_exceeded. destruct (_early_stopping o) as [b|].
    - rewrite gt_bound_true. split.
      + intros (k & -> & H). eauto.
      + intros (k & [= ->] & H). eauto.
    - split; [discriminate|]. intros (k & [=] & _). }
  pose proof (ge_bound_true (_n_iterations o) (_max_n_iterations o)) as Hit.
  fold (iterations_reached o) in Hit.
  destruct (_t0 o) as [t0|] eqn:E0.
  - destruct (Ht0 t0 eq_refl) as (mt & Em). rewrite Em in *.
    unfold time_time. simpl. fold now.
    specialize (Htime _ eq_refl).
    destruct (Qltb mt (now - t0)).
    + split; split; auto; try discriminate.
      * intros _. left. now apply Htime.
      * intros H. exfalso. apply H. left. now apply Htime.
    + destruct (match _early_stopping o with
                | Some b => gt_bound (_n_steps_without_improvement o) b
                | None => false end).
      * split; split; auto; try discriminate.
        -- intros _. right. left. now apply Hstall.
        -- intros H. exfalso. apply H. right. left. now apply Hstall.
      * destruct (ge_bound (_n_iterations o) (_max_n_iterations o)).
        -- split; split; auto; try discriminate.
           ++ intros _. right. right. now apply Hit.
           ++ intros H. exfalso. apply H. right. right. now apply Hit.
        -- split; split; auto; try discriminate.
           ++ intros [H|[H|H]].
              ** apply Htime in H. discriminate.
              ** apply Hstall in H. discriminate.
              ** apply Hit in H. discriminate.
           ++ intros _ [H|[H|H]].
              ** apply Htime in H. discriminate.
              ** apply Hstall in H. discriminate.
              ** apply Hit in H. discriminate.
  - simpl. specialize (Htime _ eq_refl).
    destruct (match _early_stopping o with
              | Some b => gt_bound (_n_steps_without_improvement o) b
              | None => false end).
    + split; split; auto; try discriminate.
      * intros _. right. left. now apply Hstall.
      * intros H. exfalso. apply H. right. left. now apply Hstall.
    + destruct (ge_bound (_n_iterations o) (_max_n_iterations o)).
      * split; split; auto; try discriminate.
        -- intros _. right. right. now apply Hit.
        -- intros H. exfalso. apply H. right. right. now apply Hit.
      * split; split; auto; try discriminate.
        -- intros [H|[H|H]].
           ++ apply Htime in H. discriminate.
           ++ apply Hstall in H. discriminate.
           ++ apply Hit in H. discriminate.
        -- intros _ [H|[H|H]].
           ++ apply Htime in H. discriminate.
           ++ apply Hstall in H. discriminate.
           ++ apply Hit in H. discriminate.
Qed.

Lemma is_running_returns w o :
  (forall t0, _t0 o = Some t0 -> exists mt, _max_time o = Some mt) ->
  exists b, fst (is_running w o) = Some b.
Proof.
  intros Ht0. unfold is_running.
  destruct (_t0 o) as [t0|] eqn:E0.
  - destruct (Ht0 t0 eq_refl) as (mt & ->).
    destruct (time_time w) as [now w']. simpl.
    destruct (Qltb mt (now - t0)); [eauto|].
    destruct (match _early_stopping o with
              | Some b => gt_bound (_n_steps_without_improvement o) b
              | None => false end); [eauto|].
    destruct (ge_bound _ _); eauto.
  - simpl.
    destruct (match _early_stopping o with
              | Some b => gt_bound (_n_steps_without_improvement o) b
              | None => false end); [eauto|].
    destruct (ge_bound _ _); eauto.
Qed.

Lemma default_never_violated now seed o :
  reachable Infinite (Some Infinite) None seed o -> ~ bound_violated now o.
Proof.
  intros Hr. destruct (reachable_fields _ _ _ _ _ Hr) as (H1 & H2 & H3 & _).
  intros [(t0 & mt & _ & Hm & _)|[(k & Hk & _)|(k & Hk & _)]]; congruence.
Qed.

End BaseOptFacts.

Import Env BaseOpt BaseOptFacts.

(** C5. For every state of an optimizer, [is_running()] returns a
    Boolean, and it returns [False] if and only if at least one bound is
    violated: the time elapsed since [start()] exceeds [max_time] (when a
    time bound is set), or the number of consecutive evaluations without
    improvement exceeds [early_stopping], or the iteration counter has
    reached [max_n_iterations]; otherwise it returns [True], and with the
    default bounds it always returns [True]. *)
Theorem is_running_iff_bound_violated
    (n_it : bound) (early : option bound) (max_time : option Q)
    (seed : option Z) (o : BaseOptimizer) (w : World) :
  reachable n_it early max_time seed o ->
  let now := clock w (clock_reads w) in
  (exists b, fst (is_running w o) = Some b) /\
  (fst (is_running w o) = Some false <-> bound_violated now o) /\
  (fst (is_running w o) = Some true <-> ~ bound_violated now o) /\
  (n_it = Infinite -> early = Some Infinite -> max_time = None ->
   fst (is_running w o) = Some true).
Proof.
  intros Hr now.
  destruct (reachable_fields _ _ _ _ _ Hr) as (_ & _ & _ & Ht0).
  destruct (is_running_decides w o Ht0) as [Hf Ht]. fold now in Hf, Ht.
  split; [now apply is_running_returns|].
  split; [exact Hf|]. split; [exact Ht|].
  intros -> -> ->. apply Ht. now apply (default_never_violated now seed).
Qed.

(** ** The Pareto set of the bi-objective optimizer *)

Module ParetoFacts.
Import Objective Env BaseOpt Optimizers.

Lemma dominates_irrefl a : dominates a a = false.
Proof.
  destruct a as [wt m]. unfold dominates.
  rewrite !Z.ltb_irrefl. simpl. apply andb_false_r.
Qed.

Lemma dict_set_fresh (dict : pareto) key value :
  key ∉ map fst dict -> dict_set dict key value = dict ++ [(key, value)].
Proof.
  induction dict as [|[k v] rest IH]; intros Hfresh; simpl; [done|].
  simpl in Hfresh. apply not_elem_of_cons in Hfresh as [Hne Hrest].
  destruct (decide (k = key)) as [->|_]; [done|].
  now rewrite IH.
Qed.

Lemma elem_of_dict_set (dict : pareto) key value x :
  x ∈ dict_set dict key value -> x = (key, value) \/ x ∈ dict.
Proof.
  induction dict as [|[k v] rest IH]; simpl.
  - intros H. apply list_elem_of_singleton in H. auto.
  - destruct (decide (k = key)) as [->|Hne].
    + intros H. apply elem_of_cons in H as [->|H]; [auto|].
      right. now apply list_elem_of_further.
    + intros H. apply elem_of_cons in H as [->|H].
      * right. apply list_elem_of_here.
      * destruct (IH H) as [->|H']; [auto|].
        right. now apply list_elem_of_further.
Qed.

(** A store under a key already present replaces the value held there and
    keeps every other entry. *)
Lemma elem_of_dict_set_iff (dict : pareto) key value x :
  distinct_keys dict ->
  x ∈ dict_set dict key value <->
  x = (key, value) \/ (x ∈ dict /\ fst x <> key).
Proof.
  unfold distinct_keys.
  induction dict as [|[k v] rest IH]; simpl; intros Hnd.
  - rewrite list_elem_of_singleton. split; [auto|].
    intros [->|[H _]]; [done|]. now apply elem_of_nil in H.
  - apply list.NoDup_cons in Hnd as [Hk Hrest].
    destruct (decide (k = key)) as [->|Hne].
    + rewrite !elem_of_cons. split.
      * intros [->|H]; [auto|]. right. split; [auto|].
        intros Heq. apply Hk. apply list_elem_of_fmap. now exists x.
      * intros [->|[[->|H] Hx]]; [auto| |auto]. now simpl in Hx.
    + rewrite !elem_of_cons, (IH Hrest). split.
      * intros [->|[->|[H Hx]]]; [|auto|auto].
        right. split; [auto|]. exact Hne.
      * intros [->|[[->|H] Hx]]; auto.
Qed.

Lemma keys_dict_set (dict : pareto) key value k :
  k ∈ map fst (dict_set dict key value) -> k = key \/ k ∈ map fst dict.
Proof.
  intros H. apply list_elem_of_fmap in H as ([k' v'] & -> & Hin).
  apply elem_of_dict_set in Hin as [[= -> ->]|Hin]; [auto|].
  right. apply list_elem_of_fmap. exists (k', v'). auto.
Qed.

Lemma distinct_keys_dict_set (dict : pareto) key value :
  distinct_keys dict -> distinct_keys (dict_set dict key value).
Proof.
  unfold distinct_keys.
  induction dict as [|[k v] rest IH]; simpl; intros Hnd.
  - apply list.NoDup_cons. split; [apply not_elem_of_nil|apply NoDup_nil_2].
  - apply list.NoDup_cons in Hnd as [Hk Hrest].
    destruct (decide (k = key)) as [->|Hne]; simpl.
    + apply list.NoDup_cons. auto.
    + apply list.NoDup_cons. split; [|auto].
      intros Hin. apply keys_dict_set in Hin as [->|Hin]; auto.
Qed.

Lemma elem_of_survivors candidate set a :
  a ∈ survivors candidate set <->
  a ∈ set /\ dominates candidate (fst a) = false.
Proof.
  unfold survivors. rewrite !list_elem_of_In, List.filter_In.
  rewrite negb_true_iff. reflexivity.
Qed.

Lemma distinct_keys_survivors candidate set :
  distinct_keys set -> distinct_keys (survivors candidate set).
Proof.
  unfold distinct_keys, survivors.
  induction set as [|[k v] rest IH]; simpl; intros Hnd; [done|].
  apply list.NoDup_cons in Hnd as [Hk Hrest].
  destruct (negb (dominates candidate k)); simpl; [|auto].
  apply list.NoDup_cons. split; [|auto].
  intros Hin. apply Hk.
  apply list_elem_of_fmap in Hin as (a & -> & Ha).
  apply list_elem_of_In, List.filter_In in Ha as [Ha _].
  apply list_elem_of_fmap. exists a. split; [done|].
  now apply list_elem_of_In.
Qed.

(** When an incumbent dominates the candidate the loop stops at the first
    such incumbent. *)
Lemma scan_dominated items candidate st :
  (exists a, a ∈ items /\ dominates (fst a) candidate = true) ->
  new_sol_is_dominated (scan items candidate st) = true.
Proof.
  revert st. induction items as [|[k v] rest IH]; intros st (a & Hin & Hdom).
  - now apply elem_of_nil in Hin.
  - simpl. destruct (dominates k candidate) eqn:Ek; [done|].
    apply elem_of_cons in Hin as [->|Hin]; [simpl in Hdom; congruence|].
    destruct (negb (dominates candidate k)); apply IH; eauto.
Qed.

(** Otherwise it copies the incumbents that the candidate does not
    dominate, in their order. *)
Lemma scan_keeps items candidate st :
  (forall a, a ∈ items -> dominates (fst a) candidate = false) ->
  distinct_keys (new_pareto_set st ++ items) ->
  new_pareto_set (scan items candidate st)
    = new_pareto_set st ++ survivors candidate items /\
  new_sol_is_dominated (scan items candidate st) = new_sol_is_dominated st.
Proof.
  revert st. induction items as [|[k v] rest IH]; intros st Hnone Hnd.
  - simpl. now rewrite app_nil_r.
  - pose proof (Hnone (k, v) (list_elem_of_here _ _)) as Hk.
    simpl in Hk. simpl. rewrite Hk.
    assert (Hrest : forall a, a ∈ rest -> dominates (fst a) candidate = false).
    { intros a Ha. apply Hnone. now apply list_elem_of_further. }
    unfold distinct_keys in Hnd. rewrite map_app in Hnd. simpl in Hnd.
    destruct (negb (dominates candidate k)) eqn:Ek; simpl.
    + assert (Hfresh : k ∉ map fst (new_pareto_set st)).
      { intros Hin. apply list.NoDup_app in Hnd as (_ & Hdisj & _).
        apply (Hdisj k Hin). apply list_elem_of_here. }
      destruct (IH (mkScan (dict_set (new_pareto_set st) k v)
                           (new_sol_is_dominated st) (is_improvement st)))
        as [Hset Hdom]; auto.
      * simpl. rewrite dict_set_fresh by done.
        unfold distinct_keys. rewrite <- app_assoc, map_app. exact Hnd.
      * simpl in Hset, Hdom. rewrite Hset, Hdom.
        rewrite dict_set_fresh by done. now rewrite <- app_assoc.
    + destruct (IH (mkScan (new_pareto_set st) (new_sol_is_dominated st) true))
        as [Hset Hdom]; auto.
      simpl. unfold distinct_keys. rewrite map_app.
      apply list.NoDup_app in Hnd as (H1 & H2 & H3).
      apply list.NoDup_cons in H3 as [_ H3].
      apply list.NoDup_app. split; [done|]. split; [|done].
      intros x Hx Hx'. apply (H2 x Hx). now apply list_elem_of_further.
Qed.

(** The three parts of the update. *)
Lemma update_pareto_dominated set candidate new_sol :
  (exists a, a ∈ set /\ dominates (fst a) candidate = true) ->
  fst (update_pareto set candidate new_sol) = set.
Proof.
  intros H. unfold update_pareto.
  now rewrite (scan_dominated set candidate _ H).
Qed.

Lemma update_pareto_inserted set candidate new_sol :
  distinct_keys set ->
  (forall a, a ∈ set -> dominates (fst a) candidate = false) ->
  fst (update_pareto set candidate new_sol)
    = dict_set (survivors candidate set) candidate new_sol.
Proof.
  intros Hnd Hnone. unfold update_pareto.
  destruct (scan_keeps set candidate (mkScan [] false false) Hnone Hnd)
    as [Hset Hdom].
  simpl in Hset, Hdom. now rewrite Hdom, Hset.
Qed.

Lemma dominated_or_not (set : pareto) candidate :
  (exists a, a ∈ set /\ dominates (fst a) candidate = true) \/
  (forall a, a ∈ set -> dominates (fst a) candidate = false).
Proof.
  induction set as [|a rest IH].
  - right. intros a Ha. now apply elem_of_nil in Ha.
  - destruct (dominates (fst a) candidate) eqn:Ea.
    + left. exists a. split; [apply list_elem_of_here|done].
    + destruct IH as [(b & Hb & Hdom)|Hnone].
      * left. exists b. split; [now apply list_elem_of_further|done].
      * right. intros b Hb. apply elem_of_cons in Hb as [->|Hb]; auto.
Qed.

Lemma update_pareto_nondominated set candidate new_sol :
  distinct_keys set -> mutually_nondominated set ->
  mutually_nondominated (fst (update_pareto set candidate new_sol)) /\
  distinct_keys (fst (update_pareto set candidate new_sol)).
Proof.
  intros Hnd Hinv.
  destruct (dominated_or_not set candidate) as [Hdom|Hnone].
  - now rewrite update_pareto_dominated.
  - rewrite update_pareto_inserted by done. split.
    + intros a b Ha Hb.
      apply elem_of_dict_set in Ha as [->|Ha];
        apply elem_of_dict_set in Hb as [->|Hb]; simpl.
      * apply dominates_irrefl.
      * now apply elem_of_survivors in Hb as [_ Hb].
      * apply elem_of_survivors in Ha as [Ha _]. now apply Hnone.
      * apply elem_of_survivors in Ha as [Ha _].
        apply elem_of_survivors in Hb as [Hb _]. now apply Hinv.
    + now apply distinct_keys_dict_set, distinct_keys_survivors.
Qed.

(** On a well-formed instance and a permutation of its jobs the
    evaluation returns. *)
Lemma bi_evaluate_returns instance new_sol (o : BiObjectiveOptimizer) n m :
  Matrix.shape (p instance) n m -> Matrix.shape (c instance) n m ->
  (1 <= n)%nat -> (1 <= m)%nat -> entries_int32 (p instance) ->
  is_permutation n new_sol ->
  exists result, _evaluate instance new_sol o = Some result.
Proof.
  intros Hp Hc Hn Hm He Hperm. simpl. unfold BiObjective_evaluate.
  unfold weighted_tardiness, makespan, objective. simpl.
  destruct (KernelFacts.computation_times_fills (c instance)
              (take_rows (p instance) new_sol) n m) as [Hshape _]; auto.
  { now apply ObjectiveFacts.shape_take_rows. }
  { now apply ObjectiveFacts.entries_int32_take_rows. }
  set (C := computation_times (c instance) (take_rows (p instance) new_sol))
    in *.
  destruct (np_max (last_column C)) as [new_m|] eqn:Emax.
  - destruct (update_pareto _ _ _) as [set imp]. eauto.
  - exfalso. unfold np_max, last_column in Emax.
    destruct (Matrix.column C (Matrix.ncols C - 1)) as [|x l] eqn:Ecol;
      [|discriminate].
    apply (f_equal length) in Ecol.
    rewrite KernelFacts.length_column in Ecol.
    destruct Hshape as [Hlen _]. simpl in Ecol. lia.
Qed.

End ParetoFacts.

Import Objective Env BaseOpt Optimizers ParetoFacts.

(** C7. [BiObjectiveOptimizer] keeps its Pareto set mutually
    non-dominated.  On a well-formed instance [_evaluate] returns for every
    permutation.  On every [_evaluate] of a candidate with objectives
    (wt, m), under the rule (wt_a ≤ wt_b ∧ m_a ≤ m_b) ∧ (wt_a < wt_b ∨
    m_a < m_b): if an incumbent dominates the candidate the set is left
    unchanged; otherwise the set holds afterwards the candidate, under its
    key (wt, m), and exactly the incumbents that the candidate does not
    dominate and whose key is not (wt, m): the incumbents dominated by the
    candidate are removed, and so is an incumbent with the candidate's own
    objectives, which the candidate does not dominate and whose place in
    the dictionary it takes.  A set that was mutually non-dominated is
    still so after the update. *)
Theorem pareto_set_stays_nondominated
    (instance : Instance) (new_sol : list Z) (o : BiObjectiveOptimizer) :
  distinct_keys (pareto_set o) ->
  (forall n m : nat,
     Matrix.shape (p instance) n m -> Matrix.shape (c instance) n m ->
     (1 <= n)%nat -> (1 <= m)%nat -> entries_int32 (p instance) ->
     is_permutation n new_sol ->
     exists result, _evaluate instance new_sol o = Some result) /\
  (forall (objectives : list Z) (improved : bool)
          (o' : BiObjectiveOptimizer) (instance' : Instance),
     _evaluate instance new_sol o
       = Some (objectives, improved, o', instance') ->
     exists new_wt new_m,
       objectives = [new_wt; new_m] /\
       new_wt = fst (weighted_tardiness instance new_sol true) /\
       ((exists a, a ∈ pareto_set o /\
                   dominates (fst a) (new_wt, new_m) = true) ->
        pareto_set o' = pareto_set o) /\
       ((forall a, a ∈ pareto_set o ->
                   dominates (fst a) (new_wt, new_m) = false) ->
        pareto_set o'
        = dict_set (survivors (new_wt, new_m) (pareto_set o))
                   (new_wt, new_m) new_sol /\
        forall a, a ∈ pareto_set o' <->
                  a = ((new_wt, new_m), new_sol) \/
                  (a ∈ pareto_set o /\
                   dominates (new_wt, new_m) (fst a) = false /\
                   fst a <> (new_wt, new_m))) /\
       (mutually_nondominated (pareto_set o) ->
        mutually_nondominated (pareto_set o')) /\
       distinct_keys (pareto_set o')).
Proof.
  intros Hnd. split.
  { intros n m Hp Hc Hn Hm He Hperm.
    now apply (bi_evaluate_returns instance new_sol o n m). }
  intros objectives improved o' instance' Hev.
  simpl in Hev. unfold BiObjective_evaluate in Hev.
  destruct (weighted_tardiness instance new_sol true) as [new_wt inst1] eqn:Ewt.
  destruct (makespan inst1 new_sol false) as [[new_m|] inst2]; [|discriminate].
  destruct (update_pareto (pareto_set o) (new_wt, new_m) new_sol)
    as [set imp] eqn:Eup.
  injection Hev as <- <- <- <-. simpl.
  exists new_wt, new_m.
  assert (Hset : set = fst (update_pareto (pareto_set o) (new_wt, new_m) new_sol))
    by now rewrite Eup.
  rewrite Hset. split; [reflexivity|]. split; [reflexivity|].
  split; [|split; [|split]].
  - now apply update_pareto_dominated.
  - intros Hnone. rewrite update_pareto_inserted by done.
    split; [reflexivity|]. intros a.
    rewrite elem_of_dict_set_iff by now apply distinct_keys_survivors.
    rewrite elem_of_survivors. tauto.
  - intros Hinv. now apply update_pareto_nondominated.
  - destruct (dominated_or_not (pareto_set o) (new_wt, new_m)) as [Hdom|Hnone].
    + now rewrite update_pareto_dominated.
    + rewrite update_pareto_inserted by done.
      now apply distinct_keys_dict_set, distinct_keys_survivors.
Qed.

Lemma is_running_iff_bound_violated_witness :
  let o := record_evaluation [22] false
             (snd (start sample_world
                     (init (Finite 10) (Some (Finite 0)) (Some 30%Q) None))) in
  let now := clock sample_world (clock_reads sample_world) in
  (exists b, fst (is_running sample_world o) = Some b) /\
  (fst (is_running sample_world o) = Some false <-> bound_violated now o) /\
  (fst (is_running sample_world o) = Some true <-> ~ bound_violated now o) /\
  (Finite 10 = Infinite -> Some (Finite 0) = Some Infinite ->
   Some 30%Q = None -> fst (is_running sample_world o) = Some true).
Proof.
  apply (is_running_iff_bound_violated
           (Finite 10) (Some (Finite 0)) (Some 30%Q) None).
  apply reach_evaluate, reach_start, reach_init.
Defined.

Lemma pareto_set_stays_nondominated_witness :
  let o := mkBiObjectiveOptimizer init_default [((22, 10), [0; 1])] in
  (exists result, _evaluate forced_instance [1; 0] o = Some result) /\
  exists new_wt new_m,
    [17; 10] = [new_wt; new_m] /\
    new_wt = fst (weighted_tardiness forced_instance [1; 0] true) /\
    ((exists a, a ∈ [((22, 10), [0; 1])] /\
                dominates (fst a) (new_wt, new_m) = true) ->
     [((17, 10), [1; 0])] = [((22, 10), [0; 1])]) /\
    ((forall a, a ∈ [((22, 10), [0; 1])] ->
                dominates (fst a) (new_wt, new_m) = false) ->
     [((17, 10), [1; 0])]
     = dict_set (survivors (new_wt, new_m) [((22, 10), [0; 1])])
                (new_wt, new_m) [1; 0] /\
     forall a, a ∈ [((17, 10), [1; 0])] <->
               a = ((new_wt, new_m), [1; 0]) \/
               (a ∈ [((22, 10), [0; 1])] /\
                dominates (new_wt, new_m) (fst a) = false /\
                fst a <> (new_wt, new_m))) /\
    (mutually_nondominated [((22, 10), [0; 1])] ->
     mutually_nondominated [((17, 10), [1; 0])]) /\
    distinct_keys [((17, 10), [1; 0])].
Proof.
  intros o.
  assert (Hkeys : distinct_keys (pareto_set o)).
  { unfold distinct_keys. simpl.
    apply list.NoDup_cons. split; [apply not_elem_of_nil|apply NoDup_nil_2]. }
  destruct (pareto_set_stays_nondominated forced_instance [1; 0] o Hkeys)
    as [Hreturns Hupdate].
  split.
  - apply (Hreturns 2%nat 1%nat).
    + split; [reflexivity|repeat constructor].
    + split; [reflexivity|repeat constructor].
    + lia.
    + lia.
    + repeat constructor; unfold min_int32, max_int32; simpl; lia.
    + unfold is_permutation. change (seqZ 0 (Z.of_nat 2)) with [0; 1].
      apply perm_swap.
  - apply (Hupdate [17; 10] true
             (mkBiObjectiveOptimizer init_default [((17, 10), [1; 0])])
             (mkInstance [[5]; [5]] [[5]; [10]] [1; 1] [1; 2])).
    reflexivity.
Defined.

(** C7, as stated, fails for a candidate whose objectives equal an
    incumbent's.  On two identical jobs both orders have objectives
    (13, 10).  After [0; 1] has been evaluated the set holds it under that
    key; evaluating [1; 0] finds no incumbent that dominates it and
    dominates none, yet the incumbent is gone afterwards: the candidate has
    taken its place under the key.  So it is not exactly the dominated
    incumbents that are removed. *)
Lemma equal_objectives_replace_incumbent :
  let o0 := mkBiObjectiveOptimizer init_default [] in
  let o1 := mkBiObjectiveOptimizer init_default [((13, 10), [0; 1])] in
  let o2 := mkBiObjectiveOptimizer init_default [((13, 10), [1; 0])] in
  _evaluate twin_instance [0; 1] o0
    = Some ([13; 10], false, o1, mkInstance [[5]; [5]] [[5]; [10]] [1; 1] [1; 1]) /\
  _evaluate twin_instance [1; 0] o1
    = Some ([13; 10], false, o2, mkInstance [[5]; [5]] [[5]; [10]] [1; 1] [1; 1]) /\
  mutually_nondominated (pareto_set o1) /\
  (forall a, a ∈ pareto_set o1 -> dominates (fst a) (13, 10) = false) /\
  ~ (forall a, a ∈ pareto_set o1 ->
       (a ∉ pareto_set o2 <-> dominates (13, 10) (fst a) = true)).
Proof.
  simpl. repeat split.
  - intros a b Ha Hb.
    apply list_elem_of_singleton in Ha as ->.
    now apply list_elem_of_singleton in Hb as ->.
  - intros a Ha. now apply list_elem_of_singleton in Ha as ->.
  - intros Hexact.
    destruct (Hexact ((13, 10), [0; 1])) as [Hremoved _];
      [apply list_elem_of_here|].
    assert (Hfalse : dominates (13, 10) (13, 10) = true).
    { apply Hremoved. intros Hin.
      apply list_elem_of_singleton in Hin. discriminate Hin. }
    vm_compute in Hfalse. discriminate Hfalse.
Qed.

(** ** Local search *)

Module NeighbourhoodFacts.
Import Matrix Objective Float Neighbourhood.

(** The wrapper for interchange moves runs the kernel of swap moves. *)
Lemma interchange_search_is_swap_search : interchange_search = swap_search.
Proof. reflexivity. Qed.

(** The insertion kernel never undoes a move: the next candidate is built
    on the sequence left by the previous one. *)
Lemma insertion_body_keeps_move p d w i st j :
  ps_solution (insertion_body p d w i st j)
  = shift_insert (ps_solution st) i j.
Proof. unfold insertion_body. now destruct (ltb _ _). Qed.

End NeighbourhoodFacts.

Import Matrix Objective Float Neighbourhood NeighbourhoodFacts.

(** C2 (the code departs from it). On three jobs with equal due dates
    and weights, exchanging the jobs at positions 2 and 0 of the incumbent
    [0, 1, 2] lowers the weighted tardiness from 16 to 14, and no exchange
    of neighbours lowers it; [interchange_search] returns the incumbent
    unchanged with improvement = false, because it scans the exchanges of
    neighbours only. *)
Theorem interchange_search_misses_exchange :
  let incumbent := [0; 1; 2] in
  let r := interchange_search interchange_instance incumbent in
  new_solution r = incumbent /\ improved r = false /\
  fst (weighted_tardiness interchange_instance incumbent true) = 16 /\
  fst (weighted_tardiness interchange_instance (exchange incumbent 1 0) true)
    = 17 /\
  fst (weighted_tardiness interchange_instance (exchange incumbent 2 1) true)
    = 17 /\
  exchange incumbent 2 0 = [2; 1; 0] /\
  fst (weighted_tardiness interchange_instance (exchange incumbent 2 0) true)
    = 14.
Proof. vm_compute. repeat split; reflexivity. Qed.

(** C8 (the code departs from it). On three jobs with equal due dates
    and weights and the incumbent [0, 1, 2] (weighted tardiness 13), the
    best single insertion moves the job at position 2 to position 0 and
    gives [2, 0, 1] with weighted tardiness 10.  [insertion_search] returns
    [0, 2, 1], of weighted tardiness 11: the candidate (2, 1) was evaluated
    on the sequence left by the candidates (1, 0) and (2, 0), which the
    kernel had not undone, and the caller's array is left as [2, 0, 1]. *)
Theorem insertion_search_accumulates_moves :
  let incumbent := [0; 1; 2] in
  let wt s := fst (weighted_tardiness insertion_instance s true) in
  let r := insertion_search insertion_instance incumbent in
  new_solution r = [0; 2; 1] /\ improved r = true /\
  solution_after r = [2; 0; 1] /\
  wt incumbent = 13 /\
  shift_insert incumbent 1 0 = [1; 0; 2] /\
  wt (shift_insert incumbent 1 0) = 14 /\
  shift_insert incumbent 2 0 = [2; 0; 1] /\
  wt (shift_insert incumbent 2 0) = 10 /\
  shift_insert incumbent 2 1 = [0; 2; 1] /\
  wt (shift_insert incumbent 2 1) = 11 /\
  shift_insert (shift_insert incumbent 1 0) 2 0 = [2; 1; 0] /\
  wt [2; 1; 0] = 11.
Proof. vm_compute. repeat split; reflexivity. Qed.

(** ** Evaluations recorded by the optimizer *)

Module HistoryFacts.
Import Objective Float Env BaseOpt Optimizers Neighbourhood Colony.

#[global] Instance Optimizer_laws : EvaluatorLaws Optimizer.
Proof.
  split.
  - reflexivity.
  - intros instance solution o objectives improved o' instance' Hev.
    simpl in Hev. unfold Optimizer_evaluate in Hev.
    destruct (weighted_tardiness instance solution true) as [wt inst1].
    destruct (lt_bound wt (Zbest o)); injection Hev as <- <- <- <-; reflexivity.
Qed.

#[global] Instance BiObjective_laws : EvaluatorLaws BiObjectiveOptimizer.
Proof.
  split.
  - reflexivity.
  - intros instance solution o objectives improved o' instance' Hev.
    simpl in Hev. unfold BiObjective_evaluate in Hev.
    destruct (weighted_tardiness instance solution true) as [wt inst1].
    destruct (makespan inst1 solution false) as [[m|] inst2]; [|discriminate].
    destruct (update_pareto _ _ _) as [set imp].
    injection Hev as <- <- <- <-. reflexivity.
Qed.

Section Generic.
Context {O X : Type} `{EvaluatorLaws O}.

(** [evaluate] appends exactly one tuple, whose first component it
    returns, and resets or increments the stagnation counter. *)
Lemma evaluate_records instance solution (o o' : O) score instance' :
  evaluate instance solution o = Some (score, o', instance') ->
  exists objectives is_improvement,
    head objectives = Some score /\
    base o' = record_evaluation objectives is_improvement (base o).
Proof.
  unfold evaluate. intros Hev.
  destruct (_evaluate instance solution o)
    as [[[[objectives imp] o1] inst1]|] eqn:E; [|discriminate].
  destruct objectives as [|first rest]; [discriminate|].
  injection Hev as <- <- <-.
  exists (first :: rest), imp. split; [reflexivity|].
  rewrite base_set_base. now rewrite (_evaluate_base _ _ _ _ _ _ _ E).
Qed.

Lemma aco_evaluate_records (ant : Ant) (s s' : ACO O X) score :
  aco_evaluate ant s = Some (score, s') ->
  exists objectives is_improvement,
    head objectives = Some score /\
    base (_optimizer s')
      = record_evaluation objectives is_improvement (base (_optimizer s)).
Proof.
  unfold aco_evaluate. intros Hev.
  destruct (evaluate (_instance s) (asarray ant) (_optimizer s))
    as [[[sc o1] inst1]|] eqn:E; [|discriminate].
  injection Hev as <- <-. simpl.
  apply (evaluate_records _ _ _ _ _ _ E).
Qed.

Lemma aco_evaluate_fields (ant : Ant) (s s' : ACO O X) score :
  aco_evaluate ant s = Some (score, s') ->
  n_ants s' = n_ants s /\ _Zbest s' = _Zbest s /\ _best s' = _best s /\
  extra s' = extra s.
Proof.
  unfold aco_evaluate. intros Hev.
  destruct (evaluate (_instance s) (asarray ant) (_optimizer s))
    as [[[sc o1] inst1]|]; [|discriminate].
  injection Hev as <- <-. auto.
Qed.

Lemma history_record objectives is_improvement (b : BaseOptimizer) :
  _objective (record_evaluation objectives is_improvement b)
    = _objective b ++ [objectives] /\
  (_n_steps_without_improvement
     (record_evaluation objectives is_improvement b) = 0 \/
   _n_steps_without_improvement
     (record_evaluation objectives is_improvement b)
     = _n_steps_without_improvement b + 1).
Proof.
  split; [reflexivity|]. simpl. destruct is_improvement; simpl; auto.
Qed.

Lemma local_search_optimizer (ant : Ant) (s : ACO O X) :
  _optimizer (snd (local_search ant s)) = _optimizer s.
Proof.
  unfold local_search.
  destruct (search_rounds 3 (_ls s) (_instance s) (asarray ant)).
  reflexivity.
Qed.

End Generic.

(** The loop over the ants and the step, for any policy whose
    construction and parameter update leave the optimizer alone and whose
    pheromone update records one evaluation. *)
Section Step.
Context {O X : Type} `{EvaluatorLaws O} `{Policy X}.

Hypothesis create_keeps : forall (s s' : ACO O X) ant shares,
  create_solution s = Some (ant, shares, s') -> _optimizer s' = _optimizer s.

Hypothesis update_records : forall (ant : Ant) (s s' : ACO O X),
  update_pheromones ant s = Some s' ->
  exists objectives is_improvement,
    base (_optimizer s')
      = record_evaluation objectives is_improvement (base (_optimizer s)).

Hypothesis parameters_keep : forall (s : ACO O X),
  _optimizer (update_parameters s) = _optimizer s.

Lemma ant_loop_history k : forall solutions scores (s s' : ACO O X)
    solutions' scores',
  ant_loop k solutions scores s = Some (solutions', scores', s') ->
  exists j, (j <= k)%nat /\ (0 < k -> 0 < j)%nat /\
    length scores' = (length scores + j)%nat /\
    length solutions' = (length solutions + j)%nat /\
    length (history s') = (length (history s) + per_ant j)%nat.
Proof.
  induction k as [|k IH]; intros solutions scores s s' solutions' scores' Hloop.
  - injection Hloop as <- <- <-. exists 0%nat.
    unfold per_ant. destruct pheromones_are_individual; simpl; repeat split; lia.
  - simpl in Hloop.
    destruct (create_solution s) as [[[ant shares] s1]|] eqn:Ec; [|discriminate].
    pose proof (create_keeps _ _ _ _ Ec) as Hs1.
    pose proof (local_search_optimizer (X := X) ant s1) as Hls.
    destruct (local_search ant s1) as [[ant' array_after] s2].
    simpl in Hls.
    set (s3 := if shares then set_best (mkAnt array_after) (_Zbest s2) s2
               else s2) in *.
    assert (Hs3 : _optimizer s3 = _optimizer s).
    { unfold s3. destruct shares; simpl; congruence. }
    destruct (if pheromones_are_individual then update_pheromones ant' s3
              else Some s3) as [s4|] eqn:Eu; [|discriminate].
    assert (Hs4 : length (_objective (base (_optimizer s4)))
                  = (length (history s)
                     + (if pheromones_are_individual then 1 else 0))%nat).
    { unfold history. destruct pheromones_are_individual.
      - destruct (update_records _ _ _ Eu) as (objs & imp & Hb).
        rewrite Hb, Hs3. simpl. rewrite length_app. simpl. lia.
      - injection Eu as <-. rewrite Hs3. lia. }
    destruct (aco_evaluate ant' s4) as [[score s5]|] eqn:Ee; [|discriminate].
    destruct (aco_evaluate_records _ _ _ _ Ee) as (objs & imp & _ & Hb5).
    set (s6 := if score <? _Zbest s5 then set_best ant' score s5 else s5) in *.
    assert (Hs6 : _optimizer s6 = _optimizer s5).
    { unfold s6. destruct (score <? _Zbest s5); reflexivity. }
    destruct (is_running (world s6) (base (_optimizer s6))) as [running w].
    assert (Hhist : length (history (set_world w s6))
                    = (length (history s) + per_ant 1)%nat).
    { unfold history. simpl. rewrite Hs6, Hb5. simpl.
      rewrite length_app, Hs4. unfold history, per_ant. simpl.
      destruct pheromones_are_individual; lia. }
    destruct running as [[|]|]; [| |discriminate].
    + destruct (IH _ _ _ _ _ _ Hloop) as (j & Hj & _ & Hsc & Hso & Hh).
      exists (S j). rewrite Hhist in Hh. rewrite !length_app in *. simpl in *.
      unfold per_ant in *. destruct pheromones_are_individual;
        repeat split; lia.
    + injection Hloop as <- <- <-. exists 1%nat.
      rewrite !length_app. simpl. repeat split; auto; lia.
Qed.

Lemma aco_step_history (s s' : ACO O X) :
  aco_step s = Some s' ->
  exists solutions scores s1 j,
    ant_loop (n_ants s) [] [] s = Some (solutions, scores, s1) /\
    length scores = j /\ (0 < j)%nat /\
    length (history s')
    = (length (history s)
       + (if pheromones_are_individual then 2 * j else j + 1))%nat.
Proof.
  unfold aco_step. intros Hstep.
  destruct (ant_loop (n_ants s) [] [] s) as [[[solutions scores] s1]|] eqn:El;
    [|discriminate].
  destruct (ant_loop_history _ _ _ _ _ _ _ El) as (j & Hj & _ & Hsc & Hso & Hh).
  destruct (argmin scores) as [best_pos|] eqn:Ea; [|discriminate].
  destruct (solutions !! best_pos) as [current_ant|]; [|discriminate].
  assert (Hpos : (0 < j)%nat).
  { destruct scores; [discriminate|]. simpl in Hsc. lia. }
  exists solutions, scores, s1, j. simpl in Hsc.
  split; [reflexivity|]. split; [lia|]. split; [exact Hpos|].
  unfold per_ant in Hh. unfold history in *.
  destruct pheromones_are_individual; simpl in Hstep.
  - injection Hstep as <-. rewrite parameters_keep. lia.
  - destruct (update_pheromones current_ant s1) as [s2|] eqn:Eu; [|discriminate].
    injection Hstep as <-. rewrite parameters_keep.
    destruct (update_records _ _ _ Eu) as (objs & imp & Hb).
    rewrite Hb. simpl. rewrite length_app. simpl. lia.
Qed.

End Step.

End HistoryFacts.

(** ** The two policies and the optimizer *)

Module PolicyFacts.
Import Objective Float Env BaseOpt Optimizers Neighbourhood Colony
       HistoryFacts.

Section Policies.
Context {O : Type} `{EvaluatorLaws O}.

Lemma mmas_create_keeps (s s' : ACO O MMAS.state) ant shares :
  create_solution s = Some (ant, shares, s') -> _optimizer s' = _optimizer s.
Proof.
  simpl. unfold MMAS.create_solution. intros Hc.
  destruct (MMAS._create_solution _ _ _ _ _) as [[raw w]|]; [|discriminate].
  destruct (MMAS.accept _ _ _) as [solution sh].
  injection Hc as <- <- <-. reflexivity.
Qed.

Lemma paco_create_keeps (s s' : ACO O PACO.state) ant shares :
  create_solution s = Some (ant, shares, s') -> _optimizer s' = _optimizer s.
Proof.
  simpl. unfold PACO.create_solution. intros Hc.
  destruct (PACO._create_solution _ _ _ _ _) as [[raw w]|]; [|discriminate].
  injection Hc as <- <- <-. reflexivity.
Qed.

Lemma mmas_update_records (ant : Ant) (s s' : ACO O MMAS.state) :
  update_pheromones ant s = Some s' ->
  exists objectives is_improvement,
    base (_optimizer s')
      = record_evaluation objectives is_improvement (base (_optimizer s)).
Proof.
  simpl. unfold MMAS.update_pheromones. intros Hu.
  destruct (aco_evaluate ant s) as [[Zcurrent s1]|] eqn:Ee; [|discriminate].
  injection Hu as <-. simpl.
  destruct (aco_evaluate_records _ _ _ _ Ee) as (objs & imp & _ & Hb).
  eauto.
Qed.

Lemma paco_update_records (ant : Ant) (s s' : ACO O PACO.state) :
  update_pheromones ant s = Some s' ->
  exists objectives is_improvement,
    base (_optimizer s')
      = record_evaluation objectives is_improvement (base (_optimizer s)).
Proof.
  simpl. unfold PACO.update_pheromones. intros Hu.
  destruct (aco_evaluate ant s) as [[Zcurrent s1]|] eqn:Ee; [|discriminate].
  injection Hu as <-. simpl.
  destruct (aco_evaluate_records _ _ _ _ Ee) as (objs & imp & _ & Hb).
  eauto.
Qed.

Lemma aco_evaluate_tuple {X : Type} (ant : Ant) (s s' : ACO O X) score :
  aco_evaluate ant s = Some (score, s') ->
  exists objectives is_improvement o' instance',
    _evaluate (_instance s) (asarray ant) (_optimizer s)
      = Some (objectives, is_improvement, o', instance') /\
    base (_optimizer s')
      = record_evaluation objectives is_improvement (base (_optimizer s)).
Proof.
  unfold aco_evaluate, evaluate. intros Hev.
  destruct (_evaluate (_instance s) (asarray ant) (_optimizer s))
    as [[[[objectives imp] o1] inst1]|] eqn:E; [|discriminate].
  destruct objectives as [|first rest]; [discriminate|].
  injection Hev as <- <-. simpl.
  exists (first :: rest), imp, o1, inst1. split; [reflexivity|].
  rewrite base_set_base. now rewrite (_evaluate_base _ _ _ _ _ _ _ E).
Qed.

Lemma mmas_update_tuple (ant : Ant) (s s' : ACO O MMAS.state) :
  MMAS.update_pheromones ant s = Some s' ->
  exists objectives is_improvement o' instance',
    _evaluate (_instance s) (asarray ant) (_optimizer s)
      = Some (objectives, is_improvement, o', instance') /\
    base (_optimizer s')
      = record_evaluation objectives is_improvement (base (_optimizer s)).
Proof.
  unfold MMAS.update_pheromones. intros Hu.
  destruct (aco_evaluate ant s) as [[Zcurrent s1]|] eqn:Ee; [|discriminate].
  injection Hu as <-. simpl. apply (aco_evaluate_tuple _ _ _ _ Ee).
Qed.

Lemma paco_update_tuple (ant : Ant) (s s' : ACO O PACO.state) :
  PACO.update_pheromones ant s = Some s' ->
  exists objectives is_improvement o' instance',
    _evaluate (_instance s) (asarray ant) (_optimizer s)
      = Some (objectives, is_improvement, o', instance') /\
    base (_optimizer s')
      = record_evaluation objectives is_improvement (base (_optimizer s)).
Proof.
  unfold PACO.update_pheromones. intros Hu.
  destruct (aco_evaluate ant s) as [[Zcurrent s1]|] eqn:Ee; [|discriminate].
  injection Hu as <-. simpl. apply (aco_evaluate_tuple _ _ _ _ Ee).
Qed.

(** A pheromone update returns exactly when the evaluation of its ant
    does. *)
Lemma mmas_update_returns (ant : Ant) (s : ACO O MMAS.state) :
  is_Some (MMAS.update_pheromones ant s) <-> is_Some (aco_evaluate ant s).
Proof.
  unfold MMAS.update_pheromones.
  destruct (aco_evaluate ant s) as [[Zcurrent s1]|]; split; intros Hs.
  - eexists; reflexivity.
  - eexists; reflexivity.
  - destruct Hs as [x Hx]; discriminate Hx.
  - destruct Hs as [x Hx]; discriminate Hx.
Qed.

Lemma paco_update_returns (ant : Ant) (s : ACO O PACO.state) :
  is_Some (PACO.update_pheromones ant s) <-> is_Some (aco_evaluate ant s).
Proof.
  unfold PACO.update_pheromones.
  destruct (aco_evaluate ant s) as [[Zcurrent s1]|]; split; intros Hs.
  - eexists; reflexivity.
  - eexists; reflexivity.
  - destruct Hs as [x Hx]; discriminate Hx.
  - destruct Hs as [x Hx]; discriminate Hx.
Qed.

(** A pheromone update appends the tuple of one more evaluation of its
    ant and moves the stagnation counter. *)
Lemma update_appends {X : Type} (s s' : ACO O X) objectives is_improvement :
  base (_optimizer s')
    = record_evaluation objectives is_improvement (base (_optimizer s)) ->
  history s' = history s ++ [objectives] /\
  (stagnation s' = 0 \/ stagnation s' = stagnation s + 1).
Proof.
  intros Hb. unfold history, stagnation. rewrite Hb.
  apply history_record.
Qed.

End Policies.

End PolicyFacts.

Import Objective Float Env BaseOpt Optimizers Neighbourhood Colony
       HistoryFacts PolicyFacts Samples.

(** C10. Every call to [MMAS.update_pheromones] or
    [PACO.update_pheromones] evaluates the given ant through the optimizer:
    it appends the objective tuple of that ant to the history once more and
    resets or increments the stagnation counter, on top of the evaluation
    of each ant in [step()].  A step that evaluates j ants therefore adds
    j + 1 entries to the history under MMAS and 2·j under PACO, more than
    the number of ants evaluated.  An update returns exactly when the
    evaluation of its ant returns. *)
Theorem pheromone_update_evaluates_again
    (O : Type) (E : Evaluator O) (L : EvaluatorLaws O) :
  (forall (ant : Ant) (s s' : ACO O MMAS.state),
     MMAS.update_pheromones ant s = Some s' ->
     exists objectives is_improvement o' instance',
       _evaluate (_instance s) (asarray ant) (_optimizer s)
         = Some (objectives, is_improvement, o', instance') /\
       history s' = history s ++ [objectives] /\
       (stagnation s' = 0 \/ stagnation s' = stagnation s + 1)) /\
  (forall (ant : Ant) (s s' : ACO O PACO.state),
     PACO.update_pheromones ant s = Some s' ->
     exists objectives is_improvement o' instance',
       _evaluate (_instance s) (asarray ant) (_optimizer s)
         = Some (objectives, is_improvement, o', instance') /\
       history s' = history s ++ [objectives] /\
       (stagnation s' = 0 \/ stagnation s' = stagnation s + 1)) /\
  (forall (s s' : ACO O MMAS.state),
     aco_step s = Some s' ->
     exists solutions scores s1,
       ant_loop (n_ants s) [] [] s = Some (solutions, scores, s1) /\
       length (history s')
         = (length (history s) + length scores + 1)%nat /\
       (length (history s) + length scores < length (history s'))%nat) /\
  (forall (s s' : ACO O PACO.state),
     aco_step s = Some s' ->
     exists solutions scores s1,
       ant_loop (n_ants s) [] [] s = Some (solutions, scores, s1) /\
       length (history s')
         = (length (history s) + 2 * length scores)%nat /\
       (length (history s) + length scores < length (history s'))%nat) /\
  (forall (ant : Ant) (s : ACO O MMAS.state),
     is_Some (MMAS.update_pheromones ant s)
     <-> is_Some (aco_evaluate ant s)) /\
  (forall (ant : Ant) (s : ACO O PACO.state),
     is_Some (PACO.update_pheromones ant s)
     <-> is_Some (aco_evaluate ant s)).
Proof.
  split; [|split; [|split; [|split; [|split]]]];
    [| | | |exact mmas_update_returns|exact paco_update_returns].
  - intros ant s s' Hu.
    destruct (mmas_update_tuple ant s s' Hu) as (objs & imp & o' & i' & He & Hb).
    exists objs, imp, o', i'. split; [exact He|].
    now apply (update_appends s s' objs imp).
  - intros ant s s' Hu.
    destruct (paco_update_tuple ant s s' Hu) as (objs & imp & o' & i' & He & Hb).
    exists objs, imp, o', i'. split; [exact He|].
    now apply (update_appends s s' objs imp).
  - intros s s' Hstep.
    destruct (aco_step_history mmas_create_keeps mmas_update_records
                (fun _ => eq_refl) s s' Hstep)
      as (solutions & scores & s1 & j & Hl & Hj & Hpos & Hh).
    exists solutions, scores, s1. simpl in Hh. rewrite Hj.
    split; [exact Hl|]. split; lia.
  - intros s s' Hstep.
    destruct (aco_step_history paco_create_keeps paco_update_records
                (fun _ => eq_refl) s s' Hstep)
      as (solutions & scores & s1 & j & Hl & Hj & Hpos & Hh).
    exists solutions, scores, s1. simpl in Hh. rewrite Hj.
    split; [exact Hl|]. split; lia.
Qed.

Lemma pheromone_update_evaluates_again_witness :
  match MMAS.update_pheromones (_best mmas_colony) mmas_colony with
  | Some s' =>
      exists objectives is_improvement o' instance',
        _evaluate (_instance mmas_colony) (asarray (_best mmas_colony))
                  (_optimizer mmas_colony)
          = Some (objectives, is_improvement, o', instance') /\
        history s' = history mmas_colony ++ [objectives] /\
        (stagnation s' = 0 \/ stagnation s' = stagnation mmas_colony + 1)
  | None => False
  end /\
  match aco_step paco_colony with
  | Some s' =>
      exists solutions scores s1,
        ant_loop (n_ants paco_colony) [] [] paco_colony
          = Some (solutions, scores, s1) /\
        length (history s')
          = (length (history paco_colony) + 2 * length scores)%nat /\
        (length (history paco_colony) + length scores
         < length (history s'))%nat
  | None => False
  end.
Proof.
  pose proof (pheromone_update_evaluates_again
                Optimizer Optimizer_Evaluator Optimizer_laws)
    as (Hmmas & _ & _ & Hpaco & _).
  split.
  - destruct (MMAS.update_pheromones (_best mmas_colony) mmas_colony)
      as [s'|] eqn:Eu.
    + exact (Hmmas _ _ _ Eu).
    + vm_compute in Eu. discriminate Eu.
  - destruct (aco_step paco_colony) as [s'|] eqn:Es.
    + exact (Hpaco _ _ Es).
    + vm_compute in Es. discriminate Es.
Defined.

(** ** Trails *)

Module TrailFacts.
Import Objective Float Env BaseOpt Optimizers Heuristics Colony HistoryFacts.

Lemma fget_fmap_entries f (tau : list (list float)) i k row x :
  tau !! i = Some row -> row !! k = Some x ->
  fget (fmap_entries f tau) i k = f i k x.
Proof.
  intros Hrow Hx. unfold fget, fmap_entries.
  rewrite list_lookup_imap, Hrow. simpl.
  rewrite list_lookup_imap, Hx. reflexivity.
Qed.

Lemma fget_map f (tau : list (list float)) i k row x :
  tau !! i = Some row -> row !! k = Some x ->
  fget (map (map f) tau) i k = f x.
Proof.
  intros Hrow Hx. unfold fget.
  rewrite list_lookup_fmap, Hrow. simpl.
  rewrite list_lookup_fmap, Hx. reflexivity.
Qed.

Lemma lookup_fmap_entries f (tau : list (list float)) i row :
  tau !! i = Some row ->
  fmap_entries f tau !! i = Some (imap (fun k x => f i k x) row).
Proof.
  intros Hrow. unfold fmap_entries. now rewrite list_lookup_imap, Hrow.
Qed.

(** Dividing by a zero obtained from a zero factor. *)
Lemma mul64_zero x :
  is_zero (mul64 x (f64_of_Z 0)) || is_nan (mul64 x (f64_of_Z 0)) = true.
Proof. destruct x as [s|s| |s m e]; reflexivity. Qed.

Lemma div64_one_not_finite y :
  is_zero y || is_nan y = true -> is_finite (div64 one64 y) = false.
Proof. destruct y as [s|s| |s m e]; try discriminate; reflexivity. Qed.

Lemma div64_five_not_finite x :
  is_finite x = false -> is_finite (div64 x (f64_of_Z 5)) = false.
Proof. destruct x as [s|s| |s m e]; try discriminate; reflexivity. Qed.

Lemma halved_infinity :
  div32 inf (f32_of_Z 2) = inf.
Proof. reflexivity. Qed.

Section Updates.
Context {O : Type} `{EvaluatorLaws O}.

(** Every entry after [PACO.update_pheromones]: evaporation first, then
    the deposit inside the band. *)
Lemma paco_update_entry (ant : Ant) (s s' : ACO O PACO.state) i k row x :
  PACO.update_pheromones ant s = Some s' ->
  _tau s !! i = Some row -> row !! k = Some x ->
  exists Zcurrent s1,
    aco_evaluate ant s = Some (Zcurrent, s1) /\
    fget (_tau s') i k
    = let evaporated := mul32 x (to_f32 (rho s)) in
      if PACO.in_band (argsort (asarray ant)) (n_jobs s) i k
      then to_f32
             (add64 (to_f64 evaporated)
                (div64 one64
                   (mul64 (PACO.diff_entry (asarray (_best s)) i k)
                          (f64_of_Z Zcurrent))))
      else evaporated.
Proof.
  unfold PACO.update_pheromones. intros Hu Hrow Hx.
  destruct (aco_evaluate ant s) as [[Zcurrent s1]|] eqn:Ee; [|discriminate].
  injection Hu as <-. exists Zcurrent, s1. split; [reflexivity|].
  destruct (aco_evaluate_fields _ _ _ _ Ee) as (_ & _ & Hbest & _).
  assert (Hrho : rho s1 = rho s /\ _tau s1 = _tau s).
  { unfold aco_evaluate in Ee.
    destruct (evaluate _ _ _) as [[[sc o1] i1]|]; [|discriminate].
    injection Ee as _ <-. auto. }
  destruct Hrho as [Hrho Htau]. simpl.
  rewrite (fget_fmap_entries _ _ i k
             (map (fun y => mul32 y (to_f32 (rho s1))) row)
             (mul32 x (to_f32 (rho s1)))).
  - unfold PACO.h_best. now rewrite Hbest, Hrho.
  - rewrite list_lookup_fmap, Htau, Hrow. reflexivity.
  - rewrite list_lookup_fmap, Hx. reflexivity.
Qed.

End Updates.

End TrailFacts.

Import Objective Float Env BaseOpt Optimizers Heuristics Colony Samples
       TrailFacts.

(** C3 (the code departs from it). In the colony initialised on three
    jobs the best sequence is [2, 0, 1], so job 0 is at position 1 of it.
    For the ant [2, 0, 1] and the pair (i, k) = (0, 1), which is inside the
    band, the claim deposits 1 / (Z · √(|1 − 1| + 1)) = 1 / (Z · √1);
    [PACO.update_pheromones] deposits 1 / (Z · √(|2 − 1| + 1)) = 1 / (Z · √2):
    it reads the best sequence itself where the position of job i in it is
    meant. *)
Theorem paco_deposit_reads_best_sequence :
  let s := paco_colony in
  let ant := mkAnt [2; 0; 1] in
  let Z := 10 in
  let evaporated := mul32 (fget (_tau s) 0 1) (to_f32 (rho s)) in
  let deposit h :=
    div64 one64
      (mul64 (sqrt64 (add64 (f64_of_Z (PACO.distance h 1)) one64))
             (f64_of_Z Z)) in
  asarray (_best s) = [2; 0; 1] /\
  PACO.h_best s = [2; 0; 1] /\
  argsort (asarray (_best s)) = [1; 2; 0] /\
  option_map fst (aco_evaluate ant s) = Some Z /\
  PACO.in_band (argsort (asarray ant)) 3 0 1 = true /\
  match PACO.update_pheromones ant s with
  | Some s' =>
      fget (_tau s') 0 1 = to_f32 (add64 (to_f64 evaporated) (deposit 2)) /\
      fget (_tau s') 0 1 <> to_f32 (add64 (to_f64 evaporated) (deposit 1))
  | None => False
  end.
Proof. vm_compute. repeat split; try reflexivity. intros E. discriminate E. Qed.

(** C9 (as amended). [MMAS.update_parameters] divides 1 by
    (1 − ρ)·Zbest and [PACO.init_pheromones] divides 1 by Zbest with the
    divisor as it is: nothing clamps it.  In every state with Zbest = 0 the
    divisor is zero (NaN when 1 − ρ is not finite) and the division yields
    values that are not finite: τ_max and τ_min under MMAS, every initial
    trail (+∞) under PACO. *)
Theorem division_by_Zbest_is_not_clamped (O : Type) :
  (forall s : ACO O MMAS.state, _Zbest s = 0 ->
     let divisor := MMAS.tau_max_divisor (rho s) (_Zbest s) in
     let s' := MMAS.update_parameters s in
     is_zero divisor || is_nan divisor = true /\
     MMAS._tau_max (extra s') = div64 one64 divisor /\
     is_finite (MMAS._tau_max (extra s')) = false /\
     is_finite (MMAS._tau_min (extra s')) = false) /\
  (forall s : ACO O PACO.state, _Zbest s = 0 ->
     is_zero (f64_of_Z (_Zbest s)) = true /\
     forall i k, (i < n_jobs s)%nat -> (k < n_jobs s)%nat ->
       fget (_tau (PACO.init_pheromones s)) i k = inf).
Proof.
  split.
  - intros s Hz divisor s'. subst divisor s'.
    unfold MMAS.tau_max_divisor, MMAS.update_parameters. rewrite Hz. simpl.
    pose proof (mul64_zero (sub64 one64 (rho s))) as Hd.
    split; [exact Hd|]. split; [reflexivity|].
    pose proof (div64_one_not_finite _ Hd) as Hmax.
    split; [exact Hmax|]. now apply div64_five_not_finite.
  - intros s Hz. rewrite Hz. split; [reflexivity|].
    intros i k Hi Hk. unfold PACO.init_pheromones. simpl.
    rewrite Hz.
    change (to_f32 (div64 one64 (f64_of_Z 0))) with inf.
    set (n := n_jobs s) in *.
    match goal with
    | |- fget (fmap_entries ?f2 (fmap_entries ?f1 _)) _ _ = _ =>
        set (g2 := f2); set (g1 := f1)
    end.
    assert (H1 : forall a b, g1 a b inf = inf).
    { intros a b. unfold g1. destruct (ltb _ _); reflexivity. }
    assert (H2 : forall a b, g2 a b inf = inf).
    { intros a b. unfold g2. destruct (leb _ _); reflexivity. }
    rewrite (fget_fmap_entries g2 _ i k
               (imap (fun k x => g1 i k x) (replicate n inf)) inf).
    + apply H2.
    + apply lookup_fmap_entries. now apply lookup_replicate_2.
    + rewrite list_lookup_imap, lookup_replicate_2 by done. simpl.
      now rewrite H1.
Qed.

Lemma division_by_Zbest_is_not_clamped_witness :
  (let s := mmas_colony_without_tardiness in
   let divisor := MMAS.tau_max_divisor (rho s) (_Zbest s) in
   let s' := MMAS.update_parameters s in
   is_zero divisor || is_nan divisor = true /\
   MMAS._tau_max (extra s') = div64 one64 divisor /\
   is_finite (MMAS._tau_max (extra s')) = false /\
   is_finite (MMAS._tau_min (extra s')) = false) /\
  (let s := paco_colony_without_tardiness in
   is_zero (f64_of_Z (_Zbest s)) = true /\
   forall i k, (i < n_jobs s)%nat -> (k < n_jobs s)%nat ->
     fget (_tau (PACO.init_pheromones s)) i k = inf).
Proof.
  destruct (division_by_Zbest_is_not_clamped Optimizer) as [Hmmas Hpaco].
  split.
  - apply (Hmmas mmas_colony_without_tardiness). reflexivity.
  - apply (Hpaco paco_colony_without_tardiness). reflexivity.
Defined.

(** C9, as stated, fails: initialising a colony on the first scenario of
    the specification, whose NEH sequence has no tardiness, reaches
    Zbest = 0; the divisor of τ_max is then zero and τ_max is +∞, and
    every initial trail of PACO is +∞. *)
Lemma zero_tardiness_divides_by_zero :
  initialize (new_Optimizer init_default) 2 (f64_ratio 23 100) ls_none
             (MMAS.mkState zero zero) sample_world tiny_instance
    = Some mmas_colony_without_tardiness /\
  _Zbest mmas_colony_without_tardiness = 0 /\
  MMAS.tau_max_divisor (rho mmas_colony_without_tardiness)
                       (_Zbest mmas_colony_without_tardiness) = zero /\
  MMAS._tau_max (extra mmas_colony_without_tardiness) = inf /\
  initialize (new_Optimizer init_default) 2 (f64_ratio 4 10) ls_none
             (PACO.mkState None) sample_world tiny_instance
    = Some paco_colony_without_tardiness /\
  _Zbest paco_colony_without_tardiness = 0 /\
  f64_of_Z (_Zbest paco_colony_without_tardiness) = zero /\
  _tau paco_colony_without_tardiness = replicate 3 (replicate 3 inf).
Proof. vm_compute. repeat split; reflexivity. Qed.

(** ** Rearrangements of a sequence *)

Module RearrangeFacts.
Import Objective Float Neighbourhood Heuristics.

Lemma fold_left_invariant {A B : Type} (P : A -> Prop) (f : A -> B -> A)
    (l : list B) (a : A) :
  P a -> (forall a b, b ∈ l -> P a -> P (f a b)) -> P (fold_left f l a).
Proof.
  revert a. induction l as [|b l IH]; intros a Ha Hstep; simpl; [done|].
  apply IH.
  - apply Hstep; [apply list_elem_of_here|done].
  - intros a' b' Hb'. apply Hstep. now apply list_elem_of_further.
Qed.

Lemma transpose_involutive i j p : transpose i j (transpose i j p) = p.
Proof. unfold transpose. repeat case_decide; congruence. Qed.

Lemma transpose_inj i j : Inj (=) (=) (transpose i j).
Proof.
  intros p q Hpq. rewrite <- (transpose_involutive i j p), Hpq.
  apply transpose_involutive.
Qed.

Lemma length_exchange a i j : length (exchange a i j) = length a.
Proof. unfold exchange. now rewrite !length_insert. Qed.

Lemma lookup_exchange (a : list Z) i j p :
  (i < length a)%nat -> (j < length a)%nat ->
  exchange a i j !! p = a !! transpose i j p.
Proof.
  intros Hi Hj. unfold exchange, transpose.
  destruct (lookup_lt_is_Some_2 a i Hi) as [ai Hai].
  destruct (lookup_lt_is_Some_2 a j Hj) as [aj Haj].
  rewrite Hai, Haj. simpl.
  destruct (decide (p = j)) as [->|Hpj].
  - rewrite list_lookup_insert_eq by (rewrite length_insert; lia).
    destruct (decide (j = i)) as [->|_]; congruence.
  - rewrite list_lookup_insert_ne by congruence.
    destruct (decide (p = i)) as [->|Hpi].
    + rewrite list_lookup_insert_eq by lia. congruence.
    + now rewrite list_lookup_insert_ne by congruence.
Qed.

Lemma exchange_rearranges (a : list Z) i j :
  (i < length a)%nat -> (j < length a)%nat -> exchange a i j ≡ₚ a.
Proof.
  intros Hi Hj. apply Permutation_inj. split; [apply length_exchange|].
  exists (transpose i j). split; [apply transpose_inj|].
  intros p. now apply lookup_exchange.
Qed.

Lemma exchange_twice (a : list Z) i j :
  (i < length a)%nat -> (j < length a)%nat ->
  exchange (exchange a i j) i j = a.
Proof.
  intros Hi Hj. apply list_eq. intros p.
  rewrite !lookup_exchange by (rewrite ?length_exchange; lia).
  now rewrite transpose_involutive.
Qed.

(** Moving the element at position [i] in front of position [j]. *)
Lemma shift_insert_split (l1 mid l3 : list Z) x :
  mid <> [] ->
  shift_insert (l1 ++ mid ++ x :: l3) (length l1 + length mid) (length l1)
  = l1 ++ x :: mid ++ l3.
Proof.
  intros Hmid. unfold shift_insert, slice, assign_slice.
  replace (length l1 + length mid - length l1)%nat with (length mid) by lia.
  rewrite drop_app_length. rewrite take_app_length.
  rewrite lookup_app_r by lia.
  replace (length l1 + length mid - length l1)%nat with (length mid) by lia.
  rewrite lookup_app_r by lia.
  replace (length mid - length mid)%nat with 0%nat by lia. simpl.
  destruct mid as [|m0 mid]; [done|].
  replace (length l1 + 1)%nat with (length (l1 ++ [m0])) at 1
    by (rewrite length_app; simpl; lia).
  replace (l1 ++ (m0 :: mid) ++ x :: l3)
    with ((l1 ++ [m0]) ++ mid ++ x :: l3) at 1
    by (rewrite <- app_assoc; reflexivity).
  rewrite take_app_length.
  replace (length l1 + 1 + length (m0 :: mid))%nat
    with (length (l1 ++ (m0 :: mid) ++ [x]))
    by (rewrite !length_app; simpl; lia).
  replace (l1 ++ (m0 :: mid) ++ x :: l3)
    with ((l1 ++ (m0 :: mid) ++ [x]) ++ l3)
    by (rewrite <- !app_assoc; reflexivity).
  rewrite drop_app_length.
  rewrite <- app_assoc. simpl.
  replace (length l1) with (length l1 + 0)%nat at 1 by lia.
  rewrite insert_app_r. reflexivity.
Qed.

Lemma split_at_two (a : list Z) i j :
  (j < i)%nat -> (i < length a)%nat ->
  exists l1 mid x l3,
    a = l1 ++ mid ++ x :: l3 /\ length l1 = j /\
    length mid = (i - j)%nat.
Proof.
  intros Hji Hi.
  destruct (lookup_lt_is_Some_2 a i Hi) as [x Hx].
  exists (take j (take i a)), (drop j (take i a)), x, (drop (S i) a).
  split; [|split].
  - rewrite app_assoc, take_drop. symmetry. now apply take_drop_middle.
  - rewrite !length_take. lia.
  - rewrite length_drop, length_take. lia.
Qed.

Lemma shift_insert_rearranges (a : list Z) i j :
  (j < i)%nat -> (i < length a)%nat -> shift_insert a i j ≡ₚ a.
Proof.
  intros Hji Hi.
  destruct (split_at_two a i j Hji Hi) as (l1 & mid & x & l3 & -> & Hl1 & Hmid).
  replace i with (length l1 + length mid)%nat by lia.
  rewrite <- Hl1.
  rewrite shift_insert_split.
  - apply Permutation_app_head. apply Permutation_middle.
  - intros E. rewrite E in Hmid. simpl in Hmid. lia.
Qed.

Lemma length_shift_insert (a : list Z) i j :
  (j < i)%nat -> (i < length a)%nat -> length (shift_insert a i j) = length a.
Proof.
  intros Hji Hi. apply Permutation_length. now apply shift_insert_rearranges.
Qed.

Lemma copy_into_empty_like (solution : list Z) :
  copy_into (empty_like solution) solution = solution.
Proof.
  unfold copy_into, empty_like.
  induction solution as [|x l IH]; simpl; [done|]. now rewrite IH.
Qed.

Lemma insert_at_rearranges (l : list Z) h x : insert_at l h x ≡ₚ x :: l.
Proof.
  unfold insert_at. rewrite <- (take_drop h l) at 3.
  simpl. symmetry. apply Permutation_middle.
Qed.

End RearrangeFacts.

(** ** Sequences returned by the local searches *)

Module SearchFacts.
Import Matrix Objective Float Neighbourhood NeighbourhoodFacts Colony
       RearrangeFacts.

Lemma swap_body_keeps p d w st i :
  (i + 1 < length (sw_solution st))%nat ->
  sw_solution (swap_body p d w st i) = sw_solution st /\
  (sw_best_idx (swap_body p d w st i) = sw_best_idx st \/
   sw_best_idx (swap_body p d w st i) = Z.of_nat i).
Proof.
  intros Hi. unfold swap_body.
  rewrite exchange_twice by lia.
  destruct (ltb _ _); simpl; auto.
Qed.

Lemma swap_loop_keeps p d w c solution bestZ :
  let st := fold_left (swap_body p d w) (seq 0 (length solution - 1))
                      (mkSwapState c solution bestZ (-1)) in
  sw_solution st = solution /\
  (sw_best_idx st = -1 \/
   0 <= sw_best_idx st < Z.of_nat (length solution) - 1).
Proof.
  apply (fold_left_invariant
           (fun st => sw_solution st = solution /\
                      (sw_best_idx st = -1 \/
                       0 <= sw_best_idx st < Z.of_nat (length solution) - 1))).
  - simpl. auto.
  - intros st i Hi [Hsol Hidx]. apply elem_of_seq in Hi.
    destruct (swap_body_keeps p d w st i) as [Hsol' Hidx'];
      [rewrite Hsol; lia|].
    split; [congruence|].
    destruct Hidx' as [->| ->]; [exact Hidx|]. right. lia.
Qed.

(** [__swap_search] leaves [solution] as it was and writes a rearrangement
    of it to [new_sol]. *)
Lemma swap_kernel_rearranges c p d w solution :
  let r := __swap_search c p d w solution (empty_like solution) in
  new_sol_out r ≡ₚ solution /\ solution_out r = solution /\
  (improvement r = false -> new_sol_out r = solution).
Proof.
  unfold __swap_search. rewrite copy_into_empty_like.
  destruct (swap_loop_keeps p d w
              (computation_times c (take_rows p solution)) solution
              (evaluate_Z (computation_times c (take_rows p solution)) d w))
    as [Hsol Hidx].
  cbv zeta in Hsol, Hidx. cbv zeta.
  match goal with
  | |- context [fold_left ?f ?l ?a] => set (st := fold_left f l a) in *
  end.
  destruct (Z.ltb_spec (-1) (sw_best_idx st)) as [Hpos|Hneg]; simpl.
  - split; [|split; [exact Hsol|discriminate]].
    apply exchange_rearranges; lia.
  - auto.
Qed.

Lemma pair_loop_invariant (body : nat -> pair_state -> nat -> pair_state)
    (solution : list Z) (limit : nat) st0 :
  (limit <= length solution)%nat ->
  (forall i st j, (j < i)%nat -> (i < limit)%nat ->
     length (ps_solution st) = length solution ->
     ps_solution (body i st j) ≡ₚ ps_solution st /\
     ((ps_best_i (body i st j) = ps_best_i st /\
       ps_best_j (body i st j) = ps_best_j st) \/
      (ps_best_i (body i st j) = Z.of_nat i /\
       ps_best_j (body i st j) = Z.of_nat j))) ->
  ps_solution st0 = solution -> ps_best_i st0 = -1 ->
  let st := fold_left (fun st i => fold_left (body i) (seq 0 i) st)
                      (seq 0 limit) st0 in
  ps_solution st ≡ₚ solution /\
  (ps_best_i st = -1 \/
   0 <= ps_best_j st < ps_best_i st /\ ps_best_i st < Z.of_nat limit).
Proof.
  intros Hlimit Hbody Hsol0 Hbest0.
  pose (P := fun st : pair_state =>
               ps_solution st ≡ₚ solution /\
               (ps_best_i st = -1 \/
                0 <= ps_best_j st < ps_best_i st /\
                ps_best_i st < Z.of_nat limit)).
  apply (fold_left_invariant P).
  - split; [now rewrite Hsol0|auto].
  - intros st i Hi HP. apply elem_of_seq in Hi.
    apply (fold_left_invariant P); [exact HP|].
    intros st' j Hj [Hperm Hidx]. apply elem_of_seq in Hj.
    destruct (Hbody i st' j) as [Hperm' Hidx']; try lia.
    { now apply Permutation_length. }
    split; [now rewrite Hperm'|].
    destruct Hidx' as [[-> ->]|[-> ->]]; [exact Hidx|]. right. lia.
Qed.

Lemma insertion_body_rearranges p d w (solution : list Z) i st j :
  (j < i)%nat -> (i < length solution)%nat ->
  length (ps_solution st) = length solution ->
  ps_solution (insertion_body p d w i st j) ≡ₚ ps_solution st /\
  ((ps_best_i (insertion_body p d w i st j) = ps_best_i st /\
    ps_best_j (insertion_body p d w i st j) = ps_best_j st) \/
   (ps_best_i (insertion_body p d w i st j) = Z.of_nat i /\
    ps_best_j (insertion_body p d w i st j) = Z.of_nat j)).
Proof.
  intros Hji Hi Hlen. unfold insertion_body.
  destruct (ltb _ _); simpl; (split; [|auto]);
    apply shift_insert_rearranges; lia.
Qed.

(** [__insertion_search] writes a rearrangement of [solution] to [new_sol]
    and leaves [solution] itself rearranged. *)
Lemma insertion_kernel_rearranges c p d w solution :
  let r := __insertion_search c p d w solution (empty_like solution) in
  new_sol_out r ≡ₚ solution /\ solution_out r ≡ₚ solution /\
  (improvement r = false -> new_sol_out r = solution).
Proof.
  unfold __insertion_search. rewrite copy_into_empty_like.
  destruct (pair_loop_invariant (insertion_body p d w) solution
              (length solution)
              (mkPairState (computation_times c (take_rows p solution))
                 solution
                 (evaluate_Z (computation_times c (take_rows p solution)) d w)
                 (-1) (-1)))
    as [Hperm Hidx]; auto.
  { intros i st j Hji Hi Hlen.
    now apply (insertion_body_rearranges p d w solution). }
  cbv zeta in Hperm, Hidx. cbv zeta.
  match goal with
  | |- context [fold_left ?f ?l ?a] => set (st := fold_left f l a) in *
  end.
  destruct (Z.ltb_spec (-1) (ps_best_i st)) as [Hpos|Hneg]; simpl.
  - split; [|split; [exact Hperm|discriminate]].
    apply shift_insert_rearranges; lia.
  - auto.
Qed.

(** The three wrappers. *)
Lemma swap_search_rearranges instance solution :
  new_solution (swap_search instance solution) ≡ₚ solution /\
  solution_after (swap_search instance solution) = solution.
Proof.
  unfold swap_search, wrap_kernel. simpl.
  destruct (swap_kernel_rearranges (c instance) (p instance)
              (gather (d instance) solution)
              (map f32_of_Z (gather (w instance) solution)) solution)
    as (H1 & H2 & _).
  auto.
Qed.

Lemma insertion_search_rearranges instance solution :
  new_solution (insertion_search instance solution) ≡ₚ solution /\
  solution_after (insertion_search instance solution) ≡ₚ solution.
Proof.
  unfold insertion_search, wrap_kernel. simpl.
  destruct (insertion_kernel_rearranges (c instance) (p instance)
              (gather (d instance) solution)
              (map f32_of_Z (gather (w instance) solution)) solution)
    as (H1 & H2 & _).
  auto.
Qed.

Lemma search_round_rearranges ls instance solution :
  new_solution (search_round ls instance solution) ≡ₚ solution /\
  solution_after (search_round ls instance solution) ≡ₚ solution.
Proof.
  destruct ls; unfold search_round.
  - simpl. auto.
  - destruct (swap_search_rearranges instance solution) as [H1 H2].
    rewrite H2. auto.
  - rewrite interchange_search_is_swap_search.
    destruct (swap_search_rearranges instance solution) as [H1 H2].
    rewrite H2. auto.
  - apply insertion_search_rearranges.
Qed.

Lemma search_rounds_rearranges rounds ls instance solution :
  fst (search_rounds rounds ls instance solution) ≡ₚ solution.
Proof.
  revert instance solution.
  induction rounds as [|rounds IH]; intros instance solution; simpl; [done|].
  destruct (search_round_rearranges ls instance solution) as [Hnew _].
  destruct (negb (improved (search_round ls instance solution))); simpl.
  - exact Hnew.
  - now rewrite IH.
Qed.

(** [ACO.local_search] returns a rearrangement of the ant it is given and
    leaves the array of that ant rearranged. *)
Lemma local_search_rearranges {O X : Type} (ant : Ant) (s : ACO O X) :
  asarray (fst (fst (local_search ant s))) ≡ₚ asarray ant /\
  snd (fst (local_search ant s)) ≡ₚ asarray ant.
Proof.
  unfold local_search.
  pose proof (search_rounds_rearranges 3 (_ls s) (_instance s) (asarray ant))
    as Hrounds.
  destruct (search_rounds 3 (_ls s) (_instance s) (asarray ant))
    as [solution instance]. simpl in *.
  split; [exact Hrounds|].
  apply search_round_rearranges.
Qed.

Lemma is_permutation_rearranged n (a b : list Z) :
  a ≡ₚ b -> is_permutation n b -> is_permutation n a.
Proof. unfold is_permutation. intros Hab Hb. now rewrite Hab. Qed.

End SearchFacts.

(** ** Sequences built by NEH and by the MMAS constructor *)

Module ConstructionFacts.
Import Matrix Objective Float Env Heuristics Colony RearrangeFacts SearchFacts.

Lemma insert_by_key_rearranges x l : insert_by_key x l ≡ₚ x :: l.
Proof.
  induction l as [|y l IH]; simpl; [done|].
  destruct (fst x <=? fst y); [done|].
  rewrite IH. apply perm_swap.
Qed.

Lemma sort_by_key_rearranges l : sort_by_key l ≡ₚ l.
Proof.
  induction l as [|x l IH]; simpl; [done|].
  rewrite insert_by_key_rearranges. now rewrite IH.
Qed.

(** [np.argsort] returns a permutation of the positions. *)
Lemma argsort_is_permutation (a : list Z) :
  is_permutation (length a) (argsort a).
Proof.
  unfold is_permutation, argsort.
  rewrite sort_by_key_rearranges.
  change (map snd ?l) with (l.*2).
  rewrite snd_zip; [done|]. rewrite length_seqZ. lia.
Qed.

Lemma neh_place_rearranges p w d solution c x :
  fst (neh_place p w d (solution, c) x) ≡ₚ x :: solution.
Proof. unfold neh_place. simpl. apply insert_at_rearranges. Qed.

Lemma neh_loop_rearranges p w d others : forall acc,
  fst (fold_left (neh_place p w d) others acc) ≡ₚ others ++ fst acc.
Proof.
  induction others as [|x others IH]; intros [solution c].
  - reflexivity.
  - cbn [fold_left]. rewrite IH, neh_place_rearranges. simpl.
    symmetry. apply Permutation_middle.
Qed.

(** NEH returns a permutation of the jobs, and returns one whenever the
    instance has a job. *)
Lemma neh_algorithm_is_permutation instance :
  d instance <> [] ->
  exists solution instance',
    neh_algorithm instance = Some (solution, instance') /\
    is_permutation (length (d instance)) solution.
Proof.
  intros Hjobs. unfold neh_algorithm.
  pose proof (argsort_is_permutation (d instance)) as Hperm.
  destruct (argsort (d instance)) as [|first others] eqn:E.
  - apply Permutation_length in Hperm. rewrite length_seqZ in Hperm.
    destruct (d instance); [done|]. simpl in Hperm. lia.
  - pose proof (neh_loop_rearranges (p instance) (w instance) (d instance)
                  others ([first], c instance)) as Hloop.
    destruct (fold_left _ others ([first], c instance)) as [solution c'].
    exists solution, (set_c instance c'). split; [reflexivity|].
    simpl in Hloop. unfold is_permutation in *.
    rewrite Hloop, <- Hperm. symmetry. apply Permutation_cons_append.
Qed.








End ConstructionFacts.

(** ** Permutations and sorting *)

Module SortFacts.
Import Objective.

Lemma seqZ_sorted len : forall m, Sorted Z.le (seqZ m (Z.of_nat len)).
Proof.
  induction len as [|len IH]; intros m.
  - simpl. constructor.
  - rewrite seqZ_cons by lia.
    replace (Z.pred (Z.of_nat (S len))) with (Z.of_nat len) by lia.
    constructor; [apply IH|].
    destruct len as [|len]; [constructor|].
    rewrite seqZ_cons by lia. constructor. lia.
Qed.

(** A sequence is a permutation of the jobs exactly when sorting it gives
    [0, 1, ..., n - 1]. *)
Lemma is_permutation_sorted n (solution : list Z) :
  is_permutation n solution <-> np_sort solution = seqZ 0 (Z.of_nat n).
Proof.
  unfold is_permutation, np_sort. split.
  - intros Hperm. apply (Sorted_unique Z.le).
    + apply Sorted_merge_sort. apply _.
    + apply seqZ_sorted.
    + now rewrite merge_sort_Permutation.
  - intros Hsort. now rewrite <- Hsort, merge_sort_Permutation.
Qed.

End SortFacts.

Import Matrix Objective Float Env Heuristics Colony Samples.

(** C4 (the code departs from it). In the colony initialised on three
    jobs (best sequence [2, 0, 1]) the kernel of [PACO.create_solution]
    fills its five candidate slots from the three entries of the best
    sequence and from the two values behind them, read here as 0.  After
    the first ant of a step, [PACO.create_solution] elects job 0 twice, once
    from such a slot, and returns [2, 0, 0], which is not a permutation of
    [0, 3); unlike [MMAS.create_solution] it does not test the sequence and
    does not fall back to the best one.  Sorting [2, 0, 0] gives
    [0, 0, 2]. *)
Theorem paco_places_a_job_twice :
  n_jobs paco_colony = 3%nat /\
  is_permutation 3 (asarray (_best paco_colony)) /\
  match ant_loop 1 [] [] paco_colony with
  | Some (_, _, s1) =>
      asarray (_best s1) = [2; 0; 1] /\
      option_map (fun r => asarray (fst (fst r))) (PACO.create_solution s1)
        = Some [2; 0; 0]
  | None => False
  end /\
  np_sort [2; 0; 0] = [0; 0; 2] /\
  ~ is_permutation 3 [2; 0; 0].
Proof.
  split; [reflexivity|]. split.
  - unfold is_permutation. change (asarray (_best paco_colony)) with [2; 0; 1].
    change (seqZ 0 (Z.of_nat 3)) with [0; 1; 2].
    eapply perm_trans; [apply perm_swap|apply perm_skip, perm_swap].
  - split; [vm_compute; split; reflexivity|].
    split; [reflexivity|].
    unfold is_permutation. change (seqZ 0 (Z.of_nat 3)) with [0; 1; 2].
    intros Hperm.
    assert (Hin : 1 ∈ [2; 0; 0]).
    { rewrite Hperm. apply list_elem_of_further, list_elem_of_here. }
    repeat (apply elem_of_cons in Hin as [Hin|Hin]; [discriminate Hin|]).
    now apply elem_of_nil in Hin.
Qed.

(** * Further properties of the code *)

(** ** Order of floating-point values *)

Module FloatOrderFacts.
Import Float.

Lemma compare_antisym a b :
  SFcompare b a = option_map CompOpp (SFcompare a b).
Proof.
  destruct a as [sa|sa| |sa ma ea], b as [sb|sb| |sb mb eb];
    try destruct sa; try destruct sb; simpl; try reflexivity.
  - rewrite (Z.compare_antisym ea eb).
    destruct (ea ?= eb); simpl; try reflexivity.
    change (Pos.compare_cont Eq mb ma) with (mb ?= ma)%positive.
    change (Pos.compare_cont Eq ma mb) with (ma ?= mb)%positive.
    rewrite (Pos.compare_antisym ma mb). now destruct (ma ?= mb)%positive.
  - rewrite (Z.compare_antisym ea eb).
    destruct (ea ?= eb); simpl; try reflexivity.
    change (Pos.compare_cont Eq mb ma) with (mb ?= ma)%positive.
    change (Pos.compare_cont Eq ma mb) with (ma ?= mb)%positive.
    rewrite (Pos.compare_antisym ma mb). now destruct (ma ?= mb)%positive.
Qed.

Lemma compare_defined a b :
  is_nan a = false -> is_nan b = false -> exists o, SFcompare a b = Some o.
Proof. destruct a, b; simpl; intros; try discriminate; eauto. Qed.

Ltac compare_cases ea eb ec ma mb mc :=
  destruct (Z.compare_spec ea eb), (Z.compare_spec eb ec),
    (Z.compare_spec ea ec); subst; try lia; try discriminate;
    try reflexivity;
  change (Pos.compare_cont Eq) with Pos.compare in *;
  destruct (Pos.compare_spec ma mb), (Pos.compare_spec mb mc),
    (Pos.compare_spec ma mc); subst; simpl in *; try lia;
    try discriminate; try reflexivity.

Lemma compare_lt_trans a b c :
  SFcompare a b = Some Lt -> SFcompare b c = Some Lt ->
  SFcompare a c = Some Lt.
Proof.
  destruct a as [sa|sa| |sa ma ea], b as [sb|sb| |sb mb eb],
           c as [sc|sc| |sc mc ec];
    try destruct sa; try destruct sb; try destruct sc; simpl;
    try discriminate; try reflexivity; intros H1 H2;
    injection H1 as H1; injection H2 as H2; f_equal.
  all: compare_cases ea eb ec ma mb mc.
Qed.

Lemma compare_eq_lt_trans a b c :
  SFcompare a b = Some Eq -> SFcompare b c = Some Lt ->
  SFcompare a c = Some Lt.
Proof.
  destruct a as [sa|sa| |sa ma ea], b as [sb|sb| |sb mb eb],
           c as [sc|sc| |sc mc ec];
    try destruct sa; try destruct sb; try destruct sc; simpl;
    try discriminate; try reflexivity; intros H1 H2;
    injection H1 as H1; injection H2 as H2; f_equal.
  all: compare_cases ea eb ec ma mb mc.
Qed.

Lemma ltb_compare a b : ltb a b = true <-> SFcompare a b = Some Lt.
Proof.
  unfold ltb, SFltb. destruct (SFcompare a b) as [[ | | ]|]; split;
    intros; congruence.
Qed.

Lemma ltb_trans a b c : ltb a b = true -> ltb b c = true -> ltb a c = true.
Proof. rewrite !ltb_compare. apply compare_lt_trans. Qed.

Lemma ltb_irrefl a : ltb a a = false.
Proof.
  destruct (ltb a a) eqn:E; [|done].
  apply ltb_compare in E. pose proof (compare_antisym a a) as H.
  rewrite E in H. discriminate H.
Qed.

(** A value that is not below [b] is not below anything below [b]. *)
Lemma ltb_false_below a b c :
  ltb a b = false -> ltb c b = true -> ltb a c = false.
Proof.
  intros Hab Hcb. destruct (ltb a c) eqn:E; [|done].
  rewrite (ltb_trans a c b) in Hab; done.
Qed.

Lemma leb_compare a b :
  leb a b = true <-> SFcompare a b = Some Lt \/ SFcompare a b = Some Eq.
Proof.
  unfold leb, SFleb. destruct (SFcompare a b) as [[ | | ]|]; split;
    intros H; first [discriminate H | tauto | destruct H; congruence].
Qed.

(** On values that are not NaN the order is total. *)
Lemma not_ltb_leb a b :
  is_nan a = false -> is_nan b = false -> ltb a b = false -> leb b a = true.
Proof.
  intros Ha Hb Hlt. destruct (compare_defined a b Ha Hb) as [o Ho].
  apply leb_compare. rewrite (compare_antisym a b), Ho. simpl.
  destruct o; auto.
  assert (ltb a b = true) by now apply ltb_compare. congruence.
Qed.

Lemma ltb_leb a b : ltb a b = true -> leb a b = true.
Proof. rewrite ltb_compare, leb_compare. auto. Qed.

Lemma leb_refl a : is_nan a = false -> leb a a = true.
Proof.
  intros Ha. apply not_ltb_leb; auto. apply ltb_irrefl.
Qed.

Lemma ltb_not_nan a b :
  ltb a b = true -> is_nan a = false /\ is_nan b = false.
Proof.
  rewrite ltb_compare. destruct a, b; simpl; try discriminate; auto.
Qed.

End FloatOrderFacts.

(** ** Integers held exactly in [float32] *)

Module ExactFacts.
Import Matrix Objective Float Neighbourhood KernelValues.

Lemma digits_bounds p :
  2 ^ (Z.pos (digits2_pos p) - 1) <= Z.pos p < 2 ^ Z.pos (digits2_pos p).
Proof.
  induction p as [p IH|p IH|]; simpl digits2_pos.
  - rewrite Pos2Z.inj_succ.
    replace (Z.succ (Z.pos (digits2_pos p)) - 1) with (Z.succ (Z.pos (digits2_pos p) - 1)) by lia.
    rewrite !Z.pow_succ_r by lia. lia.
  - rewrite Pos2Z.inj_succ.
    replace (Z.succ (Z.pos (digits2_pos p)) - 1) with (Z.succ (Z.pos (digits2_pos p) - 1)) by lia.
    rewrite !Z.pow_succ_r by lia. lia.
  - simpl. lia.
Qed.

Lemma digits_unique p k :
  2 ^ (k - 1) <= Z.pos p < 2 ^ k -> Z.pos (digits2_pos p) = k.
Proof.
  intros [Hlo Hhi]. pose proof (digits_bounds p) as [Dlo Dhi].
  set (D := Z.pos (digits2_pos p)) in *.
  assert (HD : 0 < D) by (unfold D; lia).
  destruct (Z.lt_trichotomy D k) as [Hlt|[Heq|Hgt]]; [|exact Heq|].
  - assert (2 ^ D <= 2 ^ (k - 1)) by (apply Z.pow_le_mono_r; lia). lia.
  - assert (k < 0 \/ 0 <= k) as [Hneg|Hpos] by lia.
    + rewrite Z.pow_neg_r in Hhi by lia. lia.
    + assert (2 ^ k <= 2 ^ (D - 1)) by (apply Z.pow_le_mono_r; lia). lia.
Qed.

Lemma digits_shift p q k :
  0 <= k -> Z.pos q = Z.pos p * 2 ^ k ->
  Z.pos (digits2_pos q) = Z.pos (digits2_pos p) + k.
Proof.
  intros Hk Hq. apply digits_unique.
  pose proof (digits_bounds p) as [Dlo Dhi].
  set (D := Z.pos (digits2_pos p)) in *.
  assert (HD : 0 < D) by (unfold D; lia).
  replace (D + k - 1) with ((D - 1) + k) by lia.
  rewrite !Z.pow_add_r by lia. rewrite Hq.
  assert (0 < 2 ^ k) by (apply Z.pow_pos_nonneg; lia).
  split; nia.
Qed.

Lemma iter_pos_nat {A} (f : A -> A) n x :
  SpecFloat.iter_pos f n x = Nat.iter (Pos.to_nat n) f x.
Proof.
  revert x. induction n as [n IH|n IH|]; intros x;
    cbn [SpecFloat.iter_pos].
  - rewrite !IH, Pos2Nat.inj_xI, <- Nat.iter_add, <- Nat.iter_succ_r.
    f_equal. lia.
  - rewrite !IH, Pos2Nat.inj_xO, <- Nat.iter_add. f_equal. lia.
  - reflexivity.
Qed.

Lemma shr_exact (k : nat) (m : Z) :
  0 <= m ->
  Nat.iter k shr_1 (Build_shr_record (m * 2 ^ Z.of_nat k) false false)
  = Build_shr_record m false false.
Proof.
  revert m. induction k as [|k IH]; intros m Hm.
  - simpl. now rewrite Z.mul_1_r.
  - rewrite Nat.iter_succ_r.
    replace (m * 2 ^ Z.of_nat (S k)) with (2 * (m * 2 ^ Z.of_nat k))
      by (rewrite Nat2Z.inj_succ, Z.pow_succ_r by lia; lia).
    assert (H0 : 0 <= m * 2 ^ Z.of_nat k)
      by (apply Z.mul_nonneg_nonneg; [lia|apply Z.pow_nonneg; lia]).
    assert (Hs : shr_1 (Build_shr_record (2 * (m * 2 ^ Z.of_nat k)) false false)
                 = Build_shr_record (m * 2 ^ Z.of_nat k) false false).
    { destruct (m * 2 ^ Z.of_nat k) as [|q|q]; [reflexivity|reflexivity|lia]. }
    rewrite Hs. now apply IH.
Qed.

Lemma digits_small p : Z.pos p < 2 ^ 24 -> Z.pos (digits2_pos p) <= 24.
Proof.
  intros Hp. pose proof (digits_bounds p) as [Hlo _].
  assert (H : 2 ^ (Z.pos (digits2_pos p) - 1) < 2 ^ 24) by lia.
  apply Z.pow_lt_mono_r_iff in H; lia.
Qed.

Lemma shr_fexp_canonical (M : positive) (e : Z) :
  Z.pos (digits2_pos M) = 24 -> -149 <= e ->
  shr_fexp 24 128 (Z.pos M) e loc_Exact
  = (Build_shr_record (Z.pos M) false false, e).
Proof.
  intros HD He. unfold shr_fexp, fexp, emin. cbn [Zdigits2]. rewrite HD.
  replace (Z.max (24 + e - 24) (3 - 128 - 24) - e) with 0 by lia.
  reflexivity.
Qed.

Lemma shr_fexp_exact (M M' : positive) (e n : Z) :
  0 < n -> n = Z.pos (digits2_pos M) - 24 ->
  -149 <= e + n -> Z.pos M = Z.pos M' * 2 ^ n ->
  shr_fexp 24 128 (Z.pos M) e loc_Exact
  = (Build_shr_record (Z.pos M') false false, e + n).
Proof.
  intros Hn HD He HM. unfold shr_fexp, fexp, emin. cbn [Zdigits2].
  replace (Z.max (Z.pos (digits2_pos M) + e - 24) (3 - 128 - 24) - e)
    with n by lia.
  destruct n as [|q|q]; try lia.
  cbn [shr shr_record_of_loc]. rewrite iter_pos_nat, HM.
  rewrite <- (positive_nat_Z q) at 1.
  rewrite shr_exact by lia. reflexivity.
Qed.

Lemma round_exact (M : positive) (e z : Z) :
  1 <= z < 2 ^ 24 -> e <= 0 -> Z.pos M = z * 2 ^ (- e) ->
  24 <= Z.pos (digits2_pos M) ->
  represents (binary_round_aux 24 128 false (Z.pos M) e loc_Exact) z.
Proof.
  intros Hz He HM HD.
  destruct z as [|zp|]; try lia.
  pose proof (digits_shift zp M (- e) ltac:(lia) HM) as Hshift.
  pose proof (digits_small zp ltac:(lia)) as Hsmall.
  set (D := Z.pos (digits2_pos M)) in *.
  set (dz := Z.pos (digits2_pos zp)) in *.
  assert (Hdz : 1 <= dz) by (unfold dz; lia).
  unfold binary_round_aux.
  destruct (Z.eq_dec D 24) as [E|NE].
  - rewrite shr_fexp_canonical by (fold D; lia).
    cbn [round_nearest_even loc_of_shr_record shr_m].
    rewrite shr_fexp_canonical by (fold D; lia).
    cbn [shr_m]. destruct (Z.leb_spec e (128 - 24)) as [_|Hbig]; [|lia].
    right. exists M, e. auto.
  - set (n := D - 24).
    assert (Hsplit : 2 ^ (- e) = 2 ^ (- e - n) * 2 ^ n)
      by (rewrite <- Z.pow_add_r by lia; f_equal; lia).
    assert (Hpos : 0 < Z.pos zp * 2 ^ (- e - n))
      by (apply Z.mul_pos_pos; [lia|apply Z.pow_pos_nonneg; lia]).
    destruct (Z.pos zp * 2 ^ (- e - n)) as [|M'|] eqn:EM'; try lia.
    assert (HM' : Z.pos M = Z.pos M' * 2 ^ n)
      by (rewrite HM, Hsplit, Z.mul_assoc, EM'; reflexivity).
    assert (HD' : Z.pos (digits2_pos M') = 24).
    { pose proof (digits_shift M' M n ltac:(lia) HM') as H'. fold D in H'. lia. }
    rewrite (shr_fexp_exact M M' e n) by (fold D; lia).
    cbn [round_nearest_even loc_of_shr_record shr_m].
    rewrite shr_fexp_canonical by lia.
    cbn [shr_m]. destruct (Z.leb_spec (e + n) (128 - 24)) as [_|Hbig]; [|lia].
    right. exists M', (e + n). split; [reflexivity|]. split; [exact HD'|].
    split; [lia|]. rewrite <- EM'. f_equal. f_equal. lia.
Qed.

Lemma iter_xO (M : positive) (d : positive) :
  Z.pos (Pos.iter xO M d) = Z.pos M * 2 ^ Z.pos d.
Proof.
  change (Pos.iter xO M d) with (shift_pos d M).
  rewrite shift_pos_correct, Zpower_pos_nat, Zpower_nat_Z, positive_nat_Z. lia.
Qed.

Lemma shl_align_value (M : positive) (e e' : Z) :
  e' <= e -> Z.pos (fst (shl_align M e e')) = Z.pos M * 2 ^ (e - e').
Proof.
  intros He. unfold shl_align.
  destruct (e' - e) as [|q|q] eqn:E; try lia; cbn [fst].
  - replace (e - e') with 0 by lia. lia.
  - rewrite iter_xO. f_equal. f_equal. lia.
Qed.

Lemma binary_round_exact (M : positive) (e z : Z) :
  1 <= z < 2 ^ 24 -> e <= 0 -> Z.pos M = z * 2 ^ (- e) ->
  represents (binary_round 24 128 false M e) z.
Proof.
  intros Hz He HM.
  destruct z as [|zp|]; try lia.
  pose proof (digits_shift zp M (- e) ltac:(lia) HM) as Hshift.
  pose proof (digits_small zp ltac:(lia)) as Hsmall.
  assert (Hdz : 1 <= Z.pos (digits2_pos zp)) by lia.
  unfold binary_round, shl_align.
  replace (fexp 24 128 (Z.pos (digits2_pos M) + e))
    with (Z.pos (digits2_pos M) + e - 24) by (unfold fexp, emin; lia).
  destruct (Z.pos (digits2_pos M) + e - 24 - e) as [|q|q] eqn:E.
  - apply round_exact; auto; lia.
  - apply round_exact; auto; lia.
  - pose proof (iter_xO M q) as Hq.
    apply round_exact; [lia|lia| |].
    + rewrite Hq, HM, <- Z.mul_assoc, <- Z.pow_add_r by lia.
      f_equal. f_equal. lia.
    + rewrite (digits_shift M _ (Z.pos q) ltac:(lia) Hq). lia.
Qed.

Lemma f32_of_Z_represents (z : Z) :
  0 <= z < 2 ^ 24 -> represents (f32_of_Z z) z.
Proof.
  intros Hz. destruct z as [|zp|]; try lia.
  - left. auto.
  - unfold f32_of_Z, prec32, emax32, binary_normalize.
    apply binary_round_exact; [lia|lia|]. simpl. lia.
Qed.

Lemma represents_range x z : represents x z -> 0 <= z < 2 ^ 24.
Proof.
  intros [[-> _]|(m & e & _ & HD & He & Hm)]; [lia|].
  pose proof (digits_bounds m) as [_ Hhi]. rewrite HD in Hhi.
  assert (H2 : 1 <= 2 ^ (- e)) by (apply (Z.pow_le_mono_r 2 0); lia).
  assert (0 < z) by nia. split; [lia|]. nia.
Qed.

Lemma mul32_represents x y a b :
  represents x a -> represents y b -> a * b < 2 ^ 24 ->
  represents (mul32 x y) (a * b).
Proof.
  intros Hx Hy Hab.
  pose proof (represents_range _ _ Hx) as Ha.
  pose proof (represents_range _ _ Hy) as Hb.
  destruct Hx as [[-> ->]|(mx & ex & -> & Dx & Ex & Mx)];
    destruct Hy as [[-> ->]|(my & ey & -> & Dy & Ey & My)].
  - left. auto.
  - left. auto.
  - left. split; [lia|reflexivity].
  - unfold mul32, prec32, emax32, SFmul. cbn [xorb].
    assert (Hapos : 0 < a) by (destruct a; lia).
    assert (Hbpos : 0 < b) by (destruct b; lia).
    apply round_exact; [nia|lia| |].
    + rewrite Pos2Z.inj_mul, Mx, My.
      replace (- (ex + ey)) with (- ex + - ey) by lia.
      rewrite Z.pow_add_r by lia. ring.
    + pose proof (digits_bounds mx) as [Lx _]. rewrite Dx in Lx.
      pose proof (digits_bounds my) as [Ly _]. rewrite Dy in Ly.
      pose proof (digits_bounds (mx * my)) as [_ Hprod].
      rewrite Pos2Z.inj_mul in Hprod.
      assert (H46 : 2 ^ 46 < 2 ^ Z.pos (digits2_pos (mx * my))).
      { eapply Z.le_lt_trans; [|exact Hprod].
        change (2 ^ 46) with (2 ^ (24 - 1) * 2 ^ (24 - 1)). nia. }
      apply Z.pow_lt_mono_r_iff in H46; lia.
Qed.

Lemma add32_represents x y a b :
  represents x a -> represents y b -> a + b < 2 ^ 24 ->
  represents (add32 x y) (a + b).
Proof.
  intros Hx Hy Hab.
  pose proof (represents_range _ _ Hx) as Ha.
  pose proof (represents_range _ _ Hy) as Hb.
  destruct Hx as [[-> ->]|(mx & ex & -> & Dx & Ex & Mx)];
    destruct Hy as [[-> ->]|(my & ey & -> & Dy & Ey & My)].
  - left. auto.
  - right. exists my, ey. auto.
  - right. exists mx, ex. rewrite Z.add_0_r. auto.
  - unfold add32, prec32, emax32, SFadd. cbn [cond_Zopp].
    assert (Hapos : 0 < a) by (destruct a; lia).
    assert (Hbpos : 0 < b) by (destruct b; lia).
    set (ez := Z.min ex ey).
    pose proof (shl_align_value mx ex ez ltac:(lia)) as Vx.
    pose proof (shl_align_value my ey ez ltac:(lia)) as Vy.
    destruct (Z.pos (fst (shl_align mx ex ez)) + Z.pos (fst (shl_align my ey ez)))
      as [|M|M] eqn:EM; try lia.
    cbn [binary_normalize].
    apply binary_round_exact; [lia|lia|].
    rewrite <- EM, Vx, Vy, Mx, My, <- !Z.mul_assoc, <- !Z.pow_add_r by lia.
    replace (- ex + (ex - ez)) with (- ez) by lia.
    replace (- ey + (ey - ez)) with (- ez) by lia. ring.
Qed.

Lemma exponent_order (mx my : positive) (ex ey a b : Z) :
  Z.pos mx < 2 ^ 24 -> 2 ^ (24 - 1) <= Z.pos my ->
  ex < ey -> ey <= 0 -> 0 < a ->
  Z.pos mx = a * 2 ^ (- ex) -> Z.pos my = b * 2 ^ (- ey) -> a < b.
Proof.
  intros Ux Ly Hlt Hey Ha Mx My.
  assert (Hs : 2 ^ (- ex) = 2 ^ (- ey) * 2 ^ (ey - ex))
    by (rewrite <- Z.pow_add_r by lia; f_equal; lia).
  assert (Hk : 2 <= 2 ^ (ey - ex)) by (apply (Z.pow_le_mono_r 2 1); lia).
  assert (HP : 0 < 2 ^ (- ey)) by (apply Z.pow_pos_nonneg; lia).
  assert (Hdouble : Z.pos mx < 2 * Z.pos my)
    by (change (2 ^ 24) with (2 * 2 ^ (24 - 1)) in Ux; lia).
  rewrite Mx, My, Hs in Hdouble.
  assert (Hq : a * 2 ^ (ey - ex) < 2 * b).
  { apply (Z.mul_lt_mono_pos_r (2 ^ (- ey))); [exact HP|].
    replace (a * 2 ^ (ey - ex) * 2 ^ (- ey))
      with (a * (2 ^ (- ey) * 2 ^ (ey - ex))) by ring.
    replace (2 * b * 2 ^ (- ey)) with (2 * (b * 2 ^ (- ey))) by ring.
    exact Hdouble. }
  nia.
Qed.

Lemma ltb_represents x y a b :
  represents x a -> represents y b -> ltb x y = (a <? b).
Proof.
  intros Hx Hy.
  pose proof (represents_range _ _ Hx) as Ha.
  pose proof (represents_range _ _ Hy) as Hb.
  destruct Hx as [[-> ->]|(mx & ex & -> & Dx & Ex & Mx)];
    destruct Hy as [[-> ->]|(my & ey & -> & Dy & Ey & My)].
  - reflexivity.
  - assert (Hbpos : 0 < b) by (destruct b; lia).
    unfold ltb, SFltb, SFcompare. symmetry. apply Z.ltb_lt. lia.
  - assert (Hapos : 0 < a) by (destruct a; lia).
    unfold ltb, SFltb, SFcompare. symmetry. apply Z.ltb_ge. lia.
  - assert (Hapos : 0 < a) by (destruct a; lia).
    assert (Hbpos : 0 < b) by (destruct b; lia).
    pose proof (digits_bounds mx) as [Lx Ux]. rewrite Dx in Lx, Ux.
    pose proof (digits_bounds my) as [Ly Uy]. rewrite Dy in Ly, Uy.
    unfold ltb, SFltb, SFcompare.
    destruct (ex ?= ey) eqn:Ec;
      [apply Z.compare_eq_iff in Ec|apply Z.compare_lt_iff in Ec
      |apply Z.compare_gt_iff in Ec].
    + subst ey. change (Pos.compare_cont Eq mx my) with (Z.pos mx ?= Z.pos my).
      assert (Hpow : 0 < 2 ^ (- ex)) by (apply Z.pow_pos_nonneg; lia).
      destruct (Z.compare_spec (Z.pos mx) (Z.pos my)) as [Hc|Hc|Hc];
        symmetry; [apply Z.ltb_ge|apply Z.ltb_lt|apply Z.ltb_ge]; nia.
    + symmetry. apply Z.ltb_lt.
      apply (exponent_order mx my ex ey a b); auto; lia.
    + symmetry. apply Z.ltb_ge.
      assert (b < a); [|lia].
      apply (exponent_order my mx ey ex b a); auto; lia.
Qed.

Lemma represents_unique x y z : represents x z -> represents y z -> x = y.
Proof.
  intros Hx Hy.
  destruct Hx as [[-> ->]|(mx & ex & -> & Dx & Ex & Mx)];
    destruct Hy as [[Hz ->]|(my & ey & -> & Dy & Ey & My)];
    [reflexivity|lia|lia|].
  assert (Hzpos : 0 < z) by (destruct z; lia).
  pose proof (digits_bounds mx) as [Lx Ux]. rewrite Dx in Lx, Ux.
  pose proof (digits_bounds my) as [Ly Uy]. rewrite Dy in Ly, Uy.
  assert (He : ex = ey).
  { destruct (Z.lt_trichotomy ex ey) as [Hlt|[Heq|Hgt]]; [|exact Heq|].
    - pose proof (exponent_order mx my ex ey z z Ux Ly Hlt Ey Hzpos Mx My). lia.
    - pose proof (exponent_order my mx ey ex z z Uy Lx Hgt Ex Hzpos My Mx). lia. }
  subst ey. f_equal. apply Pos2Z.inj. now rewrite Mx, My.
Qed.

Lemma fold_add_ge l : forall a,
  Forall (fun x => 0 <= x) l -> a <= fold_left Z.add l a.
Proof.
  induction l as [|x l IH]; intros a Hl; cbn [fold_left]; [lia|].
  apply list.Forall_cons in Hl as [Hx Hl].
  specialize (IH (a + x) Hl). lia.
Qed.

Lemma products_nonneg (ws ts : list Z) :
  Forall (fun x => 0 <= x) ws -> Forall (fun x => 0 <= x) ts ->
  Forall (fun x => 0 <= x) (zip_with Z.mul ws ts).
Proof.
  intros Hws. revert ts.
  induction Hws as [|w ws Hw Hws IH]; intros ts Hts; [constructor|].
  destruct Hts as [|t ts Ht Hts]; simpl; [constructor|].
  constructor; [nia|auto].
Qed.

(** The dot product of integer vectors in [float32], added from left to
    right, when no partial sum reaches 2^24. *)
Lemma fold_add32_represents (ws ts : list Z) : forall x a,
  Forall (fun w => 0 <= w < 2 ^ 24) ws ->
  Forall (fun t => 0 <= t < 2 ^ 24) ts ->
  represents x a ->
  fold_left Z.add (zip_with Z.mul ws ts) a < 2 ^ 24 ->
  represents
    (fold_left add32 (zip_with mul32 (map f32_of_Z ws) (map f32_of_Z ts)) x)
    (fold_left Z.add (zip_with Z.mul ws ts) a).
Proof.
  revert ts. induction ws as [|w ws IH]; intros ts x a Hws Hts Hx Hsum;
    [exact Hx|].
  destruct ts as [|t ts]; [exact Hx|].
  apply list.Forall_cons in Hws as [Hw Hws].
  apply list.Forall_cons in Hts as [Ht Hts].
  cbn [map zip_with fold_left] in *.
  pose proof (represents_range _ _ Hx) as Ha.
  assert (Hrest : a + w * t <= fold_left Z.add (zip_with Z.mul ws ts) (a + w * t)).
  { apply fold_add_ge, products_nonneg.
    - eapply Forall_impl; [exact Hws|]. simpl. lia.
    - eapply Forall_impl; [exact Hts|]. simpl. lia. }
  assert (Hwt : 0 <= w * t) by nia.
  apply IH; auto.
  apply add32_represents; [exact Hx| |lia].
  apply mul32_represents; [now apply f32_of_Z_represents
                          |now apply f32_of_Z_represents|lia].
Qed.

Lemma gather_small (a solution : list Z) :
  Forall (fun x => 0 <= x < 2 ^ 24) a ->
  Forall (fun x => 0 <= x < 2 ^ 24) (gather a solution).
Proof.
  intros Ha. unfold gather. apply Forall_fmap, list.Forall_forall.
  intros s _. simpl.
  destruct (a !! norm_index (length a) s) as [x|] eqn:E; simpl; [|lia].
  rewrite Forall_lookup in Ha. eauto.
Qed.

Lemma tardiness_nonneg completion due :
  Forall (fun t => 0 <= t) (tardiness completion due).
Proof.
  unfold tardiness. revert due.
  induction completion as [|ci completion IH]; intros due; [constructor|].
  destruct due as [|di due]; simpl; [constructor|].
  constructor; [lia|apply IH].
Qed.

(** In the exact range the value the kernel compares is the dot product
    over the integers. *)
Lemma kernel_value_represents instance solution candidate :
  Forall (fun x => 0 <= x < 2 ^ 24) (w instance) ->
  exact_range instance solution candidate ->
  represents (kernel_value instance solution candidate)
             (kernel_sum instance solution candidate).
Proof.
  intros Hw [Ht Hsum].
  unfold kernel_value, evaluate_Z, dot32, kernel_sum.
  fold (kernel_tardiness instance solution candidate).
  apply fold_add32_represents.
  - now apply gather_small.
  - pose proof (tardiness_nonneg
                  (last_column (computation_times (c instance)
                                  (take_rows (p instance) candidate)))
                  (gather (d instance) solution)) as Hpos.
    fold (kernel_tardiness instance solution candidate) in Hpos.
    rewrite list.Forall_forall in Ht, Hpos. apply list.Forall_forall.
    intros t Hin. split; auto.
  - left. auto.
  - exact Hsum.
Qed.

End ExactFacts.

(** ** The scratch buffer *)

Module BufferFacts.
Import FixedWidth FixedWidthFacts Matrix MatrixFacts Objective KernelFacts
       ObjectiveFacts.

Lemma matrix_ext (c c' : matrix) n m :
  shape c n m -> shape c' n m ->
  (forall i j, (i < n)%nat -> (j < m)%nat -> mget c i j = mget c' i j) ->
  c = c'.
Proof.
  intros [Hl Hr] [Hl' Hr'] Heq. apply list_eq. intros i.
  destruct (decide (i < n)%nat) as [Hi|Hi].
  - destruct (lookup_lt_is_Some_2 c i) as [r Er]; [lia|].
    destruct (lookup_lt_is_Some_2 c' i) as [r' Er']; [lia|].
    rewrite Er, Er'. f_equal.
    rewrite Forall_lookup in Hr, Hr'.
    pose proof (Hr i r Er) as Hlr. pose proof (Hr' i r' Er') as Hlr'.
    apply list_eq. intros j.
    destruct (decide (j < m)%nat) as [Hj|Hj].
    + specialize (Heq i j Hi Hj). unfold mget in Heq. rewrite Er, Er' in Heq.
      destruct (lookup_lt_is_Some_2 r j) as [x Ex]; [lia|].
      destruct (lookup_lt_is_Some_2 r' j) as [x' Ex']; [lia|].
      rewrite Ex, Ex' in *. simpl in Heq. congruence.
    + rewrite !lookup_ge_None_2 by lia. done.
  - rewrite !lookup_ge_None_2 by lia. done.
Qed.

(** The 32-bit recurrence has one solution. *)
Lemma recurrence32_unique C C' P n m :
  flowshop_recurrence32 C P n m -> flowshop_recurrence32 C' P n m ->
  forall i j, (i < n)%nat -> (j < m)%nat -> mget C i j = mget C' i j.
Proof.
  intros (H00 & Hcol & Hrow & Hin) (H00' & Hcol' & Hrow' & Hin').
  induction i as [|i IHi]; intros j Hi.
  - induction j as [|j IHj]; intros Hj.
    + congruence.
    + rewrite Hrow, Hrow' by lia.
      replace (S j - 1)%nat with j by lia. rewrite IHj by lia. done.
  - induction j as [|j IHj]; intros Hj.
    + rewrite Hcol, Hcol' by lia.
      replace (S i - 1)%nat with i by lia. rewrite (IHi 0%nat) by lia. done.
    + rewrite Hin, Hin' by lia.
      replace (S i - 1)%nat with i by lia.
      replace (S j - 1)%nat with j by lia.
      rewrite (IHi (S j)) by lia. rewrite IHj by lia. done.
Qed.

(** What the buffer holds before the kernel runs does not matter. *)
Lemma computation_times_buffer (c c' P : matrix) n m :
  shape c n m -> shape c' n m -> shape P n m ->
  (1 <= n)%nat -> (1 <= m)%nat -> entries_int32 P ->
  computation_times c P = computation_times c' P.
Proof.
  intros Hc Hc' HP Hn Hm He.
  destruct (computation_times_fills c P n m) as [Hs Hr]; auto.
  destruct (computation_times_fills c' P n m) as [Hs' Hr']; auto.
  apply (matrix_ext _ _ n m Hs Hs').
  now apply (recurrence32_unique _ _ P n m).
Qed.

Lemma computation_times_shape (c P : matrix) n m :
  shape c n m -> shape P n m ->
  (1 <= n)%nat -> (1 <= m)%nat -> entries_int32 P ->
  shape (computation_times c P) n m.
Proof. intros. now apply computation_times_fills. Qed.

End BufferFacts.

Import FixedWidth Matrix Objective Float BufferFacts ObjectiveFacts.

(** X1. The scratch buffer [instance.c] is allocated with
    [np.empty_like] and never cleared.  For an instance of n ≥ 1 jobs and
    m ≥ 1 machines and a permutation of its jobs, the results of
    [weighted_tardiness] and [makespan] with refresh do not depend on what
    the buffer holds, evaluating a second time gives the same result, and
    [makespan] without refresh right after [weighted_tardiness] on the same
    permutation is [makespan] with refresh. *)
Theorem objective_ignores_buffer
    (instance : Instance) (c' : matrix) (solution : list Z) (n m : nat) :
  shape (p instance) n m -> shape (c instance) n m -> shape c' n m ->
  (1 <= n)%nat -> (1 <= m)%nat -> entries_int32 (p instance) ->
  is_permutation n solution ->
  weighted_tardiness (set_c instance c') solution true
    = weighted_tardiness instance solution true /\
  makespan (set_c instance c') solution true
    = makespan instance solution true /\
  weighted_tardiness (snd (weighted_tardiness instance solution true))
                     solution true
    = weighted_tardiness instance solution true /\
  makespan (snd (weighted_tardiness instance solution true)) solution false
    = makespan instance solution true.
Proof.
  intros Hp Hc Hc' Hn Hm He Hperm.
  pose proof (shape_take_rows _ _ _ _ Hp Hperm) as HP.
  pose proof (entries_int32_take_rows _ solution He) as HE.
  unfold weighted_tardiness, makespan, objective. simpl.
  rewrite (computation_times_buffer c' (c instance) _ n m) by auto.
  split; [reflexivity|]. split; [reflexivity|].
  rewrite (computation_times_buffer
             (computation_times (c instance) (take_rows (p instance) solution))
             (c instance) _ n m); auto.
  now apply computation_times_shape.
Qed.

Lemma objective_ignores_buffer_witness :
  weighted_tardiness (set_c tiny_instance [[7; 7]; [7; 7]; [7; 7]])
                     [2; 0; 1] true
    = weighted_tardiness tiny_instance [2; 0; 1] true /\
  makespan (set_c tiny_instance [[7; 7]; [7; 7]; [7; 7]]) [2; 0; 1] true
    = makespan tiny_instance [2; 0; 1] true /\
  weighted_tardiness (snd (weighted_tardiness tiny_instance [2; 0; 1] true))
                     [2; 0; 1] true
    = weighted_tardiness tiny_instance [2; 0; 1] true /\
  makespan (snd (weighted_tardiness tiny_instance [2; 0; 1] true))
           [2; 0; 1] false
    = makespan tiny_instance [2; 0; 1] true.
Proof.
  apply (objective_ignores_buffer tiny_instance [[7; 7]; [7; 7]; [7; 7]]
           [2; 0; 1] 3 2).
  - split; [reflexivity|repeat constructor].
  - split; [reflexivity|repeat constructor].
  - split; [reflexivity|repeat constructor].
  - lia.
  - lia.
  - repeat constructor; unfold min_int32, max_int32; simpl; lia.
  - unfold is_permutation. change (seqZ 0 (Z.of_nat 3)) with [0; 1; 2].
    eapply perm_trans; [apply perm_swap|apply perm_skip, perm_swap].
Defined.

(** ** The swap neighbourhood *)

Module SwapFacts.
Import FixedWidth Matrix Objective Float Neighbourhood KernelValues
       FloatOrderFacts BufferFacts ObjectiveFacts RearrangeFacts SearchFacts.

Section Scan.
Context (instance : Instance) (solution : list Z) (n m : nat).
Context (Hp : shape (p instance) n m) (Hc : shape (c instance) n m).
Context (Hn : (1 <= n)%nat) (Hm : (1 <= m)%nat).
Context (He : entries_int32 (p instance)).
Context (Hperm : is_permutation n solution).

Local Abbreviation value := (kernel_value instance solution).
Local Abbreviation neighbour := (KernelValues.neighbour solution).
Local Abbreviation dd := (gather (d instance) solution).
Local Abbreviation ww := (map f32_of_Z (gather (w instance) solution)).
Local Abbreviation scanned := (KernelValues.scanned instance solution n m).

Lemma neighbour_is_permutation k :
  (k + 1 < n)%nat -> is_permutation n (neighbour k).
Proof.
  intros Hk. pose proof (is_permutation_length _ _ Hperm) as Hlen.
  apply (is_permutation_rearranged n _ solution); [|exact Hperm].
  apply exchange_rearranges; lia.
Qed.

Lemma scanned_step t st :
  (t + 1 < n)%nat -> scanned t st ->
  scanned (S t) (swap_body (p instance) dd ww st t).
Proof.
  intros Ht (Hsol & Hshape & Hbest).
  pose proof (is_permutation_length _ _ Hperm) as Hlen.
  pose proof (neighbour_is_permutation t Ht) as Hnp.
  pose proof (shape_take_rows _ _ _ _ Hp Hnp) as HP.
  pose proof (entries_int32_take_rows _ (neighbour t) He) as HE.
  unfold swap_body. rewrite Hsol.
  rewrite exchange_twice by lia.
  fold (neighbour t).
  rewrite (computation_times_buffer (sw_c st) (c instance) _ n m) by auto.
  change (evaluate_Z
            (computation_times (c instance)
               (take_rows (p instance) (neighbour t))) dd ww)
    with (value (neighbour t)).
  assert (Hshape' : shape (computation_times (c instance)
                             (take_rows (p instance) (neighbour t))) n m)
    by now apply computation_times_shape.
  destruct (ltb (value (neighbour t)) (sw_bestZ st)) eqn:Elt; simpl;
    (split; [reflexivity|]); (split; [exact Hshape'|]).
  - right. exists t. split; [lia|]. split; [reflexivity|].
    split; [reflexivity|].
    destruct Hbest as [(Hidx & HZ & Hall)|(i & Hi & Hidx & HZ & Hlow & Hall)].
    + rewrite HZ in Elt. split; [exact Elt|].
      intros k Hk. destruct (decide (k = t)) as [->|Hne].
      * apply ltb_irrefl.
      * apply (ltb_false_below _ (value solution)); [apply Hall; lia|exact Elt].
    + rewrite HZ in Elt. split.
      * now apply (ltb_trans _ (value (neighbour i))).
      * intros k Hk. destruct (decide (k = t)) as [->|Hne].
        -- apply ltb_irrefl.
        -- apply (ltb_false_below _ (value (neighbour i)));
             [apply Hall; lia|exact Elt].
  - destruct Hbest as [(Hidx & HZ & Hall)|(i & Hi & Hidx & HZ & Hlow & Hall)].
    + left. split; [exact Hidx|]. split; [exact HZ|].
      intros k Hk. destruct (decide (k = t)) as [->|Hne].
      * now rewrite <- HZ.
      * apply Hall; lia.
    + right. exists i. split; [lia|]. split; [exact Hidx|].
      split; [exact HZ|]. split; [exact Hlow|].
      intros k Hk. destruct (decide (k = t)) as [->|Hne].
      * now rewrite <- HZ.
      * apply Hall; lia.
Qed.

Lemma scanned_loop t st0 :
  (t <= n - 1)%nat -> scanned 0 st0 ->
  scanned t (fold_left (swap_body (p instance) dd ww) (seq 0 t) st0).
Proof.
  intros Ht H0. induction t as [|t IH]; [exact H0|].
  rewrite seq_S, fold_left_app. cbn [fold_left]. simpl.
  apply scanned_step; [lia|]. apply IH. lia.
Qed.

End Scan.

(** What the loop has established when it returns, on the values the
    kernel compares. *)
Lemma swap_search_scans
    (instance : Instance) (solution : list Z) (n m : nat) :
  shape (p instance) n m -> shape (c instance) n m ->
  (1 <= n)%nat -> (1 <= m)%nat -> entries_int32 (p instance) ->
  is_permutation n solution ->
  let value := kernel_value instance solution in
  let neighbour := neighbour solution in
  let r := swap_search instance solution in
  solution_after r = solution /\
  (improved r = false ->
   new_solution r = solution /\
   forall k, (k + 1 < n)%nat ->
     ltb (value (neighbour k)) (value solution) = false) /\
  (improved r = true ->
   exists i, (i + 1 < n)%nat /\
     new_solution r = neighbour i /\
     ltb (value (neighbour i)) (value solution) = true /\
     forall k, (k + 1 < n)%nat ->
       ltb (value (neighbour k)) (value (neighbour i)) = false).
Proof.
  intros Hp Hc Hn Hm He Hperm. cbv zeta.
  pose proof (is_permutation_length _ _ Hperm) as Hlen.
  pose proof (shape_take_rows _ _ _ _ Hp Hperm) as HP.
  pose proof (entries_int32_take_rows _ solution He) as HE.
  unfold swap_search, wrap_kernel, __swap_search.
  rewrite copy_into_empty_like.
  set (dd := gather (d instance) solution).
  set (ww := map f32_of_Z (gather (w instance) solution)).
  set (C0 := computation_times (c instance) (take_rows (p instance) solution)).
  assert (H0 : scanned instance solution n m 0
                 (mkSwapState C0 solution (evaluate_Z C0 dd ww) (-1))).
  { split; [reflexivity|]. split; [now apply computation_times_shape|].
    left. split; [reflexivity|]. split; [reflexivity|]. intros k Hk. lia. }
  pose proof (scanned_loop instance solution n m Hp Hc Hn Hm He Hperm
                (n - 1) _ ltac:(lia) H0) as Hfinal.
  fold dd ww in Hfinal.
  rewrite Hlen.
  set (st := fold_left (swap_body (p instance) dd ww) (seq 0 (n - 1)) _) in *.
  destruct Hfinal as (Hsol & _ & Hbest). cbv zeta.
  destruct Hbest as [(Hidx & HZ & Hall)|(i & Hi & Hidx & HZ & Hlow & Hall)].
  - rewrite Hidx. simpl. split; [exact Hsol|]. split; [|discriminate].
    intros _. split; [reflexivity|]. intros k Hk. apply Hall. lia.
  - rewrite Hidx.
    destruct (Z.ltb_spec (-1) (Z.of_nat i)) as [_|Hneg]; [|lia]. simpl.
    split; [exact Hsol|]. split; [discriminate|].
    intros _. exists i. split; [lia|]. rewrite Nat2Z.id.
    split; [reflexivity|]. split; [exact Hlow|].
    intros k Hk. apply Hall. lia.
Qed.

End SwapFacts.

Import Neighbourhood KernelValues SwapFacts RearrangeFacts ExactFacts.

(** X2. [swap_search] looks at the exchanges of two neighbouring
    positions.  Take an instance of n ≥ 1 jobs and m ≥ 1 machines with
    integer weights in [0, 2^24) and a permutation of its jobs such that,
    for the incumbent and for each of its neighbours, the tardinesses and
    their weighted sum stay below 2^24: there the [float32] value the
    kernel compares is that sum, whatever the order in which [np.dot] adds.
    Then the caller's array is left as it was; when no exchange has a sum
    strictly below the incumbent's, the incumbent is returned with
    improvement = false; otherwise the returned sequence is the incumbent
    with one pair of neighbours exchanged, its sum is strictly below the
    incumbent's and no exchange of neighbours has a lower one.  The sums
    are the kernel's: the completion times are the candidate's, the due
    dates and the weights stay in the order of the incumbent. *)
Theorem swap_search_best_neighbour
    (instance : Instance) (solution : list Z) (n m : nat) :
  shape (p instance) n m -> shape (c instance) n m ->
  (1 <= n)%nat -> (1 <= m)%nat -> entries_int32 (p instance) ->
  is_permutation n solution ->
  Forall (fun x => 0 <= x < 2 ^ 24) (w instance) ->
  (forall candidate, is_candidate solution n candidate ->
                     exact_range instance solution candidate) ->
  let value := kernel_sum instance solution in
  let neighbour := neighbour solution in
  let r := swap_search instance solution in
  solution_after r = solution /\
  (forall candidate, is_candidate solution n candidate ->
     kernel_value instance solution candidate = f32_of_Z (value candidate)) /\
  (improved r = false ->
   new_solution r = solution /\
   forall k, (k + 1 < n)%nat -> value solution <= value (neighbour k)) /\
  (improved r = true ->
   exists i, (i + 1 < n)%nat /\
     new_solution r = neighbour i /\
     value (neighbour i) < value solution /\
     forall k, (k + 1 < n)%nat -> value (neighbour i) <= value (neighbour k)).
Proof.
  intros Hp Hc Hn Hm He Hperm Hw Hrange. cbv zeta.
  assert (Hrep : forall candidate, is_candidate solution n candidate ->
            represents (kernel_value instance solution candidate)
                       (kernel_sum instance solution candidate)).
  { intros candidate Hcand. apply kernel_value_represents; auto. }
  assert (Hself : is_candidate solution n solution) by now left.
  assert (Hnext : forall k, (k + 1 < n)%nat ->
            is_candidate solution n (KernelValues.neighbour solution k)).
  { intros k Hk. right. now exists k. }
  assert (Hlt : forall a b,
            is_candidate solution n a -> is_candidate solution n b ->
            ltb (kernel_value instance solution a)
                (kernel_value instance solution b)
            = (kernel_sum instance solution a <? kernel_sum instance solution b)).
  { intros a b Ha Hb. apply ltb_represents; auto. }
  destruct (swap_search_scans instance solution n m Hp Hc Hn Hm He Hperm)
    as (Hafter & Hsame & Hbetter).
  split; [exact Hafter|]. split.
  { intros candidate Hcand.
    apply (represents_unique _ _ (kernel_sum instance solution candidate)).
    - now apply Hrep.
    - apply f32_of_Z_represents.
      apply (represents_range (kernel_value instance solution candidate)).
      now apply Hrep. }
  split.
  - intros Himp. destruct (Hsame Himp) as [Hnew Hall].
    split; [exact Hnew|]. intros k Hk.
    specialize (Hall k Hk). rewrite Hlt in Hall by auto.
    apply Z.ltb_ge in Hall. exact Hall.
  - intros Himp. destruct (Hbetter Himp) as (i & Hi & Hnew & Hlow & Hall).
    exists i. split; [exact Hi|]. split; [exact Hnew|]. split.
    + rewrite Hlt in Hlow by auto. now apply Z.ltb_lt in Hlow.
    + intros k Hk. specialize (Hall k Hk). rewrite Hlt in Hall by auto.
      apply Z.ltb_ge in Hall. exact Hall.
Qed.

(** ** The single-objective optimizer *)

Module OptimizerFacts.
Import Objective Env BaseOpt Optimizers Runs.

Lemma lt_bound_true wt b :
  lt_bound wt b = true -> forall x, bound_le b x -> wt < x.
Proof.
  destruct b as [k|]; simpl; [|contradiction].
  intros H x Hx. apply Z.ltb_lt in H. lia.
Qed.

Lemma lt_bound_false wt b : lt_bound wt b = false -> bound_le b wt.
Proof.
  destruct b as [k|]; simpl; [|discriminate].
  intros H. apply Z.ltb_ge in H. exact H.
Qed.

End OptimizerFacts.

Import Objective Env BaseOpt Optimizers Runs OptimizerFacts.

(** X3. In every state of an [Optimizer] (built by the constructor, then
    changed by [start], [evaluate] and [step] in any order): each entry of
    the history is a one-element tuple whose value is at least [Zbest];
    [Zbest] is [np.inf] exactly when [best] is [None]; the stagnation
    counter lies between 0 and the length of the history; and when the
    counter is 0 the history is empty or its last entry is the tuple of
    [Zbest]. *)
Theorem optimizer_best_is_minimum (o : Optimizer) :
  optimizer_state o ->
  Forall (fun objectives =>
            exists wt, objectives = [wt] /\ bound_le (Zbest o) wt)
         (_objective (base o)) /\
  (Zbest o = Infinite <-> best o = None) /\
  0 <= _n_steps_without_improvement (base o)
    <= Z.of_nat (length (_objective (base o))) /\
  (_n_steps_without_improvement (base o) = 0 ->
   _objective (base o) = [] \/
   exists wt, last (_objective (base o)) = Some [wt] /\
              Zbest o = Finite wt).
Proof.
  induction 1 as [n_it early max_time seed
                 |w o Hst IH
                 |instance solution o score o' instance' Hst IH Hev
                 |o Hst IH].
  - simpl. split; [constructor|]. split; [done|]. split; [lia|]. auto.
  - destruct IH as (_ & Hbest & _ & _).
    unfold start, time_time. simpl.
    destruct (_seed (opt_base o)), (_max_time (opt_base o)); simpl;
      (split; [constructor|]); (split; [exact Hbest|]);
      (split; [lia|]); auto.
  - destruct IH as (Hall & Hbest & Hstag & Hzero).
    simpl in Hall, Hstag, Hzero.
    unfold evaluate in Hev. simpl in Hev. unfold Optimizer_evaluate in Hev.
    destruct (weighted_tardiness instance solution true) as [wt inst1].
    destruct (lt_bound wt (Zbest o)) eqn:Elt; injection Hev as <- <- <-; simpl.
    + split; [|split; [done|split; [rewrite length_app; simpl; lia|]]].
      * apply Forall_app. split.
        -- eapply Forall_impl; [exact Hall|].
           intros objectives (x & -> & Hx). exists x. split; [done|].
           simpl. pose proof (lt_bound_true _ _ Elt x Hx). lia.
        -- constructor; [|constructor]. exists wt. simpl. split; [done|lia].
      * intros _. right. exists wt. rewrite last_snoc. done.
    + split; [|split; [exact Hbest|split; [rewrite length_app; simpl; lia|]]].
      * apply Forall_app. split; [exact Hall|].
        constructor; [|constructor]. exists wt. split; [done|].
        now apply lt_bound_false.
      * intros Hz. lia.
  - destruct IH as (Hall & Hbest & Hstag & Hzero). simpl in *. auto.
Qed.

Lemma optimizer_best_is_minimum_witness :
  match sample_optimizer with
  | Some o =>
      Forall (fun objectives =>
                exists wt, objectives = [wt] /\ bound_le (Zbest o) wt)
             (_objective (base o)) /\
      (Zbest o = Infinite <-> best o = None) /\
      0 <= _n_steps_without_improvement (base o)
        <= Z.of_nat (length (_objective (base o))) /\
      (_n_steps_without_improvement (base o) = 0 ->
       _objective (base o) = [] \/
       exists wt, last (_objective (base o)) = Some [wt] /\
                  Zbest o = Finite wt)
  | None => False
  end.
Proof.
  unfold sample_optimizer.
  set (o0 := set_base (snd (start sample_world (base (new_Optimizer init_default))))
                      (new_Optimizer init_default)).
  assert (H0 : optimizer_state o0).
  { apply state_start. apply (state_new Infinite (Some Infinite) None None). }
  destruct (evaluate forced_instance [0; 1] o0) as [[[s1 o1] i1]|] eqn:E1;
    [|vm_compute in E1; discriminate E1].
  pose proof (state_evaluate _ _ _ _ _ _ H0 E1) as H1.
  vm_compute in E1. injection E1 as <- <- <-.
  destruct (evaluate _ [1; 0] _) as [[[s2 o2] i2]|] eqn:E2;
    [|vm_compute in E2; discriminate E2].
  apply optimizer_best_is_minimum.
  exact (state_evaluate _ _ _ _ _ _ H1 E2).
Defined.

Lemma swap_search_best_neighbour_witness :
  let value := kernel_sum interchange_instance [0; 1; 2] in
  let neighbour := neighbour [0; 1; 2] in
  let r := swap_search interchange_instance [0; 1; 2] in
  solution_after r = [0; 1; 2] /\
  (forall candidate, is_candidate [0; 1; 2] 3 candidate ->
     kernel_value interchange_instance [0; 1; 2] candidate
     = f32_of_Z (value candidate)) /\
  (improved r = false ->
   new_solution r = [0; 1; 2] /\
   forall k, (k + 1 < 3)%nat -> value [0; 1; 2] <= value (neighbour k)) /\
  (improved r = true ->
   exists i, (i + 1 < 3)%nat /\
     new_solution r = neighbour i /\
     value (neighbour i) < value [0; 1; 2] /\
     forall k, (k + 1 < 3)%nat -> value (neighbour i) <= value (neighbour k)).
Proof.
  apply (swap_search_best_neighbour interchange_instance [0; 1; 2] 3 2).
  - split; [reflexivity|repeat constructor].
  - split; [reflexivity|repeat constructor].
  - lia.
  - lia.
  - repeat constructor; unfold min_int32, max_int32; simpl; lia.
  - unfold is_permutation. apply Permutation_refl.
  - repeat constructor; lia.
  - intros candidate [->|(k & Hk & ->)].
    + split; [repeat constructor|]; vm_compute; reflexivity.
    + destruct k as [|[|k]]; [| |lia];
        (split; [repeat constructor|]; vm_compute; reflexivity).
Defined.

(** ** The bi-objective optimizer *)

Module ImprovementFacts.
Import Objective Env BaseOpt Optimizers ParetoFacts.

Lemma dominates_trans a b c :
  dominates a b = true -> dominates b c = true -> dominates a c = true.
Proof.
  destruct a as [wa ma], b as [wb mb], c as [wc mc]. unfold dominates.
  rewrite !andb_true_iff, !orb_true_iff, !Z.leb_le, !Z.ltb_lt. lia.
Qed.

(** The flag is not touched while the candidate dominates nobody. *)
Lemma scan_flag_kept items candidate st :
  (forall b, b ∈ items -> dominates candidate (fst b) = false) ->
  is_improvement (scan items candidate st) = is_improvement st.
Proof.
  revert st. induction items as [|[k v] rest IH]; intros st Hnone; [done|].
  simpl. destruct (dominates k candidate); [done|].
  pose proof (Hnone (k, v) (list_elem_of_here _ _)) as Hk. simpl in Hk.
  rewrite Hk. simpl.
  rewrite IH; [done|]. intros b Hb. apply Hnone.
  now apply list_elem_of_further.
Qed.

Lemma scan_flag_stays items candidate st :
  (forall a, a ∈ items -> dominates (fst a) candidate = false) ->
  is_improvement st = true ->
  is_improvement (scan items candidate st) = true.
Proof.
  revert st. induction items as [|[k v] rest IH]; intros st Hnone Hflag;
    [done|].
  pose proof (Hnone (k, v) (list_elem_of_here _ _)) as Hk. simpl in Hk.
  simpl. rewrite Hk.
  assert (Hrest : forall a, a ∈ rest -> dominates (fst a) candidate = false).
  { intros a Ha. apply Hnone. now apply list_elem_of_further. }
  destruct (negb (dominates candidate k)); apply IH; auto.
Qed.

Lemma scan_flag_set items candidate st :
  (forall a, a ∈ items -> dominates (fst a) candidate = false) ->
  (exists b, b ∈ items /\ dominates candidate (fst b) = true) ->
  is_improvement (scan items candidate st) = true.
Proof.
  revert st. induction items as [|[k v] rest IH];
    intros st Hnone (b & Hb & Hdom).
  - now apply elem_of_nil in Hb.
  - pose proof (Hnone (k, v) (list_elem_of_here _ _)) as Hk. simpl in Hk.
    simpl. rewrite Hk.
    assert (Hrest : forall a, a ∈ rest -> dominates (fst a) candidate = false).
    { intros a Ha. apply Hnone. now apply list_elem_of_further. }
    apply elem_of_cons in Hb as [->|Hb].
    + simpl in Hdom. rewrite Hdom. simpl.
      now apply scan_flag_stays.
    + destruct (negb (dominates candidate k)); apply IH; eauto.
Qed.

(** On a set without dominated entries the flag tells whether the
    candidate dominates an incumbent. *)
Lemma update_pareto_flag (set : pareto) candidate new_sol :
  mutually_nondominated set ->
  snd (update_pareto set candidate new_sol) = true <->
  exists b, b ∈ set /\ dominates candidate (fst b) = true.
Proof.
  intros Hinv.
  assert (Hflag : snd (update_pareto set candidate new_sol)
                  = is_improvement (scan set candidate (mkScan [] false false))).
  { unfold update_pareto. now destruct (negb _). }
  rewrite Hflag.
  destruct (dominated_or_not set candidate) as [(a & Ha & Hdom)|Hnone].
  - assert (Hno : forall b, b ∈ set -> dominates candidate (fst b) = false).
    { intros b Hb. destruct (dominates candidate (fst b)) eqn:Eb; [|done].
      rewrite <- (Hinv a b Ha Hb). symmetry.
      now apply (dominates_trans _ candidate). }
    rewrite scan_flag_kept by done. simpl. split; [discriminate|].
    intros (b & Hb & Hd). rewrite (Hno b Hb) in Hd. discriminate.
  - split.
    + intros Himp.
      destruct (List.existsb (fun b => dominates candidate (fst b)) set) eqn:Ex.
      * apply List.existsb_exists in Ex as (b & Hb & Hd).
        exists b. split; [now apply list_elem_of_In|done].
      * rewrite scan_flag_kept in Himp; [discriminate|].
        intros b Hb. destruct (dominates candidate (fst b)) eqn:Eb; [|done].
        rewrite <- Ex. symmetry. apply List.existsb_exists.
        exists b. split; [now apply list_elem_of_In|done].
    + intros Hex. now apply scan_flag_set.
Qed.

Lemma update_pareto_nonempty (set : pareto) candidate new_sol :
  fst (update_pareto set candidate new_sol) <> [].
Proof.
  destruct (dominated_or_not set candidate) as [(a & Ha & Hdom)|Hnone].
  - rewrite update_pareto_dominated by eauto.
    intros ->. now apply elem_of_nil in Ha.
  - unfold update_pareto.
    destruct (negb (new_sol_is_dominated _)) eqn:E; simpl.
    + destruct (new_pareto_set _) as [|[k v] rest]; simpl; [done|].
      destruct (decide (k = candidate)); done.
    + apply negb_false_iff in E.
      destruct set as [|a rest]; [discriminate E|done].
Qed.

End ImprovementFacts.

Import Objective Env BaseOpt Optimizers ParetoFacts ImprovementFacts.

(** X4. [BiObjectiveOptimizer.solutions] iterates over the dictionary and
    unpacks each key, a pair, into three names.  On a new optimizer, whose
    set is empty, it returns the empty list; after any evaluation the set
    holds at least one entry, and the call raises. *)
Theorem pareto_solutions_raise :
  (forall b : BaseOptimizer,
     solutions (mkBiObjectiveOptimizer b []) = Some []) /\
  (forall (instance instance' : Instance) (new_sol : list Z)
          (o o' : BiObjectiveOptimizer) (score : Z),
     evaluate instance new_sol o = Some (score, o', instance') ->
     pareto_set o' <> [] /\ solutions o' = None).
Proof.
  split; [reflexivity|].
  intros instance instance' new_sol o o' score Hev.
  unfold evaluate in Hev. simpl in Hev. unfold BiObjective_evaluate in Hev.
  destruct (weighted_tardiness instance new_sol true) as [new_wt inst1].
  destruct (makespan inst1 new_sol false) as [[new_m|] inst2]; [|discriminate].
  pose proof (update_pareto_nonempty (pareto_set o) (new_wt, new_m) new_sol)
    as Hne.
  destruct (update_pareto (pareto_set o) (new_wt, new_m) new_sol)
    as [set imp].
  injection Hev as <- <- <-. simpl in *.
  split; [exact Hne|]. destruct set; [done|reflexivity].
Qed.

Lemma pareto_solutions_raise_witness :
  solutions (mkBiObjectiveOptimizer init_default []) = Some [] /\
  match evaluate forced_instance [1; 0]
          (mkBiObjectiveOptimizer init_default []) with
  | Some (_, o', _) => pareto_set o' <> [] /\ solutions o' = None
  | None => False
  end.
Proof.
  destruct pareto_solutions_raise as [Hnew Hafter].
  split; [apply Hnew|].
  destruct (evaluate forced_instance [1; 0]
              (mkBiObjectiveOptimizer init_default []))
    as [[[score o'] instance']|] eqn:E.
  - exact (Hafter _ _ _ _ _ _ E).
  - vm_compute in E. discriminate E.
Defined.

(** X5. While no entry of the Pareto set dominates another one,
    [BiObjectiveOptimizer] counts an evaluation as an improvement exactly
    when the candidate dominates an incumbent: the stagnation counter is
    then reset to 0, and otherwise it grows by one.  A candidate that joins
    the set without dominating an incumbent, in particular the first
    candidate of a run, is no improvement. *)
Theorem pareto_improvement_is_domination
    (instance instance' : Instance) (new_sol : list Z)
    (o o' : BiObjectiveOptimizer) (score : Z) :
  mutually_nondominated (pareto_set o) ->
  evaluate instance new_sol o = Some (score, o', instance') ->
  exists new_m,
    _objective (base o') = _objective (base o) ++ [[score; new_m]] /\
    ((exists a, a ∈ pareto_set o /\
                dominates (score, new_m) (fst a) = true) ->
     _n_steps_without_improvement (base o') = 0) /\
    ((forall a, a ∈ pareto_set o ->
                dominates (score, new_m) (fst a) = false) ->
     _n_steps_without_improvement (base o')
     = _n_steps_without_improvement (base o) + 1) /\
    (pareto_set o = [] ->
     _n_steps_without_improvement (base o')
     = _n_steps_without_improvement (base o) + 1).
Proof.
  intros Hinv Hev.
  unfold evaluate in Hev. simpl in Hev. unfold BiObjective_evaluate in Hev.
  destruct (weighted_tardiness instance new_sol true) as [new_wt inst1].
  destruct (makespan inst1 new_sol false) as [[new_m|] inst2]; [|discriminate].
  pose proof (update_pareto_flag (pareto_set o) (new_wt, new_m) new_sol Hinv)
    as Hflag.
  destruct (update_pareto (pareto_set o) (new_wt, new_m) new_sol)
    as [set imp].
  injection Hev as <- <- <-. cbn [snd] in Hflag. simpl.
  exists new_m. split; [reflexivity|].
  assert (Hnone : (forall a, a ∈ pareto_set o ->
                     dominates (new_wt, new_m) (fst a) = false) ->
                  imp = false).
  { intros Hno. destruct imp; [|done].
    destruct Hflag as [Hflag _]. destruct (Hflag eq_refl) as (b & Hb & Hd).
    rewrite (Hno b Hb) in Hd. discriminate. }
  split; [|split].
  - intros Hex. apply Hflag in Hex. now rewrite Hex.
  - intros Hno. now rewrite (Hnone Hno).
  - intros Hempty. rewrite Hnone; [done|].
    intros a Ha. rewrite Hempty in Ha. now apply elem_of_nil in Ha.
Qed.

Lemma pareto_improvement_is_domination_witness :
  let o := mkBiObjectiveOptimizer init_default [] in
  let o' := mkBiObjectiveOptimizer
              (record_evaluation [17; 10] false init_default)
              [((17, 10), [1; 0])] in
  exists new_m,
    _objective (base o') = _objective (base o) ++ [[17; new_m]] /\
    ((exists a, a ∈ pareto_set o /\
                dominates (17, new_m) (fst a) = true) ->
     _n_steps_without_improvement (base o') = 0) /\
    ((forall a, a ∈ pareto_set o ->
                dominates (17, new_m) (fst a) = false) ->
     _n_steps_without_improvement (base o')
     = _n_steps_without_improvement (base o) + 1) /\
    (pareto_set o = [] ->
     _n_steps_without_improvement (base o')
     = _n_steps_without_improvement (base o) + 1).
Proof.
  intros o o'.
  apply (pareto_improvement_is_domination
           forced_instance
           (mkInstance [[5]; [5]] [[5]; [10]] [1; 1] [1; 2])
           [1; 0] o o' 17).
  - intros a b Ha. now apply elem_of_nil in Ha.
  - reflexivity.
Defined.

(** ** One step of a colony *)

Module StepFacts.
Import Objective Float Env BaseOpt Optimizers Neighbourhood Colony
       HistoryFacts PolicyFacts Driver.

Lemma recorded_app trace trace' b :
  recorded (trace ++ trace') b = recorded trace' (recorded trace b).
Proof. unfold recorded. apply fold_left_app. Qed.

Lemma recorded_iterations trace b :
  _n_iterations (recorded trace b) = _n_iterations b /\
  _max_n_iterations (recorded trace b) = _max_n_iterations b.
Proof.
  revert b. induction trace as [|e trace IH]; intros b; [done|].
  simpl. destruct (IH (record_evaluation (fst e) (snd e) b)) as [H1 H2].
  unfold recorded in *. now rewrite H1, H2.
Qed.

Lemma fold_min_le l : forall a, fold_left Z.min l a <= a.
Proof.
  induction l as [|x l IH]; intros a; simpl; [lia|].
  specialize (IH (Z.min a x)). lia.
Qed.

Section Generic.
Context {O X : Type} `{EvaluatorLaws O}.

Lemma local_search_frame (ant : Ant) (s : ACO O X) :
  _optimizer (snd (local_search ant s)) = _optimizer s /\
  _Zbest (snd (local_search ant s)) = _Zbest s /\
  _best (snd (local_search ant s)) = _best s /\
  n_ants (snd (local_search ant s)) = n_ants s /\
  world (snd (local_search ant s)) = world s.
Proof.
  unfold local_search.
  destruct (search_rounds 3 (_ls s) (_instance s) (asarray ant)).
  simpl. auto.
Qed.

End Generic.

(** The loop over the ants and the step, for any policy whose
    construction and parameter update leave the optimizer and the best
    score alone and whose pheromone update records one evaluation. *)
Section Step.
Context {O X : Type} `{EvaluatorLaws O} `{Policy X}.

Hypothesis create_frame : forall (s s' : ACO O X) ant shares,
  create_solution s = Some (ant, shares, s') ->
  _optimizer s' = _optimizer s /\ _Zbest s' = _Zbest s.

Hypothesis update_frame : forall (ant : Ant) (s s' : ACO O X),
  update_pheromones ant s = Some s' ->
  (exists objectives is_improvement,
     base (_optimizer s')
       = record_evaluation objectives is_improvement (base (_optimizer s))) /\
  _Zbest s' = _Zbest s.

Hypothesis parameters_frame : forall (s : ACO O X),
  _optimizer (update_parameters s) = _optimizer s /\
  _Zbest (update_parameters s) = _Zbest s.

Lemma ant_loop_frame k : forall solutions scores (s s' : ACO O X)
    solutions' scores',
  ant_loop k solutions scores s = Some (solutions', scores', s') ->
  (exists trace,
     base (_optimizer s') = recorded trace (base (_optimizer s))) /\
  exists new,
    scores' = scores ++ new /\ (length new <= k)%nat /\
    ((0 < k)%nat -> (0 < length new)%nat) /\
    length solutions' = (length solutions + length new)%nat /\
    _Zbest s' = fold_left Z.min new (_Zbest s).
Proof.
  induction k as [|k IH]; intros solutions scores s s' solutions' scores' Hloop.
  - injection Hloop as <- <- <-. split; [exists []; reflexivity|].
    exists []. rewrite app_nil_r. simpl. repeat split; lia.
  - simpl in Hloop.
    destruct (create_solution s) as [[[ant shares] s1]|] eqn:Ec; [|discriminate].
    destruct (create_frame _ _ _ _ Ec) as [Ho1 Hz1].
    destruct (local_search_frame (X := X) ant s1) as (Ho2 & Hz2 & _).
    destruct (local_search ant s1) as [[ant' array_after] s2].
    simpl in Ho2, Hz2.
    set (s3 := if shares then set_best (mkAnt array_after) (_Zbest s2) s2
               else s2) in *.
    assert (Hs3 : _optimizer s3 = _optimizer s /\ _Zbest s3 = _Zbest s).
    { unfold s3. destruct shares; simpl; split; congruence. }
    destruct Hs3 as [Ho3 Hz3].
    destruct (if pheromones_are_individual then update_pheromones ant' s3
              else Some s3) as [s4|] eqn:Eu; [|discriminate].
    assert (Hs4 : (exists trace, base (_optimizer s4)
                                 = recorded trace (base (_optimizer s))) /\
                  _Zbest s4 = _Zbest s).
    { destruct pheromones_are_individual.
      - destruct (update_frame _ _ _ Eu) as [(objs & imp & Hb) Hz].
        split; [|congruence].
        exists [(objs, imp)]. simpl. now rewrite Hb, Ho3.
      - injection Eu as <-. split; [|done].
        exists []. simpl. now rewrite Ho3. }
    destruct Hs4 as [(trace4 & Hb4) Hz4].
    destruct (aco_evaluate ant' s4) as [[score s5]|] eqn:Ee; [|discriminate].
    destruct (aco_evaluate_records _ _ _ _ Ee) as (objs & imp & _ & Hb5).
    destruct (aco_evaluate_fields _ _ _ _ Ee) as (_ & Hz5 & _).
    set (s6 := if score <? _Zbest s5 then set_best ant' score s5 else s5) in *.
    assert (Hs6 : _optimizer s6 = _optimizer s5 /\
                  _Zbest s6 = Z.min (_Zbest s) score).
    { unfold s6. rewrite Hz5, Hz4.
      destruct (Z.ltb_spec score (_Zbest s)); simpl; split; auto; lia. }
    destruct Hs6 as [Ho6 Hz6].
    destruct (is_running (world s6) (base (_optimizer s6))) as [running w].
    assert (Hb7 : base (_optimizer (set_world w s6))
                  = recorded (trace4 ++ [(objs, imp)]) (base (_optimizer s))).
    { simpl. rewrite Ho6, Hb5, Hb4, recorded_app. reflexivity. }
    destruct running as [[|]|]; [| |discriminate].
    + destruct (IH _ _ _ _ _ _ Hloop)
        as ((trace & Hb) & new & Hsc & Hlen & _ & Hso & Hz).
      split.
      * exists ((trace4 ++ [(objs, imp)]) ++ trace).
        now rewrite recorded_app, <- Hb7.
      * exists (score :: new). rewrite Hsc, <- app_assoc. simpl.
        split; [reflexivity|]. split; [lia|]. split; [lia|].
        split; [rewrite Hso, length_app; simpl; lia|].
        rewrite Hz. simpl. now rewrite Hz6.
    + injection Hloop as <- <- <-. split; [eauto|].
      exists [score]. simpl. split; [reflexivity|]. split; [lia|].
      split; [lia|]. split; [rewrite length_app; simpl; lia|].
      exact Hz6.
Qed.

Lemma aco_step_frame (s s' : ACO O X) :
  aco_step s = Some s' ->
  (exists trace,
     base (_optimizer s') = recorded trace (base (_optimizer s))) /\
  exists solutions scores s1,
    ant_loop (n_ants s) [] [] s = Some (solutions, scores, s1) /\
    (1 <= length scores <= n_ants s)%nat /\
    length solutions = length scores /\
    _Zbest s' = fold_left Z.min scores (_Zbest s).
Proof.
  unfold aco_step. intros Hstep.
  destruct (ant_loop (n_ants s) [] [] s) as [[[solutions scores] s1]|] eqn:El;
    [|discriminate].
  destruct (ant_loop_frame _ _ _ _ _ _ _ El)
    as ((trace & Hb) & new & Hsc & Hlen & _ & Hso & Hz).
  simpl in Hsc, Hso. subst new.
  destruct (argmin scores) as [best_pos|] eqn:Ea; [|discriminate].
  destruct (solutions !! best_pos) as [current_ant|]; [|discriminate].
  assert (Hpos : (1 <= length scores)%nat).
  { destruct scores; [discriminate|]. simpl. lia. }
  assert (Hrest : exists solutions0 scores0 s0,
            Some (solutions, scores, s1) = Some (solutions0, scores0, s0) /\
            (1 <= length scores0 <= n_ants s)%nat /\
            length solutions0 = length scores0 /\
            _Zbest s1 = fold_left Z.min scores0 (_Zbest s)).
  { exists solutions, scores, s1. repeat split; auto; lia. }
  destruct pheromones_are_individual; simpl in Hstep.
  - injection Hstep as <-.
    destruct (parameters_frame s1) as [Ho Hzp]. rewrite Ho, Hzp.
    split; [eauto|exact Hrest].
  - destruct (update_pheromones current_ant s1) as [s2|] eqn:Eu; [|discriminate].
    injection Hstep as <-.
    destruct (parameters_frame s2) as [Ho Hzp]. rewrite Ho, Hzp.
    destruct (update_frame _ _ _ Eu) as [(objs & imp & Hb2) Hz2].
    rewrite Hz2. split; [|exact Hrest].
    exists (trace ++ [(objs, imp)]). now rewrite recorded_app, <- Hb, Hb2.
Qed.

Lemma run_loop_frame fuel : forall (s s' : ACO O X),
  run_loop fuel s = Finished s' \/ run_loop fuel s = Unfinished s' ->
  (exists trace,
     base (_optimizer s') = recorded trace (base (_optimizer s))) /\
  _Zbest s' <= _Zbest s.
Proof.
  induction fuel as [|fuel IH]; intros s s' Hrun.
  - simpl in Hrun. destruct Hrun as [Hrun|Hrun]; [discriminate|].
    injection Hrun as <-. split; [exists []; reflexivity|lia].
  - simpl in Hrun.
    destruct (is_running (world s) (base (_optimizer s))) as [running w].
    destruct running as [[|]|].
    + destruct (aco_step (set_world w s)) as [s1|] eqn:Es.
      * destruct (aco_step_frame _ _ Es)
          as ((trace1 & Hb1) & sols & scores & s0 & _ & _ & _ & Hz1).
        destruct (IH _ _ Hrun) as ((trace & Hb) & Hz).
        split.
        -- exists (trace1 ++ trace). simpl in Hb1.
           now rewrite recorded_app, <- Hb1.
        -- rewrite Hz1 in Hz. pose proof (fold_min_le scores (_Zbest (set_world w s))).
           simpl in *. lia.
      * destruct Hrun; discriminate.
    + destruct Hrun as [Hrun|Hrun]; [|discriminate].
      injection Hrun as <-. split; [exists []; reflexivity|simpl; lia].
    + destruct Hrun; discriminate.
Qed.

End Step.

End StepFacts.

(** ** What the two policies leave alone *)

Module FrameFacts.
Import Objective Float Env BaseOpt Optimizers Neighbourhood Heuristics Colony
       HistoryFacts PolicyFacts Driver StepFacts.

Section Policies.
Context {O : Type} `{EvaluatorLaws O}.

Lemma mmas_create_frame (s s' : ACO O MMAS.state) ant shares :
  create_solution s = Some (ant, shares, s') ->
  _optimizer s' = _optimizer s /\ _Zbest s' = _Zbest s.
Proof.
  simpl. unfold MMAS.create_solution. intros Hc.
  destruct (MMAS._create_solution _ _ _ _ _) as [[raw w]|]; [|discriminate].
  destruct (MMAS.accept _ _ _) as [solution sh].
  injection Hc as <- <- <-. auto.
Qed.

Lemma paco_create_frame (s s' : ACO O PACO.state) ant shares :
  create_solution s = Some (ant, shares, s') ->
  _optimizer s' = _optimizer s /\ _Zbest s' = _Zbest s.
Proof.
  simpl. unfold PACO.create_solution. intros Hc.
  destruct (PACO._create_solution _ _ _ _ _) as [[raw w]|]; [|discriminate].
  injection Hc as <- <- <-. auto.
Qed.

Lemma mmas_update_frame (ant : Ant) (s s' : ACO O MMAS.state) :
  update_pheromones ant s = Some s' ->
  (exists objectives is_improvement,
     base (_optimizer s')
       = record_evaluation objectives is_improvement (base (_optimizer s))) /\
  _Zbest s' = _Zbest s.
Proof.
  intros Hu. split; [exact (mmas_update_records ant s s' Hu)|].
  simpl in Hu. unfold MMAS.update_pheromones in Hu.
  destruct (aco_evaluate ant s) as [[Zcurrent s1]|] eqn:Ee; [|discriminate].
  injection Hu as <-. simpl.
  now destruct (aco_evaluate_fields _ _ _ _ Ee) as (_ & Hz & _).
Qed.

Lemma paco_update_frame (ant : Ant) (s s' : ACO O PACO.state) :
  update_pheromones ant s = Some s' ->
  (exists objectives is_improvement,
     base (_optimizer s')
       = record_evaluation objectives is_improvement (base (_optimizer s))) /\
  _Zbest s' = _Zbest s.
Proof.
  intros Hu. split; [exact (paco_update_records ant s s' Hu)|].
  simpl in Hu. unfold PACO.update_pheromones in Hu.
  destruct (aco_evaluate ant s) as [[Zcurrent s1]|] eqn:Ee; [|discriminate].
  injection Hu as <-. simpl.
  now destruct (aco_evaluate_fields _ _ _ _ Ee) as (_ & Hz & _).
Qed.

Lemma mmas_parameters_frame (s : ACO O MMAS.state) :
  _optimizer (update_parameters s) = _optimizer s /\
  _Zbest (update_parameters s) = _Zbest s.
Proof. split; reflexivity. Qed.

Lemma paco_parameters_frame (s : ACO O PACO.state) :
  _optimizer (update_parameters s) = _optimizer s /\
  _Zbest (update_parameters s) = _Zbest s.
Proof. split; reflexivity. Qed.

End Policies.

End FrameFacts.

Import Objective Float Env BaseOpt Optimizers Neighbourhood Colony Driver
       Samples HistoryFacts StepFacts FrameFacts.

(** X6. A step of a colony processes at least one ant and at most
    [n_ants]: with [n_ants = 0] it raises ([np.argmin] of an empty list),
    and the first ant is processed even when the optimizer has already
    stopped.  The solutions and the scores collected have the same length,
    and after the step [_Zbest] is the minimum of its former value and of
    the scores, so it never increases.  This holds under MMAS and under
    PACO. *)
Theorem step_keeps_the_minimum
    (O : Type) (E : Evaluator O) (L : EvaluatorLaws O) :
  (forall s : ACO O MMAS.state, n_ants s = 0%nat -> aco_step s = None) /\
  (forall s : ACO O PACO.state, n_ants s = 0%nat -> aco_step s = None) /\
  (forall s s' : ACO O MMAS.state,
     aco_step s = Some s' ->
     exists solutions scores s1,
       ant_loop (n_ants s) [] [] s = Some (solutions, scores, s1) /\
       (1 <= length scores <= n_ants s)%nat /\
       length solutions = length scores /\
       _Zbest s' = fold_left Z.min scores (_Zbest s) /\
       _Zbest s' <= _Zbest s) /\
  (forall s s' : ACO O PACO.state,
     aco_step s = Some s' ->
     exists solutions scores s1,
       ant_loop (n_ants s) [] [] s = Some (solutions, scores, s1) /\
       (1 <= length scores <= n_ants s)%nat /\
       length solutions = length scores /\
       _Zbest s' = fold_left Z.min scores (_Zbest s) /\
       _Zbest s' <= _Zbest s).
Proof.
  split; [|split; [|split]].
  - intros s Hn. unfold aco_step. rewrite Hn. reflexivity.
  - intros s Hn. unfold aco_step. rewrite Hn. reflexivity.
  - intros s s' Hstep.
    destruct (aco_step_frame mmas_create_frame mmas_update_frame
                mmas_parameters_frame s s' Hstep)
      as (_ & solutions & scores & s1 & Hl & Hlen & Hso & Hz).
    exists solutions, scores, s1. repeat split; auto; try lia.
    rewrite Hz. apply fold_min_le.
  - intros s s' Hstep.
    destruct (aco_step_frame paco_create_frame paco_update_frame
                paco_parameters_frame s s' Hstep)
      as (_ & solutions & scores & s1 & Hl & Hlen & Hso & Hz).
    exists solutions, scores, s1. repeat split; auto; try lia.
    rewrite Hz. apply fold_min_le.
Qed.

Lemma step_keeps_the_minimum_witness :
  aco_step (set_world sample_world
              (mkACO (_optimizer mmas_colony) 0 (rho mmas_colony)
                 (_ls mmas_colony) (_tau mmas_colony) (_best mmas_colony)
                 (_Zbest mmas_colony) (_instance mmas_colony)
                 (extra mmas_colony) (world mmas_colony))) = None /\
  match aco_step paco_colony with
  | Some s' =>
      exists solutions scores s1,
        ant_loop (n_ants paco_colony) [] [] paco_colony
          = Some (solutions, scores, s1) /\
        (1 <= length scores <= n_ants paco_colony)%nat /\
        length solutions = length scores /\
        _Zbest s' = fold_left Z.min scores (_Zbest paco_colony) /\
        _Zbest s' <= _Zbest paco_colony
  | None => False
  end.
Proof.
  pose proof (step_keeps_the_minimum
                Optimizer Optimizer_Evaluator Optimizer_laws)
    as (Hnone & _ & _ & Hpaco).
  split.
  - apply Hnone. reflexivity.
  - destruct (aco_step paco_colony) as [s'|] eqn:Es.
    + exact (Hpaco _ _ Es).
    + vm_compute in Es. discriminate Es.
Defined.

(** ** Initialisation of a colony *)

Module InitFacts.
Import Matrix Objective Float Env BaseOpt Optimizers Neighbourhood Heuristics
       Colony HistoryFacts PolicyFacts Driver StepFacts FrameFacts
       SearchFacts ConstructionFacts.

Lemma start_fields w b :
  _objective (snd (start w b)) = [] /\
  _n_iterations (snd (start w b)) = 0 /\
  _n_steps_without_improvement (snd (start w b)) = 0 /\
  _max_n_iterations (snd (start w b)) = _max_n_iterations b.
Proof.
  unfold start, time_time.
  destruct (_seed b), (_max_time b); simpl; auto.
Qed.

Lemma head_cons (l : list Z) z : head l = Some z -> exists rest, l = z :: rest.
Proof. destruct l as [|x l]; [discriminate|]. intros [= ->]. eauto. Qed.

(** The initialisation, for any policy whose initial solution is a
    permutation found without touching the optimizer and whose first
    trails form a square matrix. *)
Section Initialize.
Context {O X : Type} `{EvaluatorLaws O} `{Policy X}.

Hypothesis initial_frame : forall (s s' : ACO O X) ant,
  initial_solution s = Some (ant, s') ->
  _optimizer s' = _optimizer s /\
  is_permutation (length (d (_instance s))) (asarray ant).

Hypothesis parameters_frame : forall (s : ACO O X),
  _optimizer (update_parameters s) = _optimizer s /\
  _Zbest (update_parameters s) = _Zbest s /\
  _best (update_parameters s) = _best s.

Hypothesis pheromones_frame : forall (s : ACO O X),
  _optimizer (init_pheromones s) = _optimizer s /\
  _Zbest (init_pheromones s) = _Zbest s /\
  _best (init_pheromones s) = _best s /\
  length (_tau (init_pheromones s)) = n_jobs (init_pheromones s) /\
  Forall (fun row => length row = n_jobs (init_pheromones s))
         (_tau (init_pheromones s)).

Lemma initialize_frame (optimizer : O) n_ants rho ls (x : X) w instance s :
  initialize optimizer n_ants rho ls x w instance = Some s ->
  (exists z1 z2 rest1 rest2,
     history s = [z1 :: rest1; z2 :: rest2] /\ _Zbest s = Z.min z1 z2) /\
  iterations s = 0 /\
  max_iterations s = _max_n_iterations (base optimizer) /\
  is_permutation (length (d instance)) (asarray (_best s)) /\
  length (_tau s) = n_jobs s /\
  Forall (fun row => length row = n_jobs s) (_tau s).
Proof.
  unfold initialize. intros Hinit.
  destruct (start_fields w (base optimizer)) as (Hh0 & Hi0 & _ & Hm0).
  destruct (start w (base optimizer)) as [w0 b0]. simpl in Hh0, Hi0, Hm0.
  set (s0 := mkACO (set_base b0 optimizer) n_ants rho ls [] (mkAnt []) 0
                   instance x w0) in *.
  destruct (initial_solution s0) as [[ant s1]|] eqn:Ei; [|discriminate].
  destruct (initial_frame _ _ _ Ei) as [Ho1 Hperm]. simpl in Hperm.
  destruct (aco_evaluate ant s1) as [[z1 s2]|] eqn:E1; [|discriminate].
  destruct (aco_evaluate_records _ _ _ _ E1) as (objs1 & imp1 & Hhd1 & Hb2).
  destruct (head_cons _ _ Hhd1) as (rest1 & ->).
  destruct (local_search_frame (X := X) ant (set_best (copy ant) z1 s2))
    as (Ho3 & Hz3 & Hbest3 & _).
  pose proof (local_search_rearranges ant (set_best (copy ant) z1 s2))
    as [Hre _].
  destruct (local_search ant (set_best (copy ant) z1 s2))
    as [[ant' after] s3].
  simpl in Ho3, Hz3, Hbest3, Hre.
  destruct (aco_evaluate ant' s3) as [[z2 s4]|] eqn:E2; [|discriminate].
  destruct (aco_evaluate_records _ _ _ _ E2) as (objs2 & imp2 & Hhd2 & Hb4).
  destruct (head_cons _ _ Hhd2) as (rest2 & ->).
  destruct (aco_evaluate_fields _ _ _ _ E2) as (_ & Hz4 & Hbest4 & _).
  injection Hinit as <-.
  set (s5 := if z2 <? _Zbest s4 then set_best (copy ant') z2 s4 else s4).
  assert (Hs5 : _optimizer s5 = _optimizer s4 /\ _Zbest s5 = Z.min z1 z2 /\
                is_permutation (length (d instance)) (asarray (_best s5))).
  { unfold s5. rewrite Hz4, Hz3.
    destruct (Z.ltb_spec z2 z1); simpl; (split; [reflexivity|]);
      (split; [lia|]).
    - now apply (is_permutation_rearranged _ _ (asarray ant)).
    - rewrite Hbest4, Hbest3. exact Hperm. }
  destruct Hs5 as (Ho5 & Hz5 & Hperm5).
  destruct (parameters_frame s5) as (Ho6 & Hz6 & Hbest6).
  destruct (pheromones_frame (update_parameters s5))
    as (Ho7 & Hz7 & Hbest7 & Hrows & Hcols).
  assert (Hbase : base (_optimizer (init_pheromones (update_parameters s5)))
                  = record_evaluation (z2 :: rest2) imp2
                      (record_evaluation (z1 :: rest1) imp1 b0)).
  { rewrite Ho7, Ho6, Ho5, Hb4, Ho3. simpl. rewrite Hb2, Ho1. simpl.
    now rewrite base_set_base. }
  split; [|split; [|split; [|split; [|split]]]].
  - exists z1, z2, rest1, rest2. unfold history. rewrite Hbase. simpl.
    rewrite Hh0. split; [reflexivity|]. now rewrite Hz7, Hz6.
  - unfold iterations. rewrite Hbase. simpl. exact Hi0.
  - unfold max_iterations. rewrite Hbase. simpl. exact Hm0.
  - now rewrite Hbest7, Hbest6.
  - exact Hrows.
  - exact Hcols.
Qed.

End Initialize.

Section Policies.
Context {O : Type} `{EvaluatorLaws O}.

Lemma neh_initial_frame (instance : Instance) solution instance' :
  neh_algorithm instance = Some (solution, instance') ->
  is_permutation (length (d instance)) solution.
Proof.
  intros Hneh.
  destruct (d instance) as [|d0 ds] eqn:Ed.
  - unfold neh_algorithm in Hneh. rewrite Ed in Hneh. discriminate.
  - destruct (neh_algorithm_is_permutation instance) as (sol & inst & Hn & Hp).
    + rewrite Ed. discriminate.
    + rewrite Hn in Hneh. injection Hneh as <- <-. now rewrite <- Ed.
Qed.

Lemma mmas_initial_frame (s s' : ACO O MMAS.state) ant :
  initial_solution s = Some (ant, s') ->
  _optimizer s' = _optimizer s /\
  is_permutation (length (d (_instance s))) (asarray ant).
Proof.
  simpl. unfold MMAS.initial_solution. intros Hi.
  destruct (neh_algorithm (_instance s)) as [[solution inst]|] eqn:En;
    [|discriminate].
  injection Hi as <- <-. split; [reflexivity|].
  now apply (neh_initial_frame _ _ inst).
Qed.

Lemma paco_initial_frame (s s' : ACO O PACO.state) ant :
  initial_solution s = Some (ant, s') ->
  _optimizer s' = _optimizer s /\
  is_permutation (length (d (_instance s))) (asarray ant).
Proof.
  simpl. unfold PACO.initial_solution. intros Hi.
  destruct (neh_algorithm (_instance s)) as [[solution inst]|] eqn:En;
    [|discriminate].
  injection Hi as <- <-. split; [reflexivity|].
  now apply (neh_initial_frame _ _ inst).
Qed.

Lemma mmas_parameters_frame3 (s : ACO O MMAS.state) :
  _optimizer (update_parameters s) = _optimizer s /\
  _Zbest (update_parameters s) = _Zbest s /\
  _best (update_parameters s) = _best s.
Proof. repeat split. Qed.

Lemma paco_parameters_frame3 (s : ACO O PACO.state) :
  _optimizer (update_parameters s) = _optimizer s /\
  _Zbest (update_parameters s) = _Zbest s /\
  _best (update_parameters s) = _best s.
Proof. repeat split. Qed.

Lemma mmas_pheromones_frame (s : ACO O MMAS.state) :
  _optimizer (init_pheromones s) = _optimizer s /\
  _Zbest (init_pheromones s) = _Zbest s /\
  _best (init_pheromones s) = _best s /\
  length (_tau (init_pheromones s)) = n_jobs (init_pheromones s) /\
  Forall (fun row => length row = n_jobs (init_pheromones s))
         (_tau (init_pheromones s)).
Proof.
  simpl. unfold MMAS.init_pheromones. simpl.
  split; [reflexivity|]. split; [reflexivity|]. split; [reflexivity|].
  split; [apply length_replicate|].
  apply Forall_replicate. apply length_replicate.
Qed.

Lemma length_fmap_entries f (tau : list (list float)) :
  length (fmap_entries f tau) = length tau.
Proof. unfold fmap_entries. apply length_imap. Qed.

Lemma rows_fmap_entries f (tau : list (list float)) n :
  Forall (fun row => length row = n) tau ->
  Forall (fun row => length row = n) (fmap_entries f tau).
Proof.
  intros Hrows. apply Forall_lookup. intros i row Hrow.
  unfold fmap_entries in Hrow. rewrite list_lookup_imap in Hrow.
  destruct (tau !! i) as [r|] eqn:Er; [|discriminate].
  injection Hrow as <-. rewrite length_imap.
  rewrite Forall_lookup in Hrows. eauto.
Qed.

Lemma paco_pheromones_frame (s : ACO O PACO.state) :
  _optimizer (init_pheromones s) = _optimizer s /\
  _Zbest (init_pheromones s) = _Zbest s /\
  _best (init_pheromones s) = _best s /\
  length (_tau (init_pheromones s)) = n_jobs (init_pheromones s) /\
  Forall (fun row => length row = n_jobs (init_pheromones s))
         (_tau (init_pheromones s)).
Proof.
  simpl. unfold PACO.init_pheromones. simpl.
  split; [reflexivity|]. split; [reflexivity|]. split; [reflexivity|].
  split.
  - rewrite !length_fmap_entries. apply length_replicate.
  - apply rows_fmap_entries, rows_fmap_entries.
    apply Forall_replicate. apply length_replicate.
Qed.

End Policies.

End InitFacts.

Import Matrix Objective Float Env BaseOpt Optimizers Neighbourhood Colony
       Driver Samples HistoryFacts StepFacts FrameFacts InitFacts.



(** X8. The colony never calls [BaseOptimizer.step].  [ACO.initialize]
    leaves the iteration counter of the optimizer at 0, [ACO.step] does not
    change it, and neither does the loop
    [while optimizer.is_running(): aco.step()] of the drivers, however long
    it runs: the test on [max_n_iterations] gives at the end of the loop
    what it gave at its start.  This holds under MMAS and under PACO. *)
Theorem colony_never_counts_iterations
    (O : Type) (E : Evaluator O) (L : EvaluatorLaws O) :
  (forall (optimizer : O) n_ants rho ls x w instance
          (s : ACO O MMAS.state),
     initialize optimizer n_ants rho ls x w instance = Some s ->
     iterations s = 0 /\
     max_iterations s = _max_n_iterations (base optimizer)) /\
  (forall (optimizer : O) n_ants rho ls x w instance
          (s : ACO O PACO.state),
     initialize optimizer n_ants rho ls x w instance = Some s ->
     iterations s = 0 /\
     max_iterations s = _max_n_iterations (base optimizer)) /\
  (forall s s' : ACO O MMAS.state,
     aco_step s = Some s' ->
     iterations s' = iterations s /\ max_iterations s' = max_iterations s) /\
  (forall s s' : ACO O PACO.state,
     aco_step s = Some s' ->
     iterations s' = iterations s /\ max_iterations s' = max_iterations s) /\
  (forall fuel (s s' : ACO O MMAS.state),
     run_loop fuel s = Finished s' \/ run_loop fuel s = Unfinished s' ->
     iterations s' = iterations s /\ max_iterations s' = max_iterations s /\
     (iterations_reached (base (_optimizer s'))
      <-> iterations_reached (base (_optimizer s)))) /\
  (forall fuel (s s' : ACO O PACO.state),
     run_loop fuel s = Finished s' \/ run_loop fuel s = Unfinished s' ->
     iterations s' = iterations s /\ max_iterations s' = max_iterations s /\
     (iterations_reached (base (_optimizer s'))
      <-> iterations_reached (base (_optimizer s)))).
Proof.
  assert (Hrec : forall (X : Type) (s s' : ACO O X),
            (exists trace,
               base (_optimizer s') = recorded trace (base (_optimizer s))) ->
            iterations s' = iterations s /\
            max_iterations s' = max_iterations s).
  { intros X s s' (trace & Hb). unfold iterations, max_iterations.
    rewrite Hb. apply recorded_iterations. }
  assert (Hreached : forall (X : Type) (s s' : ACO O X),
            iterations s' = iterations s ->
            max_iterations s' = max_iterations s ->
            (iterations_reached (base (_optimizer s'))
             <-> iterations_reached (base (_optimizer s)))).
  { intros X s s' Hi Hm. unfold iterations, max_iterations in Hi, Hm.
    unfold iterations_reached. now rewrite Hi, Hm. }
  split; [|split; [|split; [|split; [|split]]]].
  - intros optimizer n_ants rho ls x w instance s Hinit.
    destruct (initialize_frame mmas_initial_frame mmas_parameters_frame3
                mmas_pheromones_frame _ _ _ _ _ _ _ _ Hinit)
      as (_ & Hi & Hm & _).
    auto.
  - intros optimizer n_ants rho ls x w instance s Hinit.
    destruct (initialize_frame paco_initial_frame paco_parameters_frame3
                paco_pheromones_frame _ _ _ _ _ _ _ _ Hinit)
      as (_ & Hi & Hm & _).
    auto.
  - intros s s' Hstep. apply Hrec.
    apply (aco_step_frame mmas_create_frame mmas_update_frame
             mmas_parameters_frame s s' Hstep).
  - intros s s' Hstep. apply Hrec.
    apply (aco_step_frame paco_create_frame paco_update_frame
             paco_parameters_frame s s' Hstep).
  - intros fuel s s' Hrun.
    destruct (Hrec _ s s') as [Hi Hm].
    { apply (run_loop_frame mmas_create_frame mmas_update_frame
               mmas_parameters_frame fuel s s' Hrun). }
    split; [exact Hi|]. split; [exact Hm|]. now apply Hreached.
  - intros fuel s s' Hrun.
    destruct (Hrec _ s s') as [Hi Hm].
    { apply (run_loop_frame paco_create_frame paco_update_frame
               paco_parameters_frame fuel s s' Hrun). }
    split; [exact Hi|]. split; [exact Hm|]. now apply Hreached.
Qed.

Lemma colony_never_counts_iterations_witness :
  match run_loop 2 paco_colony with
  | Unfinished s' =>
      iterations s' = iterations paco_colony /\
      max_iterations s' = max_iterations paco_colony /\
      (iterations_reached (base (_optimizer s'))
       <-> iterations_reached (base (_optimizer paco_colony)))
  | _ => False
  end.
Proof.
  pose proof (colony_never_counts_iterations
                Optimizer Optimizer_Evaluator Optimizer_laws)
    as (_ & _ & _ & _ & _ & Hloop).
  destruct (run_loop 2 paco_colony) as [s'|  |s'] eqn:Er.
  - vm_compute in Er. discriminate Er.
  - vm_compute in Er. discriminate Er.
  - apply (Hloop 2%nat paco_colony s'). right. exact Er.
Defined.

Import Matrix Objective Float Env BaseOpt Optimizers Neighbourhood Heuristics
       Colony Samples RearrangeFacts SearchFacts ConstructionFacts.

(** X9. [ACO.local_search] returns a rearrangement of the sequence of
    the ant it is given, so a permutation of the jobs stays one, and leaves
    the array of that ant rearranged at most.  It does not go through the
    optimizer: the history and the counters of the optimizer are as before.
    With [ls = 'none'] the sequence and the instance come back as they
    were; with 'none', 'swap' or 'interchange' the array of the ant is left
    as it was, and so is the optimizer.  With 'insertion' the array of the
    ant can come back rearranged, and with it whatever holds that array,
    the optimizer's best included: nothing is stated about it there. *)
Theorem local_search_keeps_the_jobs
    (O X : Type) `{Evaluator O} (ant : Ant) (s : ACO O X) :
  let ant' := fst (fst (local_search ant s)) in
  let array_after := snd (fst (local_search ant s)) in
  let s' := snd (local_search ant s) in
  asarray ant' ≡ₚ asarray ant /\
  array_after ≡ₚ asarray ant /\
  (forall n, is_permutation n (asarray ant) ->
             is_permutation n (asarray ant')) /\
  base (_optimizer s') = base (_optimizer s) /\
  (_ls s = ls_none ->
   asarray ant' = asarray ant /\ array_after = asarray ant /\
   _instance s' = _instance s /\ _optimizer s' = _optimizer s) /\
  (_ls s = ls_swap \/ _ls s = ls_interchange ->
   array_after = asarray ant /\ _optimizer s' = _optimizer s).
Proof.
  cbv zeta.
  destruct (local_search_rearranges ant s) as [Hnew Hafter].
  split; [exact Hnew|]. split; [exact Hafter|]. split.
  { intros n Hperm. now apply (is_permutation_rearranged n _ (asarray ant)). }
  unfold local_search.
  destruct (search_rounds 3 (_ls s) (_instance s) (asarray ant))
    as [solution instance] eqn:Er.
  simpl. split; [reflexivity|]. split.
  - intros Hls. rewrite Hls in Er. simpl in Er. injection Er as <- <-.
    rewrite Hls. auto.
  - intros [Hls|Hls]; rewrite Hls; simpl; (split; [|reflexivity]).
    + apply swap_search_rearranges.
    + apply swap_search_rearranges.
Qed.

Lemma local_search_keeps_the_jobs_witness :
  let ant := mkAnt [0; 1; 2] in
  let s := set_world sample_world
             (mkACO (_optimizer paco_colony) 2 (rho paco_colony) ls_swap
                (_tau paco_colony) (_best paco_colony) (_Zbest paco_colony)
                (_instance paco_colony) (extra paco_colony)
                (world paco_colony)) in
  (is_permutation 3 (asarray ant) ->
   is_permutation 3 (asarray (fst (fst (local_search ant s))))) /\
  snd (fst (local_search ant s)) = asarray ant /\
  _optimizer (snd (local_search ant s)) = _optimizer s.
Proof.
  intros ant s.
  destruct (local_search_keeps_the_jobs _ _ ant s)
    as (_ & _ & Hperm & _ & _ & Hswap).
  split; [apply Hperm|apply Hswap; left; reflexivity].
Defined.

(** X10. [neh_algorithm] on an instance of n ≥ 1 jobs and m ≥ 1 machines
    returns a permutation of the jobs and changes nothing in the instance
    but the scratch buffer; on an instance without jobs it raises (it reads
    the first entry of an empty array). *)
Theorem neh_returns_a_permutation (instance : Instance) (n m : nat) :
  shape (p instance) n m -> shape (c instance) n m ->
  length (d instance) = n -> length (w instance) = n -> (1 <= m)%nat ->
  (n = 0%nat -> neh_algorithm instance = None) /\
  ((1 <= n)%nat ->
   exists solution instance',
     neh_algorithm instance = Some (solution, instance') /\
     is_permutation n solution /\
     p instance' = p instance /\ d instance' = d instance /\
     w instance' = w instance).
Proof.
  intros Hp Hc Hd Hw Hm. split.
  - intros Hn. unfold neh_algorithm.
    destruct (d instance); [reflexivity|]. simpl in Hd. lia.
  - intros Hn.
    assert (Hjobs : d instance <> []).
    { intros E. rewrite E in Hd. simpl in Hd. lia. }
    destruct (neh_algorithm_is_permutation instance Hjobs)
      as (solution & instance' & Hneh & Hperm).
    exists solution, instance'. split; [exact Hneh|].
    rewrite Hd in Hperm. split; [exact Hperm|].
    unfold neh_algorithm in Hneh.
    destruct (argsort (d instance)) as [|first others]; [discriminate|].
    destruct (fold_left _ others ([first], c instance)) as [sol c'].
    injection Hneh as <- <-. auto.
Qed.

Lemma neh_returns_a_permutation_witness :
  exists solution instance',
    neh_algorithm tiny_instance = Some (solution, instance') /\
    is_permutation 3 solution /\
    p instance' = p tiny_instance /\ d instance' = d tiny_instance /\
    w instance' = w tiny_instance.
Proof.
  apply (neh_returns_a_permutation tiny_instance 3 2).
  - split; [reflexivity|repeat constructor].
  - split; [reflexivity|repeat constructor].
  - reflexivity.
  - reflexivity.
  - lia.
  - lia.
Defined.

(** ** The constructor of MMAS *)

Module MmasFacts.
Import Matrix Objective Float Env Heuristics Colony ConstructionFacts.

Lemma filter_positions_kept (id : Z) (c : list Z) : forall a,
  id < Z.of_nat a ->
  length (List.filter (fun '(pos, _) => negb (Z.of_nat pos =? id)%Z)
            (zip (seq a (length c)) c)) = length c.
Proof.
  induction c as [|x c IH]; intros a Ha; [reflexivity|].
  simpl. destruct (Z.eqb_spec (Z.of_nat a) id) as [E|E]; [lia|].
  simpl. rewrite IH by lia. reflexivity.
Qed.







End MmasFacts.

Import Matrix Objective Float Env Heuristics Colony Samples ConstructionFacts
       MmasFacts.



(** ** The bounds of the MMAS trails *)

Module ClipFacts.
Import Objective Float Env BaseOpt Optimizers Colony FloatOrderFacts.

(** [np.clip] of a value that is not NaN lies between its bounds. *)
Lemma clip_between lo hi x :
  is_nan lo = false -> is_nan hi = false -> leb lo hi = true ->
  is_nan x = false ->
  leb lo (MMAS.clip lo hi x) = true /\ leb (MMAS.clip lo hi x) hi = true.
Proof.
  intros Hlo Hhi Hle Hx. unfold MMAS.clip, MMAS.fmaximum.
  rewrite Hx, Hlo. simpl.
  set (y := if ltb x lo then lo else x).
  assert (Hy : is_nan y = false /\ leb lo y = true).
  { unfold y. destruct (ltb x lo) eqn:E.
    - split; [exact Hlo|now apply leb_refl].
    - split; [exact Hx|now apply not_ltb_leb]. }
  destruct Hy as [Hny Hly].
  unfold MMAS.fminimum. rewrite Hny, Hhi. simpl.
  destruct (ltb hi y) eqn:E.
  - split; [exact Hle|now apply leb_refl].
  - split; [exact Hly|now apply not_ltb_leb].
Qed.

Lemma clip_nan lo hi x : is_nan x = true -> is_nan (MMAS.clip lo hi x) = true.
Proof.
  intros Hx. unfold MMAS.clip, MMAS.fmaximum, MMAS.fminimum.
  rewrite Hx. reflexivity.
Qed.

End ClipFacts.

Import Objective Float Env BaseOpt Optimizers Colony Samples ClipFacts.

(** X12. [MMAS.update_pheromones] ends with [np.clip]: when the bounds
    [_tau_min ≤ _tau_max] are not NaN, every entry of the trail matrix
    after the update is NaN or lies between the two bounds (rounded to
    [float32], as the matrix is), and the matrix keeps its number of
    rows. *)
Theorem mmas_trails_stay_between_bounds
    (O : Type) (E : Evaluator O) (ant : Ant) (s s' : ACO O MMAS.state) :
  let lo := to_f32 (MMAS._tau_min (extra s)) in
  let hi := to_f32 (MMAS._tau_max (extra s)) in
  is_nan lo = false -> is_nan hi = false -> leb lo hi = true ->
  MMAS.update_pheromones ant s = Some s' ->
  length (_tau s') = length (_tau s) /\
  forall i k row x,
    _tau s' !! i = Some row -> row !! k = Some x ->
    is_nan x = true \/ (leb lo x = true /\ leb x hi = true).
Proof.
  intros lo hi Hlo Hhi Hle Hu. unfold MMAS.update_pheromones in Hu.
  destruct (aco_evaluate ant s) as [[Zcurrent s1]|] eqn:Ee; [|discriminate].
  assert (Hextra : extra s1 = extra s /\ _tau s1 = _tau s /\
                   n_jobs s1 = n_jobs s1).
  { unfold aco_evaluate in Ee.
    destruct (evaluate (_instance s) (asarray ant) (_optimizer s))
      as [[[sc o1] inst1]|]; [|discriminate].
    injection Ee as <- <-. auto. }
  destruct Hextra as (Hx & Ht & _). rewrite Hx, Ht in Hu.
  fold lo hi in Hu. injection Hu as <-. simpl.
  set (tau := fold_left _ _ _).
  split.
  - rewrite length_map. unfold tau.
    apply (RearrangeFacts.fold_left_invariant
             (fun t : list (list float) => length t = length (_tau s))).
    + now rewrite length_map.
    + intros t k _ Hlen. unfold MMAS.deposit. now rewrite length_alter.
  - intros i k row x Hrow Hxk.
    rewrite list_lookup_fmap in Hrow.
    destruct (tau !! i) as [row0|]; [|discriminate].
    injection Hrow as <-.
    rewrite list_lookup_fmap in Hxk.
    destruct (row0 !! k) as [x0|]; [|discriminate].
    injection Hxk as <-.
    destruct (is_nan x0) eqn:Ex.
    + left. now apply clip_nan.
    + right. now apply clip_between.
Qed.

Lemma mmas_trails_stay_between_bounds_witness :
  let ant := _best mmas_colony in
  let lo := to_f32 (MMAS._tau_min (extra mmas_colony)) in
  let hi := to_f32 (MMAS._tau_max (extra mmas_colony)) in
  match MMAS.update_pheromones ant mmas_colony with
  | Some s' =>
      length (_tau s') = length (_tau mmas_colony) /\
      forall i k row x,
        _tau s' !! i = Some row -> row !! k = Some x ->
        is_nan x = true \/ (leb lo x = true /\ leb x hi = true)
  | None => False
  end.
Proof.
  intros ant lo hi.
  destruct (MMAS.update_pheromones ant mmas_colony) as [s'|] eqn:Eu.
  - apply (mmas_trails_stay_between_bounds Optimizer Optimizer_Evaluator
             ant mmas_colony s'); [reflexivity|reflexivity|reflexivity|].
    exact Eu.
  - vm_compute in Eu. discriminate Eu.
Defined.

(** ** The constructor of PACO away from its sampling branch *)

Module PacoFacts.
Import Matrix Objective Float Env Heuristics Colony PacoLoop.

Lemma argmax_from_bound l : forall pos mv mi,
  (argmax_from l pos mv mi = mi \/
   pos <= argmax_from l pos mv mi < pos + length l)%nat.
Proof.
  induction l as [|v l IH]; intros pos mv mi; simpl; [auto|].
  destruct (is_nan v); [right; lia|].
  destruct (ltb mv v).
  - destruct (IH (S pos) v pos) as [->|Hb]; right; lia.
  - destruct (IH (S pos) mv mi) as [->|Hb]; [auto|right; lia].
Qed.

(** [np.argmax] returns a position of the vector. *)
Lemma argmax_bound l a : argmax l = Some a -> (a < length l)%nat.
Proof.
  destruct l as [|v l]; [discriminate|]. simpl.
  destruct (is_nan v); intros [= <-]; [lia|].
  destruct (ltb v v).
  - destruct (argmax_from_bound l 1 v 0) as [->|Hb]; lia.
  - destruct (argmax_from_bound l 1 v 0) as [->|Hb]; lia.
Qed.

Lemma remove_position_from (c : list Z) : forall a id,
  (a <= id < a + length c)%nat ->
  map snd (List.filter (fun '(pos, _) => negb (Z.of_nat pos =? Z.of_nat id)%Z)
             (zip (seq a (length c)) c))
  = delete (id - a)%nat c.
Proof.
  induction c as [|x c IH]; intros a id Hid; [simpl in Hid; lia|].
  simpl. destruct (Z.eqb_spec (Z.of_nat a) (Z.of_nat id)) as [E|E]; simpl.
  - replace (id - a)%nat with 0%nat by lia. simpl.
    pose proof (MmasFacts.filter_positions_kept (Z.of_nat id) c (S a)
                  ltac:(lia)) as Hkept.
    clear IH. revert Hkept. generalize (S a). intros b Hkept.
    assert (Hall : forall (l : list (nat * Z)) f,
              length (List.filter f l) = length l -> List.filter f l = l).
    { induction l as [|y l IHl]; intros f Hl; [reflexivity|].
      simpl in *. destruct (f y); simpl in *.
      - f_equal. apply IHl. lia.
      - pose proof (List.filter_length_le f l). lia. }
    rewrite Hall.
    + change (map snd ?l) with (l.*2). apply snd_zip. rewrite length_seq. lia.
    + rewrite Hkept. rewrite length_zip, length_seq. lia.
  - destruct (id - a)%nat as [|j] eqn:Ej; [lia|]. simpl. f_equal.
    rewrite (IH (S a) id) by (simpl in Hid; lia).
    f_equal. lia.
Qed.

Lemma remove_position_delete (c : list Z) (id : nat) :
  (id < length c)%nat ->
  remove_position c (Z.of_nat id) = delete id c.
Proof.
  intros Hid. unfold remove_position.
  rewrite (remove_position_from c 0 id) by lia. f_equal. lia.
Qed.

Lemma shift_left_delete (c : list Z) (id : nat) (refill : Z) :
  (id < length c)%nat ->
  exists shifted,
    PACO.shift_left c (Z.of_nat id) = Some shifted /\
    <[(length shifted - 1)%nat := refill]> shifted = delete id c ++ [refill].
Proof.
  intros Hid. unfold PACO.shift_left, PACO.slice_bound.
  destruct (Z.ltb_spec (Z.of_nat id) 0) as [Hneg|_]; [lia|].
  destruct (Z.ltb_spec (-1) 0) as [_|Hneg]; [|lia].
  destruct (Z.ltb_spec (Z.of_nat id + 1) 0) as [Hneg|_]; [lia|].
  replace (Z.to_nat (Z.min (Z.max (Z.of_nat id) 0) (Z.of_nat (length c))))
    with id by lia.
  replace (Z.to_nat (Z.min (Z.max (-1 + Z.of_nat (length c)) 0)
                       (Z.of_nat (length c))))
    with (length c - 1)%nat by lia.
  replace (Z.to_nat (Z.min (Z.max (Z.of_nat id + 1) 0)
                       (Z.of_nat (length c))))
    with (S id) by lia.
  rewrite length_skipn.
  destruct (Nat.eqb_spec (length c - S id) (length c - 1 - id)) as [_|Hne];
    [|lia].
  eexists. split; [reflexivity|].
  replace (id + (length c - S id))%nat with (length c - 1)%nat by lia.
  rewrite !length_app, length_firstn, !length_skipn.
  replace (Init.Nat.min id (length c)) with id by lia.
  replace (id + (length c - S id + (length c - (length c - 1))) - 1)%nat
    with (length (firstn id c ++ skipn (S id) c) + 0)%nat
    by (rewrite length_app, length_firstn, length_skipn; lia).
  rewrite app_assoc, insert_app_r.
  destruct (skipn (length c - 1) c) as [|y rest] eqn:Ed.
  { apply (f_equal length) in Ed. rewrite length_skipn in Ed.
    simpl in Ed. lia. }
  assert (rest = []) as ->.
  { apply (f_equal length) in Ed. rewrite length_skipn in Ed.
    simpl in Ed. destruct rest; [done|simpl in Ed; lia]. }
  simpl. now rewrite delete_take_drop.
Qed.

Lemma read_int_inside w (a : list Z) (i : nat) x :
  a !! i = Some x -> read_int w a (Z.of_nat i) = x.
Proof.
  intros Hx. pose proof (lookup_lt_Some _ _ _ Hx) as Hlt.
  unfold read_int.
  destruct (Z.ltb_spec (Z.of_nat i) 0) as [Hneg|_]; [lia|].
  destruct (Z.leb_spec 0 (Z.of_nat i)) as [_|Hneg]; [|lia].
  destruct (Z.ltb_spec (Z.of_nat i) (Z.of_nat (length a))) as [_|Hge]; [|lia].
  simpl. rewrite Nat2Z.id, Hx. reflexivity.
Qed.

Lemma take_insert_next (l : list Z) k x :
  (k < length l)%nat -> firstn (S k) (<[k := x]> l) = firstn k l ++ [x].
Proof.
  intros Hk. rewrite (take_S_r _ _ x).
  - now rewrite take_insert_ge by lia.
  - now apply list_lookup_insert_eq.
Qed.

(** One position of the loop, when the draw is at most 0.8. *)
Lemma paco_place_step T n best w0 k st :
  (5 <= n)%nat -> length best = n -> (k < n)%nat ->
  placed n best w0 k st ->
  leb (stream w0 (drawn w0 + k)) (f64_ratio 8 10) = true ->
  exists st', PACO.place T n best (Some st) k = Some st' /\
              placed n best w0 (S k) st'.
Proof.
  intros Hn Hbest Hk Hplaced Hdraw.
  destruct st as [cands next sol w].
  destruct Hplaced as (Hsol & Hnext & Hcands & Hperm & Hstream & Hdrawn
                       & Hsi & Hsf).
  simpl in Hsol, Hnext, Hcands, Hperm, Hstream, Hdrawn, Hsi, Hsf.
  unfold PACO.place, rand. cbn [PACO.ks_world PACO.ks_candidates
                                PACO.ks_solution PACO.ks_next_id].
  rewrite Hstream, Hdrawn.
  set (w1 := mkWorld (clock w) (clock_reads w) (stream w0) (S (drawn w0 + k))
                     (seeded w) (stray_int w) (stray_float w)).
  set (trails := map (fun job => read_trail w1 T job k) cands).
  assert (Hne : (1 <= length cands)%nat) by lia.
  assert (Hchoice : exists id,
            (if leb (stream w0 (drawn w0 + k)) (f64_ratio 4 10)
             then Some (0, w1)
             else if leb (stream w0 (drawn w0 + k)) (f64_ratio 8 10)
                  then match argmax trails with
                       | Some a => Some (Z.of_nat a, w1)
                       | None => None
                       end
                  else let '(r, w2) := (stream w1 (drawn w1),
                                        mkWorld (clock w1) (clock_reads w1)
                                          (stream w1) (S (drawn w1))
                                          (seeded w1) (stray_int w1)
                                          (stray_float w1)) in
                       Some (read_arange w2 5 (sample_position trails r), w2))
            = Some (Z.of_nat id, w1) /\ (id < length cands)%nat).
  { destruct (leb (stream w0 (drawn w0 + k)) (f64_ratio 4 10)).
    - exists 0%nat. split; [reflexivity|lia].
    - rewrite Hdraw.
      destruct (argmax trails) as [a|] eqn:Ea.
      + exists a. split; [reflexivity|].
        apply argmax_bound in Ea. unfold trails in Ea.
        now rewrite length_map in Ea.
      + destruct cands; [simpl in Hne; lia|discriminate Ea]. }
  destruct Hchoice as (id & Hchoice & Hid).
  change (stream w1 (drawn w1)) with (stream w0 (S (drawn w0 + k)))
    in Hchoice.
  match goal with
  | |- context [match ?c with Some _ => _ | None => _ end] =>
      replace c with (Some (Z.of_nat id, w1))
  end.
  destruct (lookup_lt_is_Some_2 cands id Hid) as [x Hx].
  rewrite (read_int_inside w1 cands id x Hx).
  assert (Htake : firstn (S k) (<[k := x]> sol) = firstn k sol ++ [x])
    by (apply take_insert_next; lia).
  pose proof (delete_Permutation cands id x Hx) as Hdel.
  destruct (Nat.ltb_spec next n) as [Hlt|Hge].
  - destruct (shift_left_delete cands id
                (read_int w1 best (Z.of_nat next)) Hid)
      as (shifted & -> & Hins).
    rewrite Hins.
    destruct (lookup_lt_is_Some_2 best next ltac:(lia)) as [b Hb].
    rewrite (read_int_inside w1 best next b Hb).
    eexists. split; [reflexivity|].
    unfold placed. cbn [PACO.ks_world PACO.ks_candidates PACO.ks_solution
                         PACO.ks_next_id].
    split; [rewrite length_insert; exact Hsol|].
    split; [lia|].
    split; [rewrite length_app, length_delete by eauto; simpl; lia|].
    split; [|unfold w1; simpl; repeat split; auto; lia].
    rewrite Htake. rewrite <- Hperm at 2.
    rewrite (drop_S best b next Hb).
    rewrite Hdel at 2.
    rewrite <- !app_assoc. apply Permutation_app_head. simpl.
    reflexivity.
  - rewrite (remove_position_delete cands id Hid).
    eexists. split; [reflexivity|].
    unfold placed. cbn [PACO.ks_world PACO.ks_candidates PACO.ks_solution
                         PACO.ks_next_id].
    split; [rewrite length_insert; exact Hsol|].
    split; [lia|].
    split; [rewrite length_delete by eauto; lia|].
    split; [|unfold w1; simpl; repeat split; auto; lia].
    rewrite Htake. rewrite <- Hperm at 2.
    rewrite Hdel at 2.
    rewrite <- !app_assoc. apply Permutation_app_head. simpl.
    reflexivity.
Qed.

Lemma paco_loop_steps T n best w0 st0 t :
  (5 <= n)%nat -> length best = n -> (t <= n)%nat ->
  placed n best w0 0 st0 ->
  (forall k, (k < n)%nat ->
     leb (stream w0 (drawn w0 + k)) (f64_ratio 8 10) = true) ->
  exists st', fold_left (PACO.place T n best) (seq 0 t) (Some st0) = Some st' /\
              placed n best w0 t st'.
Proof.
  intros Hn Hbest Ht H0 Hdraws. induction t as [|t IH]; [simpl; eauto|].
  destruct IH as (st1 & Hfold & Hplaced); [lia|].
  rewrite seq_S, fold_left_app, Hfold. cbn [fold_left]. simpl.
  apply paco_place_step; auto; lia.
Qed.

End PacoFacts.

Import Matrix Objective Float Env Heuristics Colony PacoLoop PacoFacts.

(** X13. [PACO.create_solution] on at least five jobs, in a colony whose
    trail matrix has one row per job and whose best sequence has one entry
    per job: when each of the next n uniform draws is at most 0.8, so that
    every position takes the first candidate or the candidate of largest
    cumulated trail and none is sampled, the call returns a rearrangement of
    the best sequence (a permutation of the jobs when the best sequence is
    one) and uses exactly n draws. *)
Theorem paco_create_solution_without_sampling
    (O : Type) (s : ACO O PACO.state) :
  let n := n_jobs s in
  (5 <= n)%nat -> length (_tau s) = n -> length (asarray (_best s)) = n ->
  (forall k, (k < n)%nat ->
     leb (stream (world s) (drawn (world s) + k)) (f64_ratio 8 10) = true) ->
  exists ant s',
    PACO.create_solution s = Some (ant, false, s') /\
    asarray ant ≡ₚ asarray (_best s) /\
    (forall m, is_permutation m (asarray (_best s)) ->
               is_permutation m (asarray ant)) /\
    drawn (world s') = (drawn (world s) + n)%nat.
Proof.
  intros n Hn Htau Hbest Hdraws.
  set (best := asarray (_best s)) in *.
  unfold PACO.create_solution, PACO._create_solution. fold n best.
  rewrite length_map, Htau.
  change (length (replicate 5 0)) with 5%nat.
  change (seqZ 0 (Z.of_nat 5)) with [0; 1; 2; 3; 4].
  assert (Hinit : map (fun next_id => read_int (world s) best next_id)
                      [0; 1; 2; 3; 4] = firstn 5 best).
  { destruct best as [|b0 [|b1 [|b2 [|b3 [|b4 rest]]]]];
      simpl in Hbest; try lia.
    simpl.
    rewrite (read_int_inside _ _ 0 b0), (read_int_inside _ _ 1 b1),
      (read_int_inside _ _ 2 b2), (read_int_inside _ _ 3 b3),
      (read_int_inside _ _ 4 b4); reflexivity. }
  rewrite Hinit.
  destruct (paco_loop_steps (map fcumsum (_tau s)) n best (world s)
              (PACO.mkKernel (firstn 5 best) 5 (seqZ 0 (Z.of_nat n))
                 (world s)) n) as (st & -> & Hplaced); auto.
  { unfold placed. cbn [PACO.ks_world PACO.ks_candidates PACO.ks_solution
                         PACO.ks_next_id].
    split; [rewrite length_seqZ; lia|]. split; [lia|].
    split; [rewrite length_firstn; lia|].
    split; [now rewrite take_drop|].
    repeat split; lia. }
  destruct Hplaced as (Hsol & Hnext & Hcands & Hperm & _ & Hdrawn & _).
  eexists _, _. split; [reflexivity|]. simpl.
  assert (Hre : PACO.ks_solution st ≡ₚ best).
  { rewrite firstn_all2 in Hperm by lia.
    rewrite skipn_all2 in Hperm by (fold best; lia).
    destruct (PACO.ks_candidates st); [|simpl in Hcands; lia].
    simpl in Hperm. now rewrite app_nil_r in Hperm. }
  split; [exact Hre|]. split; [|exact Hdrawn].
  intros m Hm. unfold is_permutation in *. now rewrite Hre.
Qed.

Lemma paco_create_solution_without_sampling_witness :
  exists ant s',
    PACO.create_solution six_colony = Some (ant, false, s') /\
    asarray ant ≡ₚ asarray (_best six_colony) /\
    (forall m, is_permutation m (asarray (_best six_colony)) ->
               is_permutation m (asarray ant)) /\
    drawn (world s') = (drawn (world six_colony) + 6)%nat.
Proof.
  apply (paco_create_solution_without_sampling Optimizers.Optimizer
           six_colony).
  - change (5 <= 6)%nat. lia.
  - reflexivity.
  - reflexivity.
  - intros k _. reflexivity.
Defined.

(** ** Sign of the weighted tardiness *)

Module TardinessFacts.
Import FixedWidth FixedWidthFacts Matrix Objective.

Lemma tardiness_bounds completion due :
  Forall (fun t => 0 <= t <= max_int32) (tardiness completion due).
Proof.
  unfold tardiness. revert due.
  induction completion as [|ci completion IH]; intros [|di due]; simpl;
    try constructor; [|apply IH].
  pose proof (int32_range (ci - di)) as Hr.
  unfold in_int32, min_int32, max_int32 in *. lia.
Qed.

Lemma gather_bounds (a solution : list Z) W :
  0 <= W -> Forall (fun x => 0 <= x <= W) a ->
  Forall (fun x => 0 <= x <= W) (gather a solution).
Proof.
  intros HW Ha. unfold gather. apply Forall_fmap, list.Forall_forall.
  intros s _. simpl.
  destruct (a !! norm_index (length a) s) as [x|] eqn:E; simpl; [|lia].
  rewrite Forall_lookup in Ha. eauto.
Qed.

Lemma length_gather (a solution : list Z) :
  length (gather a solution) = length solution.
Proof. unfold gather. apply length_map. Qed.

Lemma fold_add_shift l : forall a, fold_left Z.add l a = a + fold_left Z.add l 0.
Proof.
  induction l as [|x l IH]; intros a; cbn [fold_left]; [lia|].
  rewrite (IH (a + x)), (IH (0 + x)). lia.
Qed.

(** A sum of products of bounded factors. *)
Lemma products_bounds (u v : list Z) W T :
  0 <= W -> 0 <= T ->
  Forall (fun x => 0 <= x <= W) u -> Forall (fun x => 0 <= x <= T) v ->
  0 <= fold_left Z.add (zip_with Z.mul u v) 0 <= Z.of_nat (length u) * W * T.
Proof.
  intros HW HT Hu. revert v.
  induction Hu as [|x u Hx Hu IH]; intros v Hv; [simpl; lia|].
  destruct Hv as [|y v Hy Hv]; [simpl length; simpl; nia|].
  simpl zip_with. simpl fold_left. rewrite fold_add_shift.
  specialize (IH v Hv).
  replace (Z.of_nat (length (x :: u))) with (Z.of_nat (length u) + 1)
    by (simpl length; lia).
  nia.
Qed.

(** A sum of products of factors that are not negative is zero exactly
    when each product is. *)
Lemma products_zero (u v : list Z) :
  Forall (fun x => 0 <= x) u -> Forall (fun x => 0 <= x) v ->
  fold_left Z.add (zip_with Z.mul u v) 0 = 0 <->
  Forall (fun x => x = 0) (zip_with Z.mul u v).
Proof.
  intros Hu. revert v.
  induction Hu as [|x u Hx Hu IH]; intros v Hv; [simpl; split; auto|].
  destruct Hv as [|y v Hy Hv]; [simpl; split; auto|].
  simpl zip_with. simpl fold_left. rewrite fold_add_shift.
  specialize (IH v Hv).
  assert (Hsum : 0 <= fold_left Z.add (zip_with Z.mul u v) 0).
  { clear IH. revert v Hv. induction Hu as [|a u Ha Hu IHu]; intros v Hv;
      [simpl; lia|].
    destruct Hv as [|b v Hb Hv]; [simpl; lia|].
    simpl zip_with. simpl fold_left. rewrite fold_add_shift.
    specialize (IHu v Hv). nia. }
  split.
  - intros Hz. constructor; [nia|]. apply IH. nia.
  - intros Hall. inversion Hall as [|? ? Hxy Hrest]; subst.
    apply IH in Hrest. lia.
Qed.

End TardinessFacts.

Import FixedWidth FixedWidthFacts Matrix Objective TardinessFacts.

(** X14. [weighted_tardiness] with weights between 0 and W on a sequence
    of n entries with n · W < 2^32: the value is not negative, whatever the
    completion times are (a tardiness is at least 0 and at most 2^31 − 1
    even when the completion times have wrapped around), and it is zero
    exactly when every job has weight zero or is not late. *)
Theorem weighted_tardiness_is_not_negative
    (instance : Instance) (solution : list Z) (refresh : bool) (W : Z) :
  0 <= W -> Forall (fun x => 0 <= x <= W) (w instance) ->
  Z.of_nat (length solution) * W < 2 ^ 32 ->
  let result := weighted_tardiness instance solution refresh in
  let late := tardiness (last_column (c (snd result)))
                        (gather (d instance) solution) in
  let weights := gather (w instance) solution in
  0 <= fst result <= Z.of_nat (length solution) * W * max_int32 /\
  (fst result = 0 <-> Forall (fun x => x = 0) (zip_with Z.mul weights late)).
Proof.
  intros HW Hw Hsmall result late weights.
  assert (Hvalue : fst result = dot weights late).
  { unfold result, late, weights, weighted_tardiness, objective.
    destruct refresh; reflexivity. }
  pose proof (tardiness_bounds (last_column (c (snd result)))
                (gather (d instance) solution)) as Hlate.
  fold late in Hlate.
  pose proof (gather_bounds _ solution _ HW Hw) as Hweights.
  fold weights in Hweights.
  assert (Hsum : 0 <= fold_left Z.add (zip_with Z.mul weights late) 0
                 <= Z.of_nat (length solution) * W * max_int32).
  { pose proof (products_bounds weights late W max_int32 HW
                  ltac:(unfold max_int32; lia) Hweights Hlate) as Hb.
    unfold weights in Hb at 3. rewrite length_gather in Hb. exact Hb. }
  rewrite Hvalue. unfold dot.
  rewrite int64_id by (unfold max_int32 in Hsum; nia).
  split; [exact Hsum|].
  apply products_zero.
  - eapply Forall_impl; [exact Hweights|]. simpl. intros x Hx. lia.
  - eapply Forall_impl; [exact Hlate|]. simpl. intros x Hx. lia.
Qed.

Lemma weighted_tardiness_is_not_negative_witness :
  let result := weighted_tardiness forced_instance [1; 0] true in
  let late := tardiness (last_column (c (snd result)))
                        (gather (d forced_instance) [1; 0]) in
  let weights := gather (w forced_instance) [1; 0] in
  0 <= fst result <= Z.of_nat (length [1; 0]) * 2 * max_int32 /\
  (fst result = 0 <-> Forall (fun x => x = 0) (zip_with Z.mul weights late)).
Proof.
  apply (weighted_tardiness_is_not_negative forced_instance [1; 0] true 2).
  - lia.
  - repeat constructor; simpl; lia.
  - simpl. lia.
Defined.

(** ** The rounds of NEH *)

Module NehFacts.
Import FixedWidth Matrix MatrixFacts Objective Heuristics KernelFacts
       ObjectiveFacts BufferFacts NehRounds.

Lemma shape_take_rows_valid P n m (seq : list Z) :
  shape P n m -> Forall (fun s => 0 <= s < Z.of_nat n) seq ->
  shape (take_rows P seq) (length seq) m.
Proof.
  intros [Hl Hr] Hvalid. split.
  - unfold take_rows. apply length_map.
  - unfold take_rows. rewrite Forall_fmap.
    eapply Forall_impl; [exact Hvalid|]. simpl. intros s Hs.
    rewrite Hl. pose proof (norm_index_valid _ _ Hs) as Hlt.
    unfold row. destruct (P !! norm_index n s) as [r|] eqn:E; simpl.
    + rewrite Forall_lookup in Hr. eauto.
    + apply lookup_ge_None_1 in E. lia.
Qed.

Lemma shape_first_rows c n m k :
  shape c n m -> (k <= n)%nat -> shape (first_rows c k) k m.
Proof.
  intros [Hl Hr] Hk. unfold first_rows. split.
  - rewrite length_firstn. lia.
  - now apply Forall_take.
Qed.

Lemma shape_write_first_rows c view n m k :
  shape c n m -> shape view k m -> (k <= n)%nat ->
  shape (write_first_rows c view) n m.
Proof.
  intros [Hl Hr] [Hlv Hrv] Hk. unfold write_first_rows. split.
  - rewrite length_app, length_skipn. lia.
  - apply Forall_app. split; [exact Hrv|]. now apply Forall_drop.
Qed.

Lemma length_insert_at (l : list Z) h x :
  length (insert_at l h x) = S (length l).
Proof.
  unfold insert_at. rewrite length_app, length_firstn. simpl.
  rewrite length_skipn. lia.
Qed.

Lemma insert_at_valid (l : list Z) h x n :
  Forall (fun s => 0 <= s < Z.of_nat n) l -> 0 <= x < Z.of_nat n ->
  Forall (fun s => 0 <= s < Z.of_nat n) (insert_at l h x).
Proof.
  intros Hl Hx. unfold insert_at. apply Forall_app. split.
  - now apply Forall_take.
  - constructor; [exact Hx|]. now apply Forall_drop.
Qed.

Section Round.
Context (instance : Instance) (solution : list Z) (x : Z) (n m : nat).
Context (Hp : shape (p instance) n m) (Hc : shape (c instance) n m).
Context (Hm : (1 <= m)%nat) (He : entries_int32 (p instance)).
Context (Hsol : Forall (fun s => 0 <= s < Z.of_nat n) solution).
Context (Hx : 0 <= x < Z.of_nat n) (Hk : (length solution < n)%nat).

Local Abbreviation value :=
  (fun h => partial_wt instance (insert_at solution h x)).
Local Abbreviation tried := (NehRounds.tried instance solution x n m).

Lemma neh_try_value st h :
  shape (neh_c st) n m ->
  let st' := neh_try (p instance) (w instance) (d instance) solution x st h in
  shape (neh_c st') n m /\
  ((match best_wt st with
    | None => true
    | Some b => value h <? b
    end = true ->
    best_wt st' = Some (value h) /\ best_idx st' = h) /\
   (match best_wt st with
    | None => true
    | Some b => value h <? b
    end = false ->
    best_wt st' = best_wt st /\ best_idx st' = best_idx st)).
Proof.
  intros Hshape. cbv zeta. unfold neh_try.
  set (partial_indices := insert_at solution h x).
  assert (Hlen : length partial_indices = S (length solution))
    by apply length_insert_at.
  assert (Hvalid : Forall (fun s => 0 <= s < Z.of_nat n) partial_indices)
    by now apply insert_at_valid.
  pose proof (shape_take_rows_valid _ _ _ _ Hp Hvalid) as HP.
  pose proof (entries_int32_take_rows _ partial_indices He) as HE.
  assert (Hview : shape (first_rows (neh_c st) (length partial_indices))
                        (length partial_indices) m)
    by (apply (shape_first_rows _ n); [exact Hshape|lia]).
  assert (Hview0 : shape (first_rows (c instance) (length partial_indices))
                         (length partial_indices) m)
    by (apply (shape_first_rows _ n); [exact Hc|lia]).
  rewrite (computation_times_buffer
             (first_rows (neh_c st) (length partial_indices))
             (first_rows (c instance) (length partial_indices))
             _ (length partial_indices) m) by (auto; lia).
  set (ordered_c := computation_times
                      (first_rows (c instance) (length partial_indices))
                      (take_rows (p instance) partial_indices)).
  assert (Hordered : shape ordered_c (length partial_indices) m)
    by (apply computation_times_shape; auto; lia).
  change (dot (gather (w instance) partial_indices)
              (tardiness (last_column ordered_c)
                         (gather (d instance) partial_indices)))
    with (value h).
  assert (Hwrite : shape (write_first_rows (neh_c st) ordered_c) n m)
    by (apply (shape_write_first_rows _ _ n m (length partial_indices));
        auto; lia).
  clearbody ordered_c. unfold partial_indices in *.
  destruct (match best_wt st with
            | Some b => value h <? b
            | None => true
            end) eqn:Ebetter; simpl;
    (split; [exact Hwrite|]); split; intros Hq; try discriminate Hq; auto.
Qed.

Lemma tried_step t st :
  tried t st ->
  tried (S t)
    (neh_try (p instance) (w instance) (d instance) solution x st t).
Proof.
  intros [Hshape Hbest].
  destruct (neh_try_value st t Hshape) as (Hshape' & Hyes & Hno).
  cbv zeta in Hshape', Hyes, Hno.
  split; [exact Hshape'|].
  destruct t as [|t].
  - rewrite Hbest in Hyes. destruct (Hyes eq_refl) as [Hwt Hidx].
    rewrite Hidx. split; [lia|]. split; [exact Hwt|].
    intros h Hh. replace h with 0%nat by lia. split; [lia|lia].
  - destruct Hbest as (Hidx & Hwt & Hall). rewrite Hwt in Hyes, Hno.
    destruct (Z.ltb_spec (value (S t)) (value (best_idx st))) as [Hlt|Hge].
    + destruct (Hyes eq_refl) as [Hwt' Hidx']. rewrite Hidx'.
      split; [lia|]. split; [exact Hwt'|].
      intros h Hh. destruct (decide (h = S t)) as [->|Hne]; [lia|].
      destruct (Hall h ltac:(lia)) as [Hle _]. lia.
    + destruct (Hno eq_refl) as [Hwt' Hidx']. rewrite Hidx'.
      split; [lia|]. split; [congruence|].
      intros h Hh. destruct (decide (h = S t)) as [->|Hne]; [lia|].
      apply Hall. lia.
Qed.

Lemma tried_loop t st0 :
  tried 0 st0 ->
  tried t (fold_left (neh_try (p instance) (w instance) (d instance)
                        solution x) (seq 0 t) st0).
Proof.
  intros H0. induction t as [|t IH]; [exact H0|].
  rewrite seq_S, fold_left_app. cbn [fold_left]. simpl.
  now apply tried_step.
Qed.

End Round.

End NehFacts.

Import FixedWidth Matrix Objective Heuristics NehRounds NehFacts.

(** X15. One round of the outer loop of [neh_algorithm], which places
    the next job [x] in a partial sequence of k < n jobs of an instance of n
    jobs and m ≥ 1 machines: the job is inserted at one of the k + 1
    positions, the weighted tardiness of the resulting partial sequence is
    the smallest among the k + 1 insertions, the position is the first one
    that reaches it, and the buffer keeps its shape. *)
Theorem neh_round_is_greedy
    (instance : Instance) (solution : list Z) (x : Z) (c0 : matrix)
    (n m : nat) :
  shape (p instance) n m -> shape (c instance) n m -> shape c0 n m ->
  (1 <= m)%nat -> entries_int32 (p instance) ->
  Forall (fun s => 0 <= s < Z.of_nat n) solution ->
  0 <= x < Z.of_nat n -> (length solution < n)%nat ->
  let value h := partial_wt instance (insert_at solution h x) in
  let round := neh_place (p instance) (w instance) (d instance)
                         (solution, c0) x in
  shape (snd round) n m /\
  exists h, (h <= length solution)%nat /\
    fst round = insert_at solution h x /\
    forall h', (h' <= length solution)%nat ->
      value h <= value h' /\ ((h' < h)%nat -> value h < value h').
Proof.
  intros Hp Hc Hc0 Hm He Hsol Hx Hk value round.
  unfold round, neh_place.
  pose proof (tried_loop instance solution x n m Hp Hc Hm He Hsol Hx Hk
                (length solution + 1) (mkNeh c0 None 0)) as Hloop.
  destruct Hloop as [Hshape Hbest].
  { split; [exact Hc0|reflexivity]. }
  set (st := fold_left _ _ _) in *.
  replace (length solution + 1)%nat with (S (length solution)) in Hbest
    by lia.
  destruct Hbest as (Hidx & _ & Hall).
  simpl. split; [exact Hshape|].
  exists (best_idx st). split; [lia|]. split; [reflexivity|].
  intros h' Hh'. apply Hall. lia.
Qed.

Lemma neh_round_is_greedy_witness :
  let value h := partial_wt tiny_instance (insert_at [0; 1] h 2) in
  let round := neh_place (p tiny_instance) (w tiny_instance)
                         (d tiny_instance) ([0; 1], c tiny_instance) 2 in
  shape (snd round) 3 2 /\
  exists h, (h <= length [0; 1])%nat /\
    fst round = insert_at [0; 1] h 2 /\
    forall h', (h' <= length [0; 1])%nat ->
      value h <= value h' /\ ((h' < h)%nat -> value h < value h').
Proof.
  apply (neh_round_is_greedy tiny_instance [0; 1] 2 (c tiny_instance) 3 2).
  - split; [reflexivity|repeat constructor].
  - split; [reflexivity|repeat constructor].
  - split; [reflexivity|repeat constructor].
  - lia.
  - repeat constructor; unfold min_int32, max_int32; simpl; lia.
  - repeat constructor; simpl; lia.
  - simpl. lia.
  - simpl. lia.
Defined.

(** ** Reading lines *)

Module IOFacts.
Import IO.

Section Readline.
Variable isalnum : N -> bool.

Lemma counts_true line :
  counts isalnum line = Returned true <-> accepted isalnum line.
Proof.
  unfold counts, accepted.
  destruct (Nat.ltb_spec 2 (length line)) as [Hlong|Hshort].
  - split; auto.
  - destruct line as [|c rest].
    + split; [discriminate|]. intros [H|(c & rest & H & _)];
        [simpl in H; lia|discriminate].
    + split.
      * intros [= Hc]. right. eauto.
      * intros [H|(c' & rest' & [= <- <-] & Hc)]; [lia|]. now rewrite Hc.
Qed.

Lemma strip_line_feeds_clean line : line_feed ∉ strip_line_feeds line.
Proof.
  unfold strip_line_feeds. intros Hin.
  apply list_elem_of_In, List.filter_In in Hin as [_ Hin].
  rewrite N.eqb_refl in Hin. discriminate.
Qed.

Lemma counts_returns line : line <> [] -> counts isalnum line <> IndexError.
Proof.
  intros Hne. unfold counts. destruct (2 <? length line)%nat; [discriminate|].
  destruct line; [done|discriminate].
Qed.

Lemma readline_from_spec f : forall line,
  line <> [] -> Forall (fun l => l <> []) f ->
  match readline_from isalnum line f with
  | Returned (result, rest) =>
      exists skipped raw,
        line :: f = skipped ++ raw :: rest /\
        Forall (fun l => ~ accepted isalnum l) skipped /\
        accepted isalnum raw /\ result = strip_line_feeds raw
  | IndexError => Forall (fun l => ~ accepted isalnum l) (line :: f)
  end.
Proof.
  induction f as [|next f IH]; intros line Hline Hf.
  - simpl. pose proof (counts_returns line Hline) as Hc.
    destruct (counts isalnum line) as [[|]|] eqn:Ec; [| |done].
    + apply counts_true in Ec. exists [], line. auto.
    + constructor; [|constructor]. rewrite <- counts_true. congruence.
  - simpl. pose proof (counts_returns line Hline) as Hc.
    destruct (counts isalnum line) as [[|]|] eqn:Ec; [| |done].
    + apply counts_true in Ec. exists [], line. auto.
    + assert (Hno : ~ accepted isalnum line)
        by (rewrite <- counts_true; congruence).
      apply list.Forall_cons in Hf as [Hnext Hf].
      specialize (IH next Hnext Hf).
      destruct (readline_from isalnum next f) as [[result rest]|].
      * destruct IH as (skipped & raw & Heq & Hskipped & Hraw & Hres).
        exists (line :: skipped), raw. simpl. rewrite Heq. auto.
      * constructor; assumption.
Qed.

End Readline.

End IOFacts.

Import IO IOFacts.

(** X16. [PFSPWTIO.readline], whatever [str.isalnum] is, on a file of
    which some lines are left to read: it returns the first of these lines
    that has more than two characters or starts with an alphanumeric
    character, without its line feeds, and leaves the file after that line;
    the lines it skips have one or two characters and do not start with an
    alphanumeric character.  When no line left is of that kind, in
    particular at the end of the file, it raises [IndexError] (it reads the
    first character of the empty string): it never returns an empty line,
    and its own exception is never raised. *)
Theorem readline_returns_next_line
    (isalnum : N -> bool) (f : list str) :
  Forall (fun l => l <> []) f ->
  match readline isalnum f with
  | Returned (result, rest) =>
      exists skipped raw,
        f = skipped ++ raw :: rest /\
        Forall (fun l => ~ accepted isalnum l /\ (length l <= 2)%nat) skipped /\
        accepted isalnum raw /\ result = strip_line_feeds raw /\
        line_feed ∉ result
  | IndexError => Forall (fun l => ~ accepted isalnum l) f
  end.
Proof.
  intros Hf. destruct f as [|line f]; [simpl; constructor|].
  apply list.Forall_cons in Hf as [Hline Hf]. simpl.
  pose proof (readline_from_spec isalnum f line Hline Hf) as Hspec.
  destruct (readline_from isalnum line f) as [[result rest]|]; [|exact Hspec].
  destruct Hspec as (skipped & raw & Heq & Hskipped & Hraw & ->).
  exists skipped, raw. split; [exact Heq|]. split.
  - eapply Forall_impl; [exact Hskipped|]. simpl. intros l Hl.
    split; [exact Hl|]. unfold accepted in Hl.
    destruct (decide (length l <= 2)%nat); [done|].
    exfalso. apply Hl. left. lia.
  - split; [exact Hraw|]. split; [reflexivity|].
    apply strip_line_feeds_clean.
Qed.

Lemma readline_returns_next_line_witness :
  match readline ascii_isalnum [[10]; [32; 10]; [51; 32; 50; 10]; [10]]%N with
  | Returned (result, rest) =>
      exists skipped raw,
        [[10]; [32; 10]; [51; 32; 50; 10]; [10]]%N = skipped ++ raw :: rest /\
        Forall (fun l => ~ accepted ascii_isalnum l /\ (length l <= 2)%nat)
               skipped /\
        accepted ascii_isalnum raw /\ result = strip_line_feeds raw /\
        line_feed ∉ result
  | IndexError =>
      Forall (fun l => ~ accepted ascii_isalnum l)
             [[10]; [32; 10]; [51; 32; 50; 10]; [10]]%N
  end.
Proof.
  apply (readline_returns_next_line ascii_isalnum).
  repeat constructor; discriminate.
Defined.
